(** * Adjacency-list tree engine: a verification development

    Shallow embedding of [src/database/queries.js] (class [TreeQueries]) and
    [src/services/treeService.js] (class [TreeService]).

    - The [nodes] table of [schema.sql] is a list of rows together with the
      AUTOINCREMENT high-water mark kept by SQLite in [sqlite_sequence].
    - JavaScript numbers used as identifiers are [Z], which is exact for
      integers up to [maxSafeInteger]; [null] is [None].
    - A JavaScript [Map] is a [gmap]; arrays are lists.
    - Loops and recursions over [await]ed calls that the source does not
      bound take a [fuel] argument; [None] means that the loop is still
      running when the fuel is used up.  A function that the source bounds
      itself takes no fuel.
    - The synchronous recursion of [sortChildrenRecursively] runs on the
      call stack of the engine, which holds [stack] nested calls of it; one
      call more is the engine's [RangeError].
    - The database fails in one way only: an insert into a table whose
      AUTOINCREMENT mark has reached the largest rowid is refused
      ([DatabaseFull]).  The other exceptions are the ones the two classes
      throw themselves and the engine's errors named in [Error]. *)

From Stdlib Require Import ZArith String.
From stdpp Require Import base option list sorting relations gmap.

Local Open Scope Z_scope.

(** ** Data model *)

(** A row of table [nodes].  Column [created_at] is filled by the database
    clock and read by no function of the engine; it is left out. *)
Record Node := mkNode {
  id : Z;
  label : string;
  parent_id : option Z
}.

#[global] Instance Node_eq_dec : EqDecision Node.
Proof. solve_decision. Defined.

(** The table: its rows, and the largest rowid ever handed out. *)
Record Store := mkStore {
  rows : list Node;
  seq : Z
}.

(** The objects built by [buildHierarchy]: [{id, label, children}]. *)
#[local] Unset Elimination Schemes.
Inductive TreeNode := mkTreeNode {
  tid : Z;
  tlabel : string;
  children : list TreeNode
}.
#[local] Set Elimination Schemes.

(** An entry [{id, label}] of the array returned by [getPathToNode]. *)
Record PathEntry := mkPathEntry {
  pe_id : Z;
  pe_label : string
}.

(** Messages of the [Error]s thrown by the two classes.  [TypeErrorNull] is
    the engine's own [TypeError] on reading a property of [null],
    [RangeErrorCallStack] its [RangeError] on a synchronous recursion that
    is nested deeper than the call stack holds, [DatabaseFull] the
    [SQLITE_FULL] of the database; the [FailedTo...] constructors are the
    re-throwing [catch] blocks. *)
Inductive Error :=
| ParentDoesNotExist (parentId : Z)
| SourceNotFound (sourceNodeId : Z)
| CannotMoveToSelf
| CannotMoveToDescendant
| AlreadyChild
| TypeErrorNull
| RangeErrorCallStack
| FailedToMove (e : Error)
| FailedToGetTree (e : Error)
| FailedToGetAllTrees (e : Error)
| DatabaseFull
| FailedToCreateNode (e : Error).

Definition Result (A : Type) : Type := Error + A.

(** SQL [ORDER BY id]. *)
Definition id_le (a b : Node) : Prop := id a ≤ id b.

#[global] Instance id_le_dec : RelDecision id_le.
Proof. intros a b. unfold id_le. apply _. Defined.

(** SQL [ORDER BY parent_id, id]; SQLite puts NULL first. *)
Definition parent_id_le (a b : Node) : Prop :=
  match parent_id a, parent_id b with
  | None, None => id a ≤ id b
  | None, Some _ => True
  | Some _, None => False
  | Some p, Some q => p < q ∨ (p = q ∧ id a ≤ id b)
  end.

#[global] Instance parent_id_le_dec : RelDecision parent_id_le.
Proof.
  intros a b. unfold parent_id_le.
  destruct (parent_id a), (parent_id b); apply _.
Defined.

(** [Number.MAX_SAFE_INTEGER], 2^53 - 1: up to it every integer is a
    JavaScript number of its own. *)
Definition maxSafeInteger : Z := 9007199254740991.

(** JavaScript truthiness of a number that is not NaN. *)
Definition truthy (z : Z) : bool := negb (z =? 0).

(** ** [TreeQueries] (src/database/queries.js) *)

Module TreeQueries.

(** [SELECT COUNT( * ) ... WHERE id = ?], then [count > 0]. *)
Definition nodeExists (s : Store) (i : Z) : bool :=
  bool_decide (0 < length (filter (λ n, id n = i) (rows s)))%nat.

(** [dbConnection.get]: the first row of the result, [row || null]. *)
Definition getNodeById (s : Store) (i : Z) : option Node :=
  head (filter (λ n, id n = i) (rows s)).

Definition getAllNodes (s : Store) : list Node :=
  merge_sort parent_id_le (rows s).

Definition getChildrenByParentId (s : Store) (parentId : Z) : list Node :=
  merge_sort id_le (filter (λ n, parent_id n = Some parentId) (rows s)).

Definition getNodeCount (s : Store) : nat := length (rows s).

(** The largest rowid of SQLite, 2^63 - 1. *)
Definition maxRowid : Z := 9223372036854775807.

(** The rowid that [INSERT INTO nodes (label, parent_id)] picks on a column
    declared [INTEGER PRIMARY KEY AUTOINCREMENT]: one more than the largest
    rowid the table ever held.  The count kept in [sqlite_sequence] starts
    at 0, so the first rowid handed out is 1 at least. *)
Definition nextId (s : Store) : Z :=
  foldr Z.max (Z.max 0 (seq s)) (id <$> rows s) + 1.

(** The insert, in a table that is not full. *)
Definition insertRow (s : Store) (l : string) (parentId : option Z)
  : Z * Store :=
  let i := nextId s in
  (i, mkStore (rows s ++ [mkNode i l parentId]) i).

(** [createNode].  Once the largest rowid has been handed out the insert is
    refused with [SQLITE_FULL] and writes nothing; the [catch] around it
    re-throws that as [Failed to create node: ...]. *)
Definition createNode (s : Store) (l : string) (parentId : option Z)
  : Result (option Node) * Store :=
  let insert :=
    if decide (nextId s ≤ maxRowid) then
      let '(i, s') := insertRow s l parentId in
      (inr (getNodeById s' i), s')
    else (inl (FailedToCreateNode DatabaseFull), s) in
  match parentId with
  | Some p =>
      if nodeExists s p then insert
      else (inl (ParentDoesNotExist p), s)
  | None => insert
  end.

(** The [for] loop of [getAllDescendants] over [children]; [recur] is the
    recursive call. *)
Definition descend (recur : Z → option (list Node))
  : list Node → option (list Node) :=
  fix loop (cs : list Node) : option (list Node) :=
    match cs with
    | [] => Some []
    | child :: rest =>
        childDescendants ← recur (id child);
        more ← loop rest;
        Some (child :: childDescendants ++ more)
    end.

(** [getAllDescendants]: one recursive call per child, in the order of
    [getChildrenByParentId]; the source has no bound on the recursion. *)
Fixpoint getAllDescendants (fuel : nat) (s : Store) (nodeId : Z)
  : option (list Node) :=
  match fuel with
  | O => None
  | S fuel' =>
      descend (getAllDescendants fuel' s) (getChildrenByParentId s nodeId)
  end.

(** The [while] loop of [getAncestors]; no bound in the source. *)
Fixpoint getAncestors_loop (fuel : nat) (s : Store)
    (currentNode : option Node) : option (list Node) :=
  match fuel with
  | O => None
  | S fuel' =>
      match currentNode with
      | None => Some []
      | Some cn =>
          match parent_id cn with
          | None => Some []
          | Some pid =>
              match getNodeById s pid with
              | Some parent =>
                  (parent ::.) <$> getAncestors_loop fuel' s (Some parent)
              | None => Some []
              end
          end
      end
  end.

Definition getAncestors (fuel : nat) (s : Store) (nodeId : Z)
  : option (list Node) :=
  getAncestors_loop fuel s (getNodeById s nodeId).

(** The [while] loop of [getAncestorIds], bounded by [depth < maxDepth];
    [budget] is [maxDepth - depth]. *)
Fixpoint getAncestorIds_loop (budget : nat) (s : Store) (currentNodeId : Z)
  : list Z :=
  match budget with
  | O => []
  | S budget' =>
      if truthy currentNodeId then
        match getNodeById s currentNodeId with
        | None => []
        | Some node =>
            match parent_id node with
            | None => []
            | Some pid => pid :: getAncestorIds_loop budget' s pid
            end
        end
      else []
  end.

Definition maxDepth : nat := 1000.

Definition getAncestorIds (s : Store) (nodeId : Z) : list Z :=
  getAncestorIds_loop maxDepth s nodeId.

Definition isAncestor (s : Store) (potentialAncestorId nodeId : Z) : bool :=
  if decide (potentialAncestorId = nodeId) then true
  else bool_decide (potentialAncestorId ∈ getAncestorIds s nodeId).

Definition getNodeDepth (fuel : nat) (s : Store) (nodeId : Z) : option nat :=
  length <$> getAncestors fuel s nodeId.

Definition getSubtreeSize (fuel : nat) (s : Store) (nodeId : Z)
  : option nat :=
  length <$> getAllDescendants fuel s nodeId.

(** [UPDATE nodes SET parent_id = ? WHERE id = ?]. *)
Definition updateParent (s : Store) (newParent : option Z) (i : Z) : Store :=
  mkStore
    ((λ n, if decide (id n = i) then mkNode (id n) (label n) newParent
           else n) <$> rows s)
    (seq s).

(** The first [for] loop of [moveNodeAndSubtree], filling [parentIdMap]. *)
Definition parentIdMap_of (sourceNodeId : Z) (newParentId : option Z)
    (descendants : list Node) : gmap Z (option Z) :=
  foldl
    (λ m descendant,
       match parent_id descendant with
       | Some oldParentId =>
           match m !! oldParentId with
           | Some v => <[id descendant := v]> m
           | None => m
           end
       | None => m
       end)
    {[ sourceNodeId := newParentId ]} descendants.

(** [moveNodeAndSubtree] of the query layer.  A failure rolls the
    transaction back, so the store comes back as it went in. *)
Definition moveNodeAndSubtree (fuel : nat) (s : Store) (sourceNodeId : Z)
    (newParentId : option Z) : option (Result (option Node) * Store) :=
  match getNodeById s sourceNodeId with
  | None => Some (inl (FailedToMove (SourceNotFound sourceNodeId)), s)
  | Some _ =>
      descendants ← getAllDescendants fuel s sourceNodeId;
      let parentIdMap := parentIdMap_of sourceNodeId newParentId descendants in
      let s1 := updateParent s newParentId sourceNodeId in
      let s2 :=
        foldl
          (λ st descendant,
             match parentIdMap !! id descendant with
             | Some newParentIdForDescendant =>
                 updateParent st newParentIdForDescendant (id descendant)
             | None => st
             end)
          s1 descendants in
      Some (inr (getNodeById s2 sourceNodeId), s2)
  end.

(** [SELECT ... WHERE parent_id IS NULL ORDER BY id]. *)
Definition getRootNodes (s : Store) : list Node :=
  merge_sort id_le (filter (λ n, parent_id n = None) (rows s)).

(** [UPDATE nodes SET label = ? WHERE id = ?], with [result.changes]. *)
Definition updateLabel (s : Store) (l : string) (i : Z) : nat * Store :=
  (length (filter (λ n, id n = i) (rows s)),
   mkStore
     ((λ n, if decide (id n = i) then mkNode (id n) l (parent_id n) else n)
        <$> rows s)
     (seq s)).

(** [updateNodeLabel]: [null] when no row was changed. *)
Definition updateNodeLabel (s : Store) (i : Z) (l : string)
  : option Node * Store :=
  let '(changes, s') := updateLabel s l i in
  if decide (changes = 0%nat) then (None, s') else (getNodeById s' i, s').

(** [deleteNode]: [DELETE FROM nodes WHERE id IN (...)] over the node and
    the ids of its descendants; the result is [result.changes]. *)
Definition deleteNode (fuel : nat) (s : Store) (i : Z)
  : option (nat * Store) :=
  descendants ← getAllDescendants fuel s i;
  let allIds := i :: (id <$> descendants) in
  Some (length (filter (λ n, id n ∈ allIds) (rows s)),
        mkStore (filter (λ n, id n ∉ allIds) (rows s)) (seq s)).

(** [clearAllNodes]: [DELETE FROM nodes]; the AUTOINCREMENT mark stays. *)
Definition clearAllNodes (s : Store) : nat * Store :=
  (length (rows s), mkStore [] (seq s)).

(** Errors of [createMultipleNodes]: the guard on the argument, and the
    re-throwing [catch]. *)
Inductive BatchError :=
| NodeDataMustBeNonEmptyArray
| FailedToCreateMultiple (e : Error).

(** The [for] loop of [createMultipleNodes] inside the transaction; the
    insert is refused as in [createNode], and nothing re-throws it before
    the [catch] of [createMultipleNodes] does. *)
Fixpoint createMultipleNodes_loop (s : Store)
    (nodeData : list (string * option Z)) (createdNodes : list (option Node))
  : Error + (list (option Node) * Store) :=
  match nodeData with
  | [] => inr (createdNodes, s)
  | (l, parentId) :: rest =>
      let insert :=
        if decide (nextId s ≤ maxRowid) then
          let '(i, s') := insertRow s l parentId in
          createMultipleNodes_loop s' rest
            (createdNodes ++ [getNodeById s' i])
        else inl DatabaseFull in
      match parentId with
      | Some p =>
          if nodeExists s p then insert else inl (ParentDoesNotExist p)
      | None => insert
      end
  end.

(** [createMultipleNodes].
    Modelled from the spec: [beginTransaction], [commitTransaction] and
    [rollbackTransaction] of the connection are not in the source at hand;
    a roll-back gives the table back as it was when the transaction began,
    a commit keeps what the loop wrote. *)
Definition createMultipleNodes (s : Store)
    (nodeData : list (string * option Z))
  : (BatchError + list (option Node)) * Store :=
  match nodeData with
  | [] => (inl NodeDataMustBeNonEmptyArray, s)
  | _ :: _ =>
      match createMultipleNodes_loop s nodeData [] with
      | inl e => (inl (FailedToCreateMultiple e), s)
      | inr (createdNodes, s') => (inr createdNodes, s')
      end
  end.

(** [getNodesAtDepth]: depth 0 is answered by [getRootNodes], any other
    depth by a scan of all nodes. *)
Definition getNodesAtDepth (fuel : nat) (s : Store) (depth : Z)
  : option (list Node) :=
  if decide (depth = 0) then Some (getRootNodes s)
  else
    (fix loop (allNodes : list Node) : option (list Node) :=
       match allNodes with
       | [] => Some []
       | node :: rest =>
           nodeDepth ← getNodeDepth fuel s (id node);
           nodesAtDepth ← loop rest;
           Some (if decide (Z.of_nat nodeDepth = depth)
                 then node :: nodesAtDepth else nodesAtDepth)
       end) (getAllNodes s).

End TreeQueries.

(** ** [TreeService] (src/services/treeService.js) *)

Module TreeService.

(** A [{id, label, children}] object while [buildHierarchy] is still
    filling it.  It lives in [nodeMap] under its [id]; its [children] array
    holds references to other objects of [nodeMap], written as their keys. *)
Record TreeObj := mkTreeObj {
  o_label : string;
  o_children : list Z
}.

(** First [forEach] of [buildHierarchy]. *)
Definition initNodeMap (nodes : list Node) : gmap Z TreeObj :=
  foldl (λ m node, <[id node := mkTreeObj (label node) []]> m) ∅ nodes.

(** Body of the second [forEach]. *)
Definition attach (rootParentId : option Z)
    (st : gmap Z TreeObj * list Z) (node : Node) : gmap Z TreeObj * list Z :=
  let '(nodeMap, trees) := st in
  if decide (parent_id node = rootParentId) then (nodeMap, trees ++ [id node])
  else
    match parent_id node with
    | Some p =>
        match nodeMap !! p with
        | Some parent =>
            (<[p := mkTreeObj (o_label parent) (o_children parent ++ [id node])]>
               nodeMap, trees)
        | None => (nodeMap, trees)
        end
    | None => (nodeMap, trees)
    end.

(** [sortChildrenRecursively], returning the value of the nested objects it
    has walked: every [children] array on the way is sorted by id.  The
    recursion is synchronous: a call on the children of a node is nested in
    the call on the array that holds the node.  [stack] is the number of
    nested calls that the call stack of the engine still holds; [None] is
    the [RangeError] thrown by the call that does not fit.  A node whose
    [children] array is empty starts no call. *)
Fixpoint sortChildrenRecursively (stack : nat) (nodeMap : gmap Z TreeObj)
    (nodes : list Z) : option (list TreeNode) :=
  match stack with
  | O => None
  | S stack' =>
      mapM (λ i,
              o ← nodeMap !! i;
              kids ← match o_children o with
                     | [] => Some []
                     | _ :: _ =>
                         sortChildrenRecursively stack' nodeMap
                           (merge_sort Z.le (o_children o))
                     end;
              Some (mkTreeNode i (o_label o) kids))
           nodes
  end.

(** [buildHierarchy], on a call stack that holds [stack] nested calls of
    [sortChildrenRecursively]: the call on [trees] is the first of them.  It
    throws the [RangeError] ([None]) when the objects are nested deeper than
    that, which they are on every stack when an object is reachable from
    itself. *)
Definition buildHierarchy (stack : nat) (nodes : list Node)
    (rootParentId : option Z) : option (list TreeNode) :=
  match nodes with
  | [] => Some []
  | _ :: _ =>
      let '(nodeMap, trees) :=
        foldl (attach rootParentId) (initNodeMap nodes, []) nodes in
      sortChildrenRecursively stack nodeMap trees
  end.

Fixpoint countNodesInTree (tree : TreeNode) : nat :=
  S (sum_list (countNodesInTree <$> children tree)).

Definition getAllTrees (stack : nat) (s : Store) : Result (list TreeNode) :=
  match buildHierarchy stack (TreeQueries.getAllNodes s) None with
  | Some trees => inr trees
  | None => inl (FailedToGetAllTrees RangeErrorCallStack)
  end.

Definition getTreeByRootId (stack fuel : nat) (s : Store) (rootId : Z)
  : option (Result (option TreeNode)) :=
  match TreeQueries.getNodeById s rootId with
  | None => Some (inr None)
  | Some rootNode =>
      descendants ← TreeQueries.getAllDescendants fuel s rootId;
      match buildHierarchy stack (rootNode :: descendants) None with
      | Some trees => Some (inr (head trees))
      | None => Some (inl (FailedToGetTree RangeErrorCallStack))
      end
  end.

(** The object literal [{id: currentNode.id, label: currentNode.label}]. *)
Definition entryOf (n : Node) : PathEntry := mkPathEntry (id n) (label n).

(** The [while] loop of [getPathToNode]; [path.unshift] is a cons. *)
Fixpoint getPathToNode_loop (fuel : nat) (s : Store)
    (currentNode : option Node) (path : list PathEntry)
  : option (list PathEntry) :=
  match fuel with
  | O => None
  | S fuel' =>
      match currentNode with
      | None => Some path
      | Some cn =>
          let path' := entryOf cn :: path in
          match parent_id cn with
          | Some pid =>
              if truthy pid then
                getPathToNode_loop fuel' s (TreeQueries.getNodeById s pid) path'
              else Some path'
          | None => Some path'
          end
      end
  end.

Definition getPathToNode (fuel : nat) (s : Store) (nodeId : Z)
  : option (list PathEntry) :=
  getPathToNode_loop fuel s (TreeQueries.getNodeById s nodeId) [].

Inductive IssueType := orphaned_node | circular_reference | traversal_error.

Record Issue := mkIssue {
  type : IssueType;
  nodeId : Z
}.

Record ValidationReport := mkReport {
  isValid : bool;
  issues : list Issue;
  totalNodes : nat;
  rootNodes : nat
}.

(** The checks made for one node.  [getAncestorIds] throws only when the
    database does, which the store of this development never does, so no
    [traversal_error] is pushed. *)
Definition issuesOf (s : Store) (nodeMap : gmap Z Node) (node : Node)
  : list Issue :=
  match parent_id node with
  | None => []
  | Some p =>
      (if decide (nodeMap !! p = None)
       then [mkIssue orphaned_node (id node)] else [])
      ++
      (if decide (id node ∈ TreeQueries.getAncestorIds s (id node))
       then [mkIssue circular_reference (id node)] else [])
  end.

(** [validateTreeStructure(nodes = null)]; [None] is the omitted argument. *)
Definition validateTreeStructure (s : Store) (nodes : option (list Node))
  : ValidationReport :=
  let nodes := default (TreeQueries.getAllNodes s) nodes in
  let nodeMap := foldl (λ m node, <[id node := node]> m) ∅ nodes in
  let issues := nodes ≫= issuesOf s nodeMap in
  mkReport (bool_decide (length issues = 0%nat)) issues (length nodes)
    (length (filter (λ n, parent_id n = None) nodes)).

(** The second check of [moveNodeAndSubtree]:
    [descendantIds.includes(newParentId)], made when [newParentId] is not
    [null]. *)
Definition isOwnDescendant (fuel : nat) (s : Store) (sourceNodeId : Z)
    (newParentId : option Z) : option bool :=
  match newParentId with
  | Some np =>
      (λ descendants : list Node, bool_decide (np ∈ id <$> descendants))
        <$> TreeQueries.getAllDescendants fuel s sourceNodeId
  | None => Some false
  end.

(** [moveNodeAndSubtree] of the service.  [sourceNode] is read first and
    dereferenced only in the third check. *)
Definition moveNodeAndSubtree (fuel : nat) (s : Store) (sourceNodeId : Z)
    (newParentId : option Z) : option (Result (option Node) * Store) :=
  let sourceNode := TreeQueries.getNodeById s sourceNodeId in
  let fail (e : Error) : option (Result (option Node) * Store) :=
    Some (inl (FailedToMove e), s) in
  if decide (Some sourceNodeId = newParentId) then fail CannotMoveToSelf
  else
    match isOwnDescendant fuel s sourceNodeId newParentId with
    | None => None
    | Some true => fail CannotMoveToDescendant
    | Some false =>
        match sourceNode with
        | None => fail TypeErrorNull
        | Some sn =>
            if decide (parent_id sn = newParentId) then fail AlreadyChild
            else
              match
                TreeQueries.moveNodeAndSubtree fuel s sourceNodeId newParentId
              with
              | None => None
              | Some (inl e, s') => Some (inl (FailedToMove e), s')
              | Some (inr movedNode, s') => Some (inr movedNode, s')
              end
        end
    end.

(** The re-throwing [catch] of [getNodeWithSubtree]. *)
Inductive SubtreeError :=
| FailedToGetNodeSubtree (e : Error).

(** [getNodeWithSubtree]: the hierarchy is built with the node's own
    [parent_id] as [rootParentId]. *)
Definition getNodeWithSubtree (stack fuel : nat) (s : Store) (nodeId : Z)
  : option (SubtreeError + option TreeNode) :=
  match TreeQueries.getNodeById s nodeId with
  | None => Some (inr None)
  | Some node =>
      descendants ← TreeQueries.getAllDescendants fuel s nodeId;
      match buildHierarchy stack (node :: descendants) (parent_id node) with
      | Some subtree => Some (inr (head subtree))
      | None => Some (inl (FailedToGetNodeSubtree RangeErrorCallStack))
      end
  end.

End TreeService.

(** ** The stores of the worked scenarios *)

Definition emptyStore : Store := mkStore [] 0.

Definition chain3 (a b c : string) : Store :=
  let s1 := (TreeQueries.createNode emptyStore a None).2 in
  let s2 := (TreeQueries.createNode s1 b (Some 1)).2 in
  (TreeQueries.createNode s2 c (Some 2)).2.

Definition forest4 : Store :=
  let s1 := (TreeQueries.createNode emptyStore "root" None).2 in
  let s2 := (TreeQueries.createNode s1 "bear" (Some 1)).2 in
  let s3 := (TreeQueries.createNode s2 "cat" (Some 2)).2 in
  (TreeQueries.createNode s3 "frog" (Some 1)).2.

(** A store with a parent cycle, reached through the query layer alone:
    [moveNodeAndSubtree] of [TreeQueries] makes no self-move check. *)
Definition selfLoop : Store :=
  let s1 := (TreeQueries.createNode emptyStore "a" None).2 in
  match TreeQueries.moveNodeAndSubtree 2 s1 1 (Some 1) with
  | Some (_, s2) => s2
  | None => s1
  end.

(** ** Well-formedness of a node set *)

(** The row of [a] names [p] as its parent. *)
Definition parent_step (ns : list Node) (a p : Z) : Prop :=
  ∃ n, n ∈ ns ∧ id n = a ∧ parent_id n = Some p.

(** No node is its own ancestor through a chain of [parent_id] links. *)
Definition acyclic (ns : list Node) : Prop :=
  ∀ a, ¬ tc (parent_step ns) a a.

(** Identifiers are positive integers. *)
Definition ids_positive (ns : list Node) : Prop :=
  ∀ n, n ∈ ns → 0 < id n.

(** Every non-null [parent_id] is the id of a node of the set. *)
Definition parents_present (ns : list Node) : Prop :=
  ∀ n p, n ∈ ns → parent_id n = Some p → p ∈ id <$> ns.

(** The three invariants of a healthy node set: ids are unique, no node is
    an orphan, no node is its own ancestor. *)
Definition forest_ok (ns : list Node) : Prop :=
  NoDup (id <$> ns) ∧ parents_present ns ∧ acyclic ns.

(** Every [children] array of the tree is ascending by id. *)
Fixpoint children_sorted (t : TreeNode) : Prop :=
  Sorted Z.le (tid <$> children t)
  ∧ (fix all (ts : list TreeNode) : Prop :=
       match ts with
       | [] => True
       | t' :: ts' => children_sorted t' ∧ all ts'
       end) (children t).

(** Stores obtained from a table without rows by calls of [createNode]. *)
Inductive created : Store → Prop :=
| created_empty k : 0 ≤ k → created (mkStore [] k)
| created_step s l parentId :
    created s → created (TreeQueries.createNode s l parentId).2.

(** ** What [buildHierarchy] holds after its two passes *)

(** The label kept in [nodeMap] for key [i]: the last [set] wins. *)
Definition labelOf (ns : list Node) (i : Z) : option string :=
  label <$> last (filter (λ n, id n = i) ns).

(** The ids pushed on the [children] array of object [i], in input order. *)
Definition kidsOf (r : option Z) (ns : list Node) (i : Z) : list Z :=
  id <$> filter (λ c, parent_id c ≠ r ∧ parent_id c = Some i) ns.

(** The ids pushed on [trees], in input order. *)
Definition rootsOf (r : option Z) (ns : list Node) : list Z :=
  id <$> filter (λ n, parent_id n = r) ns.

(** The objects on the way from an entry of [trees] down to an object being
    read, nearest first: a root of the walk, then children of children. *)
Inductive chain (r : option Z) (ns : list Node) : list Z → Prop :=
| chain_root n :
    n ∈ ns → parent_id n = r → chain r ns [id n]
| chain_kid c i rest :
    c ∈ ns → parent_id c = Some i → parent_id c ≠ r →
    chain r ns (i :: rest) → chain r ns (id c :: i :: rest).

(** ** Invariants of the walks *)

(** What a walk up the parent links has seen before it stands at [cur]. *)
Definition up_inv (ns : list Node) (seen : list Z) (cur : Z) : Prop :=
  NoDup seen ∧ (∀ x, x ∈ seen → x ∈ id <$> ns)
  ∧ ∀ x, x ∈ seen → tc (parent_step ns) x cur.

(** What a walk down to the children has on its path when it stands at
    [cur]. *)
Definition down_inv (ns : list Node) (seen : list Z) (cur : Z) : Prop :=
  NoDup seen ∧ (∀ x, x ∈ seen → x ∈ id <$> ns)
  ∧ ∀ x, x ∈ seen → x = cur ∨ tc (parent_step ns) cur x.

(** What [createNode] maintains: rowids are positive, and every parent is a
    row with a smaller id than its child. *)
Definition create_inv (s : Store) : Prop :=
  0 ≤ seq s
  ∧ (∀ n, n ∈ rows s → 0 < id n)
  ∧ (∀ n p, n ∈ rows s → parent_id n = Some p →
       p ∈ id <$> rows s ∧ p < id n).

(** Number of parent links from [i] up to a node without parent, followed
    for at most [fuel] links. *)
Fixpoint depthOf (ns : list Node) (fuel : nat) (i : Z) : nat :=
  match fuel with
  | O => 0
  | S f =>
      match head (filter (λ n, id n = i) ns) with
      | Some n =>
          match parent_id n with
          | Some p => S (depthOf ns f p)
          | None => 0
          end
      | None => 0
      end
  end.

(** Size of the tree that [sortChildrenRecursively] reads below object [i],
    cut [k] levels down. *)
Fixpoint csize (ns : list Node) (k : nat) (i : Z) : nat :=
  match k with
  | O => 0
  | S k' => S (sum_list_with (csize ns k') (kidsOf None ns i))
  end.

(** ** Reference points for the further properties *)


(** What [UPDATE nodes SET label = ? WHERE id = ?] makes of one row. *)
Definition relabel (i : Z) (l : string) (n : Node) : Node :=
  if decide (id n = i) then mkNode (id n) l (parent_id n) else n.

(** The error behind the one [createNode] throws: the [catch] around its
    insert re-throws the error of the database under a message of its
    own. *)
Definition thrownBy (e : Error) : Error :=
  match e with
  | FailedToCreateNode e' => e'
  | _ => e
  end.

(** One call of [createNode] after the other, up to the first that
    throws. *)
Fixpoint createNodes_seq (s : Store) (nodeData : list (string * option Z))
  : Error + (list (option Node) * Store) :=
  match nodeData with
  | [] => inr ([], s)
  | (l, parentId) :: rest =>
      match TreeQueries.createNode s l parentId with
      | (inl e, _) => inl e
      | (inr n, s') =>
          match createNodes_seq s' rest with
          | inl e => inl e
          | inr (ns, s'') => inr (n :: ns, s'')
          end
      end
  end.

(** What the [UPDATE nodes SET parent_id = ? WHERE id = ?] statements of a
    move make of one row, when they are run for the ids [moved]. *)
Definition reparent (moved : list Z) (np : option Z) (n : Node) : Node :=
  if decide (id n ∈ moved) then mkNode (id n) (label n) np else n.

(** Every node of the list has its parent among [known] or before it in the
    list. *)
Fixpoint parents_first (known : list Z) (ds : list Node) : Prop :=
  match ds with
  | [] => True
  | d :: rest =>
      (∃ p, parent_id d = Some p ∧ p ∈ known)
      ∧ parents_first (id d :: known) rest
  end.

(** The [parent_id] that the engine reads for id [i]: that of the row
    [getNodeById] returns. *)
Definition parentOf (s : Store) (i : Z) : option Z :=
  n ← TreeQueries.getNodeById s i; parent_id n.

(** The id reached from [i] by [k] parent links. *)
Fixpoint climb (s : Store) (k : nat) (i : Z) : option Z :=
  match k with
  | O => Some i
  | S k' => p ← parentOf s i; climb s k' p
  end.

(** * Properties *)

(** ** The worked stores *)

Example chain3_rows a b c :
  rows (chain3 a b c) = [mkNode 1 a None; mkNode 2 b (Some 1); mkNode 3 c (Some 2)].
Proof. reflexivity. Qed.

Example chain3_anc a b c :
  TreeQueries.getAncestors 10 (chain3 a b c) 3
  = Some [mkNode 2 b (Some 1); mkNode 1 a None].
Proof. vm_compute. reflexivity. Qed.

Example chain3_desc a b c :
  TreeQueries.getAllDescendants 10 (chain3 a b c) 1
  = Some [mkNode 2 b (Some 1); mkNode 3 c (Some 2)].
Proof. vm_compute. reflexivity. Qed.

Example selfLoop_rows : rows selfLoop = [mkNode 1 "a" (Some 1)].
Proof. reflexivity. Qed.

(** ** Lookups *)

(** Case analysis on membership in a list that is written out; [tac] closes
    the goal for each element. *)
Ltac each_elem H tac :=
  repeat (apply elem_of_cons in H as [->|H]; [tac|]);
  by apply elem_of_nil in H.

Lemma filter_nil_intro {A} (P : A → Prop) `{!∀ x, Decision (P x)} (l : list A) :
  (∀ x, x ∈ l → ¬ P x) → filter P l = [].
Proof.
  induction l as [|x l IH]; intros HP; [done|].
  rewrite filter_cons_False by (apply HP; left).
  apply IH. intros y Hy. apply HP. by right.
Qed.

Section Lookup.
Context (s : Store).

Lemma getNodeById_Some i n :
  TreeQueries.getNodeById s i = Some n → n ∈ rows s ∧ id n = i.
Proof.
  unfold TreeQueries.getNodeById. intros H.
  apply head_Some_elem_of in H. by apply list_elem_of_filter in H as [? ?].
Qed.

Lemma getNodeById_None i :
  TreeQueries.getNodeById s i = None ↔ i ∉ id <$> rows s.
Proof.
  unfold TreeQueries.getNodeById. rewrite head_None. split.
  - intros H [n [-> Hn]]%list_elem_of_fmap.
    assert (n ∈ filter (λ m, id m = id n) (rows s)) as Hin
      by by apply list_elem_of_filter.
    rewrite H in Hin. by apply not_elem_of_nil in Hin.
  - intros H. apply filter_nil_intro.
    intros n Hn <-. apply H, list_elem_of_fmap. eauto.
Qed.

Lemma getNodeById_is_Some i :
  is_Some (TreeQueries.getNodeById s i) ↔ i ∈ id <$> rows s.
Proof.
  rewrite <- not_eq_None_Some, getNodeById_None.
  split; [apply dec_stable | auto].
Qed.

Lemma nodeExists_false i :
  i ∉ id <$> rows s → TreeQueries.nodeExists s i = false.
Proof.
  intros H%getNodeById_None. unfold TreeQueries.nodeExists.
  apply bool_decide_eq_false.
  unfold TreeQueries.getNodeById in H. apply head_None in H. rewrite H.
  simpl. lia.
Qed.

Lemma nodeExists_true i :
  TreeQueries.nodeExists s i = true → i ∈ id <$> rows s.
Proof.
  intros H. destruct (decide (i ∈ id <$> rows s)) as [|Hn]; [done|].
  apply nodeExists_false in Hn. congruence.
Qed.

Lemma elem_of_getChildrenByParentId c p :
  c ∈ TreeQueries.getChildrenByParentId s p
  ↔ c ∈ rows s ∧ parent_id c = Some p.
Proof.
  unfold TreeQueries.getChildrenByParentId.
  rewrite merge_sort_Permutation, list_elem_of_filter. tauto.
Qed.

Lemma elem_of_getAllNodes n : n ∈ TreeQueries.getAllNodes s ↔ n ∈ rows s.
Proof. unfold TreeQueries.getAllNodes. by rewrite merge_sort_Permutation. Qed.

End Lookup.

(** ** Creating under a parent that does not exist *)

(** C6.  [createNode] with a parent id that is the id of no row throws
    [Parent node with ID ... does not exist] and leaves the table as it was:
    the same rows, hence the same row count. *)
Theorem createNode_missing_parent (s : Store) (l : string) (p : Z) :
  p ∉ id <$> rows s →
  TreeQueries.createNode s l (Some p) = (inl (ParentDoesNotExist p), s)
  ∧ TreeQueries.getNodeCount (TreeQueries.createNode s l (Some p)).2
    = TreeQueries.getNodeCount s.
Proof.
  intros H. unfold TreeQueries.createNode.
  rewrite (nodeExists_false s p H). done.
Qed.

Lemma createNode_missing_parent_witness :
  TreeQueries.createNode emptyStore "x" (Some 999)
  = (inl (ParentDoesNotExist 999), emptyStore)
  ∧ TreeQueries.getNodeCount
      (TreeQueries.createNode emptyStore "x" (Some 999)).2 = 0%nat.
Proof.
  apply (createNode_missing_parent emptyStore "x" 999).
  vm_compute. by intros ?%elem_of_nil.
Defined.

(** ** Moving a node *)

Lemma updateParent_length s v i :
  length (rows (TreeQueries.updateParent s v i)) = length (rows s).
Proof. unfold TreeQueries.updateParent. simpl. by rewrite length_fmap. Qed.

Lemma queries_move_count fuel s src np r s' :
  TreeQueries.moveNodeAndSubtree fuel s src np = Some (r, s') →
  length (rows s') = length (rows s).
Proof.
  unfold TreeQueries.moveNodeAndSubtree. intros H.
  destruct (TreeQueries.getNodeById s src); [|by simplify_eq].
  destruct (TreeQueries.getAllDescendants fuel s src) as [ds|];
    simpl in H; [|done].
  injection H as _ <-.
  generalize (TreeQueries.parentIdMap_of src np ds). intros m.
  rewrite <- (updateParent_length s np src).
  generalize (TreeQueries.updateParent s np src). clear.
  induction ds as [|d ds IH]; intros st; [done|]. simpl.
  rewrite IH. case_match; [apply updateParent_length | done].
Qed.

(** The part of the frame property that the code keeps: a move never changes
    the number of rows. *)
Lemma moveNodeAndSubtree_count fuel s src np r s' :
  TreeService.moveNodeAndSubtree fuel s src np = Some (r, s') →
  TreeQueries.getNodeCount s' = TreeQueries.getNodeCount s.
Proof.
  unfold TreeService.moveNodeAndSubtree, TreeQueries.getNodeCount.
  intros H. repeat case_match; simplify_eq; try done;
    by eapply queries_move_count.
Qed.

(** Every entry of [parentIdMap] is the new parent of the source. *)
Lemma parentIdMap_of_values src np ds k v :
  TreeQueries.parentIdMap_of src np ds !! k = Some v → v = np.
Proof.
  unfold TreeQueries.parentIdMap_of.
  assert (∀ k v, ({[src := np]} : gmap Z (option Z)) !! k = Some v → v = np)
    as Hinit.
  { intros k' v' [_ <-]%lookup_singleton_Some. done. }
  revert Hinit. generalize ({[src := np]} : gmap Z (option Z)). revert k v.
  induction ds as [|d ds IH]; intros k v m Hm; [by apply Hm|].
  cbn [foldl]. apply IH.
  destruct (parent_id d) as [old|]; [|done].
  destruct (m !! old) as [w|] eqn:Hold; [|done].
  intros k' v'. destruct (decide (id d = k')) as [<-|Hne].
  - rewrite lookup_insert_eq. intros [= <-]. by eapply Hm.
  - rewrite lookup_insert_ne by done. apply Hm.
Qed.

(** A descendant whose old parent is in [parentIdMap] when its turn comes
    gets an entry of its own; the children of the source always do. *)
Lemma parentIdMap_of_child src np ds c :
  c ∈ ds → parent_id c = Some src →
  is_Some (TreeQueries.parentIdMap_of src np ds !! id c).
Proof.
  unfold TreeQueries.parentIdMap_of.
  assert (is_Some (({[src := np]} : gmap Z (option Z)) !! src)) as Hinit
    by (rewrite lookup_singleton_eq; eauto).
  revert Hinit. generalize ({[src := np]} : gmap Z (option Z)).
  assert (∀ (l : list Node) (m : gmap Z (option Z)) k,
            is_Some (m !! k) →
            is_Some (foldl
                       (λ m descendant,
                          match parent_id descendant with
                          | Some oldParentId =>
                              match m !! oldParentId with
                              | Some v => <[id descendant := v]> m
                              | None => m
                              end
                          | None => m
                          end) m l !! k)) as Hkeep.
  { induction l as [|d l IH]; intros m k Hk; [done|]. cbn [foldl]. apply IH.
    destruct (parent_id d) as [old|]; [|done].
    destruct (m !! old) as [w|]; [|done].
    destruct (decide (id d = k)) as [<-|Hne].
    - rewrite lookup_insert_eq. eauto.
    - by rewrite lookup_insert_ne. }
  induction ds as [|d ds IH]; intros m Hm Hc Hp; [by apply elem_of_nil in Hc|].
  cbn [foldl]. apply elem_of_cons in Hc as [->|Hc].
  - rewrite Hp. destruct Hm as [w Hw]. rewrite Hw.
    apply Hkeep. rewrite lookup_insert_eq. eauto.
  - apply IH; [|done..]. by apply (Hkeep [d]).
Qed.

Lemma updateParent_rows s v i r :
  r ∈ rows (TreeQueries.updateParent s v i) →
  ∃ r0, r0 ∈ rows s ∧ id r = id r0
        ∧ (id r0 = i → parent_id r = v) ∧ (id r0 ≠ i → r = r0).
Proof.
  unfold TreeQueries.updateParent. simpl.
  intros (r0 & -> & Hr0)%list_elem_of_fmap. exists r0.
  destruct (decide (id r0 = i)); simpl; repeat split; auto; done.
Qed.

(** The second [for] loop of the query layer: a row whose id has an entry
    in [parentIdMap] and is met among the descendants ends under [np]. *)
Lemma move_updates_reparent (pm : gmap Z (option Z)) np i ds st :
  (∀ k v, pm !! k = Some v → v = np) →
  is_Some (pm !! i) →
  ((∃ d, d ∈ ds ∧ id d = i)
   ∨ ∀ r, r ∈ rows st → id r = i → parent_id r = np) →
  ∀ r,
    r ∈ rows (foldl
                (λ st descendant,
                   match pm !! id descendant with
                   | Some v => TreeQueries.updateParent st v (id descendant)
                   | None => st
                   end) st ds) →
    id r = i → parent_id r = np.
Proof.
  intros Hval Hi. revert st.
  induction ds as [|d ds IH]; intros st Hcase.
  - destruct Hcase as [(d & Hd & _)|Hst]; [by apply elem_of_nil in Hd|done].
  - cbn [foldl]. apply IH.
    destruct (decide (id d = i)) as [Heq|Hne].
    + right. rewrite Heq. destruct Hi as [v Hv]. rewrite Hv.
      intros r (r0 & _ & Hid & Hupd & _)%updateParent_rows Hr.
      rewrite (Hval _ _ Hv) in Hupd. apply Hupd. congruence.
    + destruct Hcase as [(d' & [->|Hd']%elem_of_cons & Hid')|Hst];
        [done|left; eauto|right].
      destruct (pm !! id d) as [v|]; [|done].
      intros r (r0 & Hr0 & Hid & _ & Hkeep)%updateParent_rows Hr.
      rewrite Hkeep by congruence. apply Hst; [done|congruence].
Qed.

Lemma descend_children recur cs ds c :
  TreeQueries.descend recur cs = Some ds → c ∈ cs → c ∈ ds.
Proof.
  revert ds. induction cs as [|c' cs IH]; intros ds Hds Hc;
    [by apply elem_of_nil in Hc|].
  simpl in Hds. destruct (recur (id c')) as [cd|]; [|done]. simpl in Hds.
  destruct (TreeQueries.descend recur cs) as [more|]; [|done].
  simplify_eq/=. apply elem_of_cons in Hc as [->|Hc]; [by left|].
  right. apply elem_of_app. right. by apply IH.
Qed.

(** What the query layer does to the children of the moved node, on every
    store: each of them is given the new parent of the source, so the
    subtree does not stay together. *)
Lemma queries_move_reparents_children fuel s src np moved s' c r :
  TreeQueries.moveNodeAndSubtree fuel s src np = Some (inr moved, s') →
  c ∈ TreeQueries.getChildrenByParentId s src →
  r ∈ rows s' → id r = id c → parent_id r = np.
Proof.
  unfold TreeQueries.moveNodeAndSubtree. intros H Hc.
  destruct (TreeQueries.getNodeById s src); [|by simplify_eq].
  destruct (TreeQueries.getAllDescendants fuel s src) as [ds|] eqn:Hds;
    simpl in H; [|done].
  injection H as _ <-.
  apply (move_updates_reparent _ np (id c) ds).
  - intros k v. apply parentIdMap_of_values.
  - destruct fuel as [|f]; [done|]. simpl in Hds.
    apply parentIdMap_of_child.
    + by eapply descend_children.
    + by apply elem_of_getChildrenByParentId in Hc as [_ ?].
  - left. exists c. split; [|done].
    destruct fuel as [|f]; [done|]. simpl in Hds. by eapply descend_children.
Qed.

(** C1.  On the store [root(1) > bear(2) > cat(3)], [root > frog(4)], the
    accepted move of [bear] under [frog] rewrites the [parent_id] of
    [cat] as well: afterwards [cat]'s parent is [frog], [frog] has the two
    children [bear] and [cat], and [bear] has none.  The row count is the
    one thing that stays.  [getAllTrees] shows the flattened tree on every
    call stack that holds the three nested calls it needs. *)
Theorem move_bear_under_frog_reparents_cat :
  ∃ s',
    TreeService.moveNodeAndSubtree 3 forest4 2 (Some 4)
    = Some (inr (Some (mkNode 2 "bear" (Some 4))), s')
    ∧ TreeQueries.getNodeById forest4 3 = Some (mkNode 3 "cat" (Some 2))
    ∧ TreeQueries.getNodeById s' 3 = Some (mkNode 3 "cat" (Some 4))
    ∧ id <$> TreeQueries.getChildrenByParentId s' 4 = [2; 3]
    ∧ TreeQueries.getChildrenByParentId s' 2 = []
    ∧ TreeQueries.getNodeCount s' = TreeQueries.getNodeCount forest4
    ∧ ∀ stack,
        TreeService.getAllTrees (3 + stack) s'
        = inr [mkTreeNode 1 "root"
                 [mkTreeNode 4 "frog"
                    [mkTreeNode 2 "bear" []; mkTreeNode 3 "cat" []]]].
Proof.
  eexists. split; [by vm_compute|]. do 5 (split; [by vm_compute|]).
  intros stack. vm_compute. by destruct stack.
Qed.

(** C2.  When [sourceId] is the id of no row, the service never reports
    that the source was not found.  With [newParentId = sourceId] it reports
    the self-move; with any other target it reports the descendant-move or
    runs into the [TypeError] of [sourceNode.parent_id]. *)
Theorem move_missing_source_not_reported (fuel : nat) (s : Store)
    (sourceId : Z) :
  sourceId ∉ id <$> rows s →
  TreeService.moveNodeAndSubtree fuel s sourceId (Some sourceId)
  = Some (inl (FailedToMove CannotMoveToSelf), s)
  ∧ ∀ np r s',
      TreeService.moveNodeAndSubtree fuel s sourceId np = Some (r, s') →
      r = inl (FailedToMove CannotMoveToSelf)
      ∨ r = inl (FailedToMove CannotMoveToDescendant)
      ∨ r = inl (FailedToMove TypeErrorNull).
Proof.
  intros H%getNodeById_None. unfold TreeService.moveNodeAndSubtree.
  rewrite H. split.
  - by rewrite decide_True.
  - intros np r s' Hr. repeat case_match; simplify_eq; auto.
Qed.

Lemma move_missing_source_not_reported_witness :
  TreeService.moveNodeAndSubtree 0 emptyStore 5 (Some 5)
  = Some (inl (FailedToMove CannotMoveToSelf), emptyStore)
  ∧ ∀ np r s',
      TreeService.moveNodeAndSubtree 0 emptyStore 5 np = Some (r, s') →
      r = inl (FailedToMove CannotMoveToSelf)
      ∨ r = inl (FailedToMove CannotMoveToDescendant)
      ∨ r = inl (FailedToMove TypeErrorNull).
Proof.
  apply (move_missing_source_not_reported 0 emptyStore 5).
  vm_compute. by intros ?%elem_of_nil.
Defined.

Example move_missing_source_null_target :
  TreeService.moveNodeAndSubtree 1 emptyStore 5 None
  = Some (inl (FailedToMove TypeErrorNull), emptyStore).
Proof. reflexivity. Qed.

(** ** Walks on a cyclic store *)

Lemma getAncestorIds_loop_length budget s i :
  (length (TreeQueries.getAncestorIds_loop budget s i) ≤ budget)%nat.
Proof.
  revert i. induction budget as [|b IH]; intros i; simpl; [lia|].
  destruct (truthy i); [|simpl; lia].
  destruct (TreeQueries.getNodeById s i) as [node|]; [|simpl; lia].
  destruct (parent_id node) as [pid|]; [|simpl; lia].
  simpl. specialize (IH pid). lia.
Qed.

(** The guarded walk returns on every store, after at most [maxDepth]
    turns. *)
Lemma getAncestorIds_bounded s i :
  (length (TreeQueries.getAncestorIds s i) ≤ 1000)%nat.
Proof. apply getAncestorIds_loop_length. Qed.

(** C3.  On the store whose single row is its own parent, neither
    [getAncestors] nor [getAllDescendants] returns, whatever number of turns
    they are given: they have no depth guard.  [getAncestorIds], which has
    one, returns the parent id a thousand times. *)
Theorem unguarded_walks_diverge_on_cycle (fuel : nat) :
  TreeQueries.getAncestors fuel selfLoop 1 = None
  ∧ TreeQueries.getAllDescendants fuel selfLoop 1 = None
  ∧ TreeQueries.getAncestorIds selfLoop 1 = replicate 1000 1.
Proof.
  pose (n1 := mkNode 1 "a" (Some 1)).
  split; [|split].
  - change (TreeQueries.getAncestors fuel selfLoop 1)
      with (TreeQueries.getAncestors_loop fuel selfLoop (Some n1)).
    induction fuel as [|f IH]; [done|].
    change (TreeQueries.getAncestors_loop (S f) selfLoop (Some n1))
      with ((n1 ::.) <$> TreeQueries.getAncestors_loop f selfLoop (Some n1)).
    by rewrite IH.
  - induction fuel as [|f IH]; [done|].
    change (TreeQueries.getAllDescendants (S f) selfLoop 1)
      with (childDescendants ← TreeQueries.getAllDescendants f selfLoop 1;
            Some (n1 :: childDescendants ++ [])).
    by rewrite IH.
  - by vm_compute.
Qed.

(** ** Walks on an acyclic node set *)

(** The parent relation of a set whose parents all have smaller ids has no
    cycle; this is how the worked stores are shown acyclic. *)
Lemma acyclic_of_decreasing (ns : list Node) :
  (∀ n p, n ∈ ns → parent_id n = Some p → p < id n) → acyclic ns.
Proof.
  intros Hdec.
  assert (∀ a b, tc (parent_step ns) a b → b < a) as Hlt.
  { induction 1 as [a b (n & Hn & <- & Hp)|a b c (n & Hn & <- & Hp) _ IH].
    - eauto.
    - specialize (Hdec _ _ Hn Hp). lia. }
  intros a Ha%Hlt. lia.
Qed.

Section Walks.
Context (ns : list Node) (Hacyc : acyclic ns).

Lemma seen_length (seen : list Z) :
  NoDup seen → (∀ x, x ∈ seen → x ∈ id <$> ns) →
  (length seen ≤ length ns)%nat.
Proof.
  intros Hnd Hin. rewrite <- (length_fmap id ns).
  by apply submseteq_length, NoDup_submseteq.
Qed.

Lemma up_inv_nil cur : up_inv ns [] cur.
Proof.
  repeat split; [constructor | |]; by intros x ?%elem_of_nil.
Qed.

Lemma up_inv_fresh seen cur : up_inv ns seen cur → cur ∉ seen.
Proof. intros (_ & _ & Htc) Hin. by apply (Hacyc cur), Htc. Qed.

Lemma up_inv_step seen cur p :
  up_inv ns seen cur → cur ∈ id <$> ns → parent_step ns cur p →
  up_inv ns (cur :: seen) p.
Proof.
  intros Hinv Hcur Hstep. pose proof (up_inv_fresh _ _ Hinv) as Hfresh.
  destruct Hinv as (Hnd & Hin & Htc). repeat split.
  - by constructor.
  - intros x [->|?]%elem_of_cons; auto.
  - intros x [->|?]%elem_of_cons; [by apply tc_once|].
    eapply tc_r; eauto.
Qed.

Lemma up_inv_length seen cur :
  up_inv ns seen cur → cur ∈ id <$> ns → (length seen < length ns)%nat.
Proof.
  intros Hinv Hcur. pose proof (up_inv_fresh _ _ Hinv) as Hfresh.
  destruct Hinv as (Hnd & Hin & _).
  assert (length (cur :: seen) ≤ length ns)%nat as Hle; [|simpl in Hle; lia].
  apply seen_length; [by constructor|].
  intros x [->|?]%elem_of_cons; auto.
Qed.

Lemma down_inv_nil cur : down_inv ns [] cur.
Proof.
  repeat split; [constructor | |]; by intros x ?%elem_of_nil.
Qed.

Lemma down_inv_step seen cur c :
  down_inv ns seen cur → c ∈ ns → parent_id c = Some cur →
  down_inv ns (id c :: seen) (id c).
Proof.
  intros (Hnd & Hin & Htc) Hc Hp.
  assert (parent_step ns (id c) cur) as Hstep by (exists c; auto).
  repeat split.
  - constructor; [|done]. intros [Heq|Hx]%Htc.
    + apply (Hacyc (id c)), tc_once. by rewrite <- Heq in Hstep.
    + apply (Hacyc (id c)). eapply tc_l; eauto.
  - intros x [->|?]%elem_of_cons; [|by auto].
    apply list_elem_of_fmap. eauto.
  - intros x [->|Hx]%elem_of_cons; [by left|]. right.
    destruct (Htc x Hx) as [Heq|Hxc]; [subst x; by apply tc_once|].
    eapply tc_l; eauto.
Qed.

End Walks.

(** ** Termination on acyclic stores *)

Section Termination.
Context (s : Store) (Hacyc : acyclic (rows s)).

Lemma getPathToNode_loop_returns fuel cn seen acc :
  cn ∈ rows s → up_inv (rows s) seen (id cn) →
  (length (rows s) < fuel + length seen)%nat →
  is_Some (TreeService.getPathToNode_loop fuel s (Some cn) acc).
Proof.
  revert cn seen acc.
  induction fuel as [|f IH]; intros cn seen acc Hcn Hinv Hlen.
  - assert (id cn ∈ id <$> rows s) as Hid
      by (apply list_elem_of_fmap; eauto).
    pose proof (up_inv_length _ Hacyc _ _ Hinv Hid). lia.
  - assert (id cn ∈ id <$> rows s) as Hid
      by (apply list_elem_of_fmap; eauto).
    pose proof (up_inv_length _ Hacyc _ _ Hinv Hid) as Hseen.
    simpl. destruct (parent_id cn) as [pid|] eqn:Hp; [|by eauto].
    destruct (truthy pid); [|by eauto].
    destruct (TreeQueries.getNodeById s pid) as [par|] eqn:Hpar.
    + apply getNodeById_Some in Hpar as [Hin <-].
      apply (IH par (id cn :: seen)); [done| |simpl; lia].
      apply up_inv_step; [done..|]. by exists cn.
    + destruct f as [|f]; [lia|]. simpl. eauto.
Qed.

Lemma getPathToNode_returns fuel nodeId :
  (length (rows s) < fuel)%nat →
  is_Some (TreeService.getPathToNode fuel s nodeId).
Proof.
  intros Hlen. unfold TreeService.getPathToNode.
  destruct (TreeQueries.getNodeById s nodeId) as [n|] eqn:Hn.
  - apply getNodeById_Some in Hn as [Hin <-].
    apply (getPathToNode_loop_returns fuel n []); [done| |simpl; lia].
    apply up_inv_nil.
  - destruct fuel; [lia|]. simpl. eauto.
Qed.

Lemma descend_returns fuel cur seen :
  (∀ c seen', down_inv (rows s) seen' c →
     (length (rows s) < fuel + length seen')%nat →
     is_Some (TreeQueries.getAllDescendants fuel s c)) →
  down_inv (rows s) seen cur →
  (length (rows s) < S fuel + length seen)%nat →
  ∀ cs, (∀ c, c ∈ cs → c ∈ rows s ∧ parent_id c = Some cur) →
  is_Some (TreeQueries.descend (TreeQueries.getAllDescendants fuel s) cs).
Proof.
  intros IH Hinv Hlen. induction cs as [|c cs IHcs]; intros Hcs; [by eexists|].
  destruct (Hcs c) as [Hc Hp]; [by left|].
  destruct (IH (id c) (id c :: seen)) as [cd Hcd].
  { by apply (down_inv_step _ Hacyc seen cur). }
  { simpl. lia. }
  destruct IHcs as [more Hmore].
  { intros c' Hc'. apply Hcs. by right. }
  simpl. rewrite Hcd. simpl. rewrite Hmore. simpl. eauto.
Qed.

Lemma getAllDescendants_returns_from fuel cur seen :
  down_inv (rows s) seen cur →
  (length (rows s) < fuel + length seen)%nat →
  is_Some (TreeQueries.getAllDescendants fuel s cur).
Proof.
  revert cur seen. induction fuel as [|f IH]; intros cur seen Hinv Hlen.
  - destruct Hinv as (Hnd & Hin & _).
    pose proof (seen_length _ _ Hnd Hin). lia.
  - simpl. apply (descend_returns f cur seen); [done..|].
    intros c Hc. by apply elem_of_getChildrenByParentId.
Qed.

(** With more turns than the table has rows, the descendant walk of an
    acyclic store returns. *)
Lemma getAllDescendants_returns fuel nodeId :
  (length (rows s) < fuel)%nat →
  is_Some (TreeQueries.getAllDescendants fuel s nodeId).
Proof.
  intros Hlen. apply (getAllDescendants_returns_from fuel nodeId []).
  - apply down_inv_nil.
  - simpl. lia.
Qed.

End Termination.

(** ** Depth and path *)

(** Whenever the path walk returns, the ancestor walk returns from the same
    node within the same number of turns, and the path is the ancestors in
    reverse followed by the node. *)
Lemma path_loop_ancestors s fuel cn acc p :
  ids_positive (rows s) →
  TreeService.getPathToNode_loop fuel s (Some cn) acc = Some p →
  ∃ anc,
    TreeQueries.getAncestors_loop fuel s (Some cn) = Some anc
    ∧ p = reverse (TreeService.entryOf <$> anc) ++ TreeService.entryOf cn :: acc.
Proof.
  intros Hpos. revert cn acc p.
  induction fuel as [|f IH]; intros cn acc p Hp; [done|].
  simpl in Hp. simpl.
  destruct (parent_id cn) as [pid|] eqn:Hpar; [|exists []; by simplify_eq].
  destruct (truthy pid) eqn:Ht.
  - destruct (TreeQueries.getNodeById s pid) as [par|] eqn:Hnode.
    + apply IH in Hp as (anc & -> & ->). exists (par :: anc). split; [done|].
      rewrite fmap_cons, reverse_cons, <- app_assoc. done.
    + destruct f; [done|]. simpl in Hp. exists []. by simplify_eq.
  - destruct (TreeQueries.getNodeById s pid) as [par|] eqn:Hnode.
    + apply getNodeById_Some in Hnode as [Hin Hid].
      specialize (Hpos _ Hin). unfold truthy in Ht.
      apply negb_false_iff, Z.eqb_eq in Ht. lia.
    + exists []. by simplify_eq.
Qed.

(** C8, amended.  In a store whose ids are positive and whose parent links
    have no cycle, for a node that is present, both walks return as soon as
    they are given more turns than there are rows, and [getNodeDepth] is the
    length of [getPathToNode] minus one.  A root has depth 0 and a path of
    length 1. *)
Theorem depth_is_path_length_minus_one (s : Store) (nodeId : Z) (n : Node)
    (fuel : nat) :
  ids_positive (rows s) →
  acyclic (rows s) →
  TreeQueries.getNodeById s nodeId = Some n →
  (length (rows s) < fuel)%nat →
  ∃ (d : nat) (path : list PathEntry),
    TreeQueries.getNodeDepth fuel s nodeId = Some d
    ∧ TreeService.getPathToNode fuel s nodeId = Some path
    ∧ Z.of_nat d = Z.of_nat (length path) - 1
    ∧ (parent_id n = None → d = 0%nat ∧ length path = 1%nat).
Proof.
  intros Hpos Hacyc Hn Hlen.
  destruct (getPathToNode_returns s Hacyc fuel nodeId Hlen) as [path Hpath].
  pose proof Hpath as Hpath'.
  unfold TreeService.getPathToNode in Hpath'. rewrite Hn in Hpath'.
  apply path_loop_ancestors in Hpath' as (anc & Hanc & ->); [|done].
  exists (length anc), (reverse (TreeService.entryOf <$> anc) ++ [TreeService.entryOf n]).
  split; [|split; [done|split]].
  - unfold TreeQueries.getNodeDepth, TreeQueries.getAncestors.
    by rewrite Hn, Hanc.
  - rewrite length_app, length_reverse, length_fmap. simpl. lia.
  - intros Hroot. destruct fuel as [|f]; [done|].
    simpl in Hanc. rewrite Hroot in Hanc. by simplify_eq.
Qed.

(** The two walks test the parent differently: [getAncestors] compares with
    [null], [getPathToNode] tests truthiness.  A row with id 0, which the
    AUTOINCREMENT column never hands out, would tell them apart. *)
Example depth_and_path_differ_on_id_zero :
  let s := mkStore [mkNode 0 "zero" None; mkNode 1 "one" (Some 0)] 1 in
  TreeQueries.getNodeDepth 3 s 1 = Some 1%nat
  ∧ TreeService.getPathToNode 3 s 1 = Some [mkPathEntry 1 "one"].
Proof. split; reflexivity. Qed.

(** C8 as stated fails on a row whose parent has id 0: the store has no
    cycle and the node is there, its depth is 1 and its path has length 1. *)
Lemma depth_is_path_length_minus_one_counterexample :
  acyclic [mkNode 0 "zero" None; mkNode 1 "one" (Some 0)]
  ∧ TreeQueries.getNodeById
      (mkStore [mkNode 0 "zero" None; mkNode 1 "one" (Some 0)] 1) 1
    = Some (mkNode 1 "one" (Some 0))
  ∧ TreeQueries.getNodeDepth 3
      (mkStore [mkNode 0 "zero" None; mkNode 1 "one" (Some 0)] 1) 1
    = Some 1%nat
  ∧ TreeService.getPathToNode 3
      (mkStore [mkNode 0 "zero" None; mkNode 1 "one" (Some 0)] 1) 1
    = Some [mkPathEntry 1 "one"]
  ∧ Z.of_nat 1 ≠ Z.of_nat (length [mkPathEntry 1 "one"]) - 1.
Proof.
  split; [|by vm_compute].
  apply acyclic_of_decreasing. intros n p Hn Hp.
  each_elem Hn ltac:(simpl in *; simplify_eq; lia).
Qed.

Lemma forest4_decreasing :
  ∀ n p, n ∈ rows forest4 → parent_id n = Some p → p < id n.
Proof.
  intros n p Hn Hp. vm_compute in Hn.
  each_elem Hn ltac:(simpl in *; simplify_eq; lia).
Qed.

Lemma forest4_positive : ids_positive (rows forest4).
Proof.
  intros n Hn. vm_compute in Hn.
  each_elem Hn ltac:(simpl; lia).
Qed.

Lemma depth_is_path_length_minus_one_witness :
  ∃ (d : nat) (path : list PathEntry),
    TreeQueries.getNodeDepth 5 forest4 3 = Some d
    ∧ TreeService.getPathToNode 5 forest4 3 = Some path
    ∧ Z.of_nat d = Z.of_nat (length path) - 1
    ∧ (parent_id (mkNode 3 "cat" (Some 2)) = None
       → d = 0%nat ∧ length path = 1%nat).
Proof.
  apply (depth_is_path_length_minus_one forest4 3 (mkNode 3 "cat" (Some 2)) 5).
  - exact forest4_positive.
  - exact (acyclic_of_decreasing _ forest4_decreasing).
  - reflexivity.
  - vm_compute. lia.
Defined.

(** ** Roots found by [buildHierarchy] *)

(** The nodes pushed onto [trees] are those whose [parent_id] is
    [rootParentId], in input order. *)
Lemma attach_trees r ns m t :
  (foldl (TreeService.attach r) (m, t) ns).2 = t ++ rootsOf r ns.
Proof.
  unfold rootsOf. revert m t. induction ns as [|n ns IH]; intros m t.
  - simpl. by rewrite app_nil_r.
  - cbn [foldl]. rewrite filter_cons. cbn [TreeService.attach].
    destruct (decide (parent_id n = r)) as [Heq|Hne].
    + rewrite IH, fmap_cons, <- app_assoc. done.
    + destruct (parent_id n) as [p|]; [destruct (m !! p)|]; by rewrite IH.
Qed.

(** The guarded call of the [forEach] body: an empty [children] array
    starts none. *)
Lemma sortChildrenRecursively_S stack M ids :
  TreeService.sortChildrenRecursively (S stack) M ids
  = mapM (λ i,
            o ← M !! i;
            kids ← match TreeService.o_children o with
                   | [] => Some []
                   | _ :: _ =>
                       TreeService.sortChildrenRecursively stack M
                         (merge_sort Z.le (TreeService.o_children o))
                   end;
            Some (mkTreeNode i (TreeService.o_label o) kids))
         ids.
Proof. done. Qed.

Lemma merge_sort_nil_inv (l : list Z) : merge_sort Z.le l = [] → l = [].
Proof.
  intros H. apply Permutation_nil_r. rewrite <- H.
  by rewrite merge_sort_Permutation.
Qed.

Lemma buildHierarchy_unfold stack nodes r :
  nodes ≠ [] →
  TreeService.buildHierarchy stack nodes r
  = TreeService.sortChildrenRecursively stack
      (foldl (TreeService.attach r) (TreeService.initNodeMap nodes, []) nodes).1
      (foldl (TreeService.attach r) (TreeService.initNodeMap nodes, []) nodes).2.
Proof.
  unfold TreeService.buildHierarchy. destruct nodes as [|n nodes]; [done|].
  by destruct (foldl _ _ _).
Qed.

Lemma buildHierarchy_unfold_S stack nodes r :
  TreeService.buildHierarchy (S stack) nodes r
  = TreeService.sortChildrenRecursively (S stack)
      (foldl (TreeService.attach r) (TreeService.initNodeMap nodes, []) nodes).1
      (foldl (TreeService.attach r) (TreeService.initNodeMap nodes, []) nodes).2.
Proof.
  destruct nodes as [|n nodes]; [done|]. by apply buildHierarchy_unfold.
Qed.

(** Without the first call nothing is returned for a list with a node. *)
Lemma buildHierarchy_no_stack nodes r :
  nodes ≠ [] → TreeService.buildHierarchy 0 nodes r = None.
Proof. intros H. by rewrite buildHierarchy_unfold. Qed.

Lemma buildHierarchy_no_root stack nodes r :
  (∀ n, n ∈ nodes → parent_id n ≠ r) →
  TreeService.buildHierarchy (S stack) nodes r = Some [].
Proof.
  intros Hno. rewrite buildHierarchy_unfold_S, attach_trees. unfold rootsOf.
  by rewrite (filter_nil_intro _ nodes) by done.
Qed.

Lemma descend_Forall (P : Node → Prop) recur cs ds :
  (∀ c r, recur c = Some r → Forall P r) →
  Forall P cs → TreeQueries.descend recur cs = Some ds → Forall P ds.
Proof.
  intros Hrec. revert ds. induction cs as [|c cs IH]; intros ds Hcs Hds.
  - by simplify_eq/=.
  - simpl in Hds. destruct (recur (id c)) as [cd|] eqn:Hcd; [|done].
    simpl in Hds.
    destruct (TreeQueries.descend recur cs) as [more|]; [|done].
    simplify_eq/=. apply Forall_cons in Hcs as [Hc Hcs].
    apply Forall_cons. split; [done|]. apply Forall_app. eauto.
Qed.

(** Every node returned by [getAllDescendants] is a row with a parent. *)
Lemma getAllDescendants_rows fuel s nodeId ds :
  TreeQueries.getAllDescendants fuel s nodeId = Some ds →
  Forall (λ d, d ∈ rows s ∧ is_Some (parent_id d)) ds.
Proof.
  revert nodeId ds. induction fuel as [|f IH]; intros nodeId ds Hds; [done|].
  simpl in Hds. eapply descend_Forall; [| |exact Hds].
  - intros c r. apply IH.
  - apply Forall_forall. intros c [Hc Hp]%elem_of_getChildrenByParentId.
    split; [done|]. by rewrite Hp.
Qed.

Lemma getTreeByRootId_non_root_step stack fuel s rootId n ds :
  TreeQueries.getNodeById s rootId = Some n →
  is_Some (parent_id n) →
  TreeQueries.getAllDescendants fuel s rootId = Some ds →
  TreeService.getTreeByRootId (S stack) fuel s rootId = Some (inr None).
Proof.
  intros Hn [p Hp] Hds. unfold TreeService.getTreeByRootId.
  rewrite Hn, Hds. cbn [mbind option_bind].
  rewrite buildHierarchy_no_root; [done|].
  intros m [->|Hm]%elem_of_cons; [by rewrite Hp|].
  apply getAllDescendants_rows in Hds.
  apply (proj1 (Forall_forall _ _) Hds) in Hm as [_ [q Hq]]. by rewrite Hq.
Qed.

(** A tree comes back only for a node without parent, on every store. *)
Lemma getTreeByRootId_Some_root stack fuel s rootId t :
  TreeService.getTreeByRootId stack fuel s rootId = Some (inr (Some t)) →
  ∃ n, TreeQueries.getNodeById s rootId = Some n ∧ parent_id n = None.
Proof.
  intros H.
  destruct (TreeQueries.getNodeById s rootId) as [n|] eqn:Hn;
    [|by unfold TreeService.getTreeByRootId in H; rewrite Hn in H].
  exists n. split; [done|].
  destruct (parent_id n) as [p|] eqn:Hp; [exfalso|done].
  destruct (TreeQueries.getAllDescendants fuel s rootId) as [ds|] eqn:Hds.
  - destruct stack as [|stack].
    + unfold TreeService.getTreeByRootId in H. rewrite Hn, Hds in H.
      cbn [mbind option_bind] in H.
      by rewrite buildHierarchy_no_stack in H.
    + rewrite (getTreeByRootId_non_root_step stack fuel s rootId n ds) in H;
        [done..|by rewrite Hp|done].
  - unfold TreeService.getTreeByRootId in H. by rewrite Hn, Hds in H.
Qed.

(** C10.  In an acyclic store, [getTreeByRootId] of an existing node whose
    [parent_id] is not null returns [null], on every call stack that holds
    the one call of [sortChildrenRecursively]: none of the nodes handed to
    [buildHierarchy] has a null parent, so [trees] stays empty.  A tree comes
    back only when the node is a root. *)
Theorem getTreeByRootId_non_root (s : Store) (rootId : Z) (n : Node)
    (stack fuel : nat) :
  acyclic (rows s) →
  TreeQueries.getNodeById s rootId = Some n →
  is_Some (parent_id n) →
  (length (rows s) < fuel)%nat →
  TreeService.getTreeByRootId (S stack) fuel s rootId = Some (inr None)
  ∧ ∀ stack' fuel' t,
      TreeService.getTreeByRootId stack' fuel' s rootId
      ≠ Some (inr (Some t)).
Proof.
  intros Hacyc Hn Hp Hlen. split.
  - destruct (getAllDescendants_returns s Hacyc fuel rootId Hlen) as [ds Hds].
    by apply (getTreeByRootId_non_root_step stack fuel s rootId n ds).
  - destruct Hp as [p Hp].
    intros stack' fuel' t (n' & Hn' & Hroot)%getTreeByRootId_Some_root.
    congruence.
Qed.

Lemma getTreeByRootId_non_root_witness :
  TreeService.getTreeByRootId 1 5 forest4 2 = Some (inr None)
  ∧ ∀ stack' fuel' t,
      TreeService.getTreeByRootId stack' fuel' forest4 2
      ≠ Some (inr (Some t)).
Proof.
  apply (getTreeByRootId_non_root forest4 2 (mkNode 2 "bear" (Some 1)) 0 5).
  - exact (acyclic_of_decreasing _ forest4_decreasing).
  - reflexivity.
  - by eexists.
  - vm_compute. lia.
Defined.

(** ** Stores filled by [createNode] alone *)

Lemma foldr_max_lower (b : Z) (l : list Z) : b ≤ foldr Z.max b l.
Proof. induction l as [|x l IH]; simpl; lia. Qed.

Lemma foldr_max_upper (b : Z) (l : list Z) x : x ∈ l → x ≤ foldr Z.max b l.
Proof.
  induction l as [|y l IH]; [by intros ?%elem_of_nil|].
  intros [->|Hx]%elem_of_cons; simpl; [lia|]. specialize (IH Hx). lia.
Qed.

Lemma insertRow_inv s l parentId :
  create_inv s →
  (∀ p, parentId = Some p → p ∈ id <$> rows s) →
  create_inv (TreeQueries.insertRow s l parentId).2.
Proof.
  intros (Hseq & Hpos & Hpar) Hp. unfold TreeQueries.insertRow. simpl.
  pose proof (foldr_max_lower (Z.max 0 (seq s)) (id <$> rows s)) as Hlow.
  assert (∀ x, x ∈ id <$> rows s → x < TreeQueries.nextId s) as Hup.
  { intros x Hx%(foldr_max_upper (Z.max 0 (seq s))).
    unfold TreeQueries.nextId. lia. }
  unfold create_inv. simpl. fold (TreeQueries.nextId s).
  assert (0 < TreeQueries.nextId s) as Hnext
    by (unfold TreeQueries.nextId; lia).
  split; [lia|]. split.
  - intros n [Hn | ->%list_elem_of_singleton]%elem_of_app; [auto|done].
  - intros n p [Hn | ->%list_elem_of_singleton]%elem_of_app Hnp.
    + destruct (Hpar n p Hn Hnp) as [Hin Hlt]. split; [|done].
      rewrite fmap_app. apply elem_of_app. by left.
    + simpl in Hnp. specialize (Hp p Hnp). split; [|by apply Hup].
      rewrite fmap_app. apply elem_of_app. by left.
Qed.

Lemma createNode_inv s l parentId :
  create_inv s → create_inv (TreeQueries.createNode s l parentId).2.
Proof.
  intros Hinv. unfold TreeQueries.createNode.
  destruct (decide (TreeQueries.nextId s ≤ TreeQueries.maxRowid));
    [|by destruct parentId as [p|]; [destruct (TreeQueries.nodeExists s p)|]].
  destruct parentId as [p|].
  - destruct (TreeQueries.nodeExists s p) eqn:Hex; [|done].
    apply (insertRow_inv s l (Some p) Hinv).
    intros q Hq. injection Hq as <-. by apply nodeExists_true.
  - by apply (insertRow_inv s l None Hinv).
Qed.

Lemma created_inv s : created s → create_inv s.
Proof.
  induction 1 as [k Hk|s l parentId _ IH].
  - split; [done|]. split; simpl.
    + by intros n ?%elem_of_nil.
    + by intros n p ?%elem_of_nil.
  - by apply createNode_inv.
Qed.

(** Under [create_inv] every id met by the guarded walk is below its start. *)
Lemma getAncestorIds_loop_below s budget i :
  create_inv s →
  Forall (λ a, a < i) (TreeQueries.getAncestorIds_loop budget s i).
Proof.
  intros (_ & _ & Hpar). revert i.
  induction budget as [|b IH]; intros i; simpl; [constructor|].
  destruct (truthy i); [|constructor].
  destruct (TreeQueries.getNodeById s i) as [node|] eqn:Hnode; [|constructor].
  destruct (parent_id node) as [pid|] eqn:Hp; [|constructor].
  apply getNodeById_Some in Hnode as [Hin <-].
  destruct (Hpar node pid Hin Hp) as [_ Hlt].
  constructor; [done|].
  eapply Forall_impl; [apply IH|]. simpl. intros a Ha. lia.
Qed.

Lemma nodeMap_lookup (ns : list Node) (m : gmap Z Node) k :
  k ∈ id <$> ns → is_Some (foldl (λ m node, <[id node := node]> m) m ns !! k).
Proof.
  assert (∀ (ns' : list Node) (m' : gmap Z Node), is_Some (m' !! k) →
            is_Some (foldl (λ m node, <[id node := node]> m) m' ns' !! k))
    as Hkeep.
  { induction ns' as [|n ns' IH]; intros m' Hm'; [done|]. simpl. apply IH.
    destruct (decide (id n = k)) as [->|Hne].
    - rewrite lookup_insert_eq. eauto.
    - by rewrite lookup_insert_ne. }
  revert m. induction ns as [|n ns IH]; intros m; [by intros ?%elem_of_nil|].
  rewrite fmap_cons. intros [->|Hk]%elem_of_cons; simpl.
  - apply Hkeep. rewrite lookup_insert_eq. eauto.
  - by apply IH.
Qed.

Lemma bind_nil {A B} (f : A → list B) (l : list A) :
  (∀ x, x ∈ l → f x = []) → l ≫= f = [].
Proof.
  induction l as [|x l IH]; intros Hf; [done|].
  rewrite bind_cons, Hf by left. simpl. apply IH. intros y Hy. apply Hf. by right.
Qed.

(** C7.  On every store obtained from a table without rows by calls of
    [createNode] (failed ones included), [validateTreeStructure()] finds no
    issue and reports [isValid: true]. *)
Theorem validateTreeStructure_created (s : Store) :
  created s →
  TreeService.isValid (TreeService.validateTreeStructure s None) = true
  ∧ TreeService.issues (TreeService.validateTreeStructure s None) = [].
Proof.
  intros Hinv%created_inv.
  assert (TreeService.issues (TreeService.validateTreeStructure s None) = [])
    as Hissues.
  { unfold TreeService.validateTreeStructure. simpl.
    apply bind_nil. intros n Hn. unfold TreeService.issuesOf.
    destruct (parent_id n) as [p|] eqn:Hp; [|done].
    apply elem_of_getAllNodes in Hn.
    destruct Hinv as (Hseq & Hpos & Hpar).
    destruct (Hpar n p Hn Hp) as [Hin Hlt].
    rewrite decide_False.
    - rewrite decide_False; [done|].
      intros Hcyc.
      pose proof (getAncestorIds_loop_below s TreeQueries.maxDepth (id n)
                    (conj Hseq (conj Hpos Hpar))) as Hbelow.
      apply (proj1 (Forall_forall _ _) Hbelow) in Hcyc. lia.
    - apply not_eq_None_Some, nodeMap_lookup.
      unfold TreeQueries.getAllNodes. by rewrite merge_sort_Permutation. }
  split; [|done].
  unfold TreeService.validateTreeStructure in *. simpl in *.
  rewrite Hissues. done.
Qed.

Lemma forest4_created : created forest4.
Proof.
  exact (created_step _ "frog" (Some 1)
           (created_step _ "cat" (Some 2)
              (created_step _ "bear" (Some 1)
                 (created_step _ "root" None
                    (created_empty 0 (Z.le_refl 0)))))).
Qed.

Lemma validateTreeStructure_created_witness :
  TreeService.isValid (TreeService.validateTreeStructure forest4 None) = true
  ∧ TreeService.issues (TreeService.validateTreeStructure forest4 None) = [].
Proof. exact (validateTreeStructure_created forest4 forest4_created). Defined.

(** ** The objects built by [buildHierarchy] *)

Lemma initNodeMap_lookup_gen (ns : list Node) (m : gmap Z TreeService.TreeObj) i :
  foldl (λ m node, <[id node := TreeService.mkTreeObj (label node) []]> m) m ns
    !! i
  = match last (filter (λ n, id n = i) ns) with
    | Some n => Some (TreeService.mkTreeObj (label n) [])
    | None => m !! i
    end.
Proof.
  revert m. induction ns as [|n ns IH]; intros m; [done|].
  cbn [foldl]. rewrite IH, filter_cons.
  destruct (decide (id n = i)) as [<-|Hne].
  - rewrite last_cons. destruct (last _); [done|].
    by rewrite lookup_insert_eq.
  - destruct (last _); [done|]. by rewrite lookup_insert_ne.
Qed.

Lemma initNodeMap_lookup ns i :
  TreeService.initNodeMap ns !! i
  = (λ l, TreeService.mkTreeObj l []) <$> labelOf ns i.
Proof.
  unfold TreeService.initNodeMap, labelOf. rewrite initNodeMap_lookup_gen.
  by destruct (last _).
Qed.

Lemma kidsOf_cons r n ns i :
  kidsOf r (n :: ns) i
  = (if decide (parent_id n ≠ r ∧ parent_id n = Some i) then [id n] else [])
    ++ kidsOf r ns i.
Proof. unfold kidsOf. rewrite filter_cons. by case_decide. Qed.

Lemma attach_lookup r ns (L : Z → option string) (K : Z → list Z) m t :
  (∀ i, m !! i = (λ l, TreeService.mkTreeObj l (K i)) <$> L i) →
  ∀ i, (foldl (TreeService.attach r) (m, t) ns).1 !! i
       = (λ l, TreeService.mkTreeObj l (K i ++ kidsOf r ns i)) <$> L i.
Proof.
  revert K m t. induction ns as [|n ns IH]; intros K m t Hm i.
  - simpl. rewrite Hm. unfold kidsOf. simpl. by rewrite app_nil_r.
  - cbn [foldl TreeService.attach]. rewrite kidsOf_cons.
    destruct (decide (parent_id n = r)) as [Heq|Hne].
    { rewrite (IH K) by done. rewrite decide_False by tauto. done. }
    destruct (parent_id n) as [p|] eqn:Hp.
    2:{ rewrite (IH K) by done. rewrite decide_False by (by intros [_ ?]). done. }
    destruct (m !! p) as [parent|] eqn:Hparent.
    2:{ rewrite (IH K) by done. case_decide as Hd; [|done].
        destruct Hd as [_ [= ->]]. rewrite Hm in Hparent.
        destruct (L i); [done|]. done. }
    rewrite (IH (λ j, if decide (j = p) then K j ++ [id n] else K j)).
    + destruct (decide (i = p)) as [->|Hip].
      * rewrite decide_True by done. by rewrite <- app_assoc.
      * rewrite decide_False by (intros [_ [= ->]]; done). done.
    + intros j. destruct (decide (j = p)) as [->|Hjp].
      * rewrite lookup_insert_eq. rewrite Hm in Hparent.
        destruct (L p); simplify_eq/=; done.
      * rewrite lookup_insert_ne by done. apply Hm.
Qed.

(** The object found under key [i] once both passes are over. *)
Lemma buildHierarchy_heap r ns i :
  (foldl (TreeService.attach r) (TreeService.initNodeMap ns, []) ns).1 !! i
  = (λ l, TreeService.mkTreeObj l (kidsOf r ns i)) <$> labelOf ns i.
Proof.
  rewrite (attach_lookup r ns (labelOf ns) (λ _, [])); [done|].
  intros j. apply initNodeMap_lookup.
Qed.

(** ** Input order *)

Lemma children_sorted_unfold t :
  children_sorted t
  ↔ Sorted Z.le (tid <$> children t) ∧ Forall children_sorted (children t).
Proof.
  destruct t as [i l kids]. cbn [children_sorted children].
  apply and_iff_compat_l. induction kids as [|k kids IH].
  - split; [constructor|done].
  - rewrite Forall_cons, IH. done.
Qed.

Lemma merge_sort_permutation (l l' : list Z) :
  l ≡ₚ l' → merge_sort Z.le l = merge_sort Z.le l'.
Proof.
  intros Hperm. apply (Sorted_unique Z.le).
  - apply Sorted_merge_sort; apply _.
  - apply Sorted_merge_sort; apply _.
  - by rewrite !merge_sort_Permutation.
Qed.

(** Two heaps with the same labels and the same children up to order are
    walked to the same forest. *)
Lemma sortChildrenRecursively_equiv (M M' : gmap Z TreeService.TreeObj) :
  (∀ i, option_Forall2
          (λ o o', TreeService.o_label o = TreeService.o_label o'
                   ∧ TreeService.o_children o ≡ₚ TreeService.o_children o')
          (M !! i) (M' !! i)) →
  ∀ fuel ids,
    TreeService.sortChildrenRecursively fuel M ids
    = TreeService.sortChildrenRecursively fuel M' ids.
Proof.
  intros Heq. induction fuel as [|f IH]; intros ids; [done|].
  rewrite !sortChildrenRecursively_S. apply mapM_ext. intros i.
  destruct (Heq i) as [o o' [Hl Hc]|]; [|done]. cbn [mbind option_bind].
  rewrite Hl.
  destruct (TreeService.o_children o) as [|c cs] eqn:Hco,
    (TreeService.o_children o') as [|c' cs'] eqn:Hco'.
  - done.
  - by apply Permutation_nil_l in Hc.
  - by apply Permutation_nil_r in Hc.
  - by rewrite (merge_sort_permutation _ _ Hc), IH.
Qed.

Lemma mapM_permutation {A B} (f : A → option B) (l l' : list A) :
  l ≡ₚ l' → option_Forall2 (≡ₚ) (mapM f l) (mapM f l').
Proof.
  induction 1 as [|x l l' _ IH|x y l|l l' l'' _ IH1 _ IH2].
  - by constructor.
  - cbn [mapM]. destruct (f x); [|constructor].
    cbn [mbind option_bind]. destruct IH as [k k' Hk|]; constructor.
    simpl. by constructor.
  - cbn [mapM]. destruct (f x), (f y); cbn [mbind option_bind];
      try constructor; destruct (mapM f l); constructor.
    simpl. apply perm_swap.
  - by etrans.
Qed.

Lemma filter_id_NoDup (ns : list Node) i :
  NoDup (id <$> ns) →
  filter (λ n, id n = i) ns = []
  ∨ ∃ n, filter (λ n, id n = i) ns = [n].
Proof.
  induction ns as [|n ns IH]; intros Hnd; [by left|].
  rewrite fmap_cons in Hnd. apply NoDup_cons in Hnd as [Hfresh Hnd].
  rewrite filter_cons. destruct (decide (id n = i)) as [<-|Hne]; [|auto].
  right. exists n. f_equal. apply filter_nil_intro.
  intros x Hx Hid. apply Hfresh. rewrite <- Hid. by apply list_elem_of_fmap_2.
Qed.

Lemma labelOf_permutation ns ns' i :
  NoDup (id <$> ns) → ns ≡ₚ ns' → labelOf ns i = labelOf ns' i.
Proof.
  intros Hnd Hperm. unfold labelOf.
  assert (filter (λ n, id n = i) ns ≡ₚ filter (λ n, id n = i) ns') as Hf
    by by rewrite Hperm.
  destruct (filter_id_NoDup ns i Hnd) as [Hnil|[n Hn]].
  - rewrite Hnil in Hf |- *. symmetry in Hf.
    apply Permutation_nil_r in Hf. by rewrite Hf.
  - rewrite Hn in Hf |- *. symmetry in Hf.
    apply Permutation_singleton_r in Hf. by rewrite Hf.
Qed.

Lemma kidsOf_permutation r ns ns' i :
  ns ≡ₚ ns' → kidsOf r ns i ≡ₚ kidsOf r ns' i.
Proof. intros Hperm. unfold kidsOf. by rewrite Hperm. Qed.

Lemma sortChildrenRecursively_sorted fuel M ids forest :
  TreeService.sortChildrenRecursively fuel M ids = Some forest →
  tid <$> forest = ids ∧ Forall children_sorted forest.
Proof.
  revert ids forest. induction fuel as [|f IH]; intros ids forest H; [done|].
  rewrite sortChildrenRecursively_S in H.
  apply mapM_Some in H. induction H as [|i t ids forest Ht _ [IH1 IH2]].
  - split; [done|constructor].
  - destruct (M !! i) as [o|]; [|done]. cbn [mbind option_bind] in Ht.
    assert (∃ kids, t = mkTreeNode i (TreeService.o_label o) kids
                    ∧ Sorted Z.le (tid <$> kids)
                    ∧ Forall children_sorted kids) as (kids & -> & Hs & Hkids).
    { destruct (TreeService.o_children o) as [|c cs].
      - injection Ht as <-. exists []. split; [done|]. split; constructor.
      - destruct (TreeService.sortChildrenRecursively f M _) as [kids|] eqn:Hk;
          [|done].
        cbn [mbind option_bind] in Ht. injection Ht as <-.
        apply IH in Hk as [Hids Hkids]. exists kids. split; [done|].
        split; [|done]. rewrite Hids. apply Sorted_merge_sort; apply _. }
    split.
    + rewrite fmap_cons. simpl. by rewrite IH1.
    + constructor; [|done]. by apply children_sorted_unfold.
Qed.

Lemma mapM_mono {A B} (f g : A → option B) (l : list A) (k : list B) :
  (∀ x y, f x = Some y → g x = Some y) →
  mapM f l = Some k → mapM g l = Some k.
Proof.
  intros Hfg. rewrite !mapM_Some. induction 1; constructor; auto.
Qed.

(** What a walk has returned it returns on any deeper stack. *)
Lemma sortChildrenRecursively_mono stack stack' M ids forest :
  (stack ≤ stack')%nat →
  TreeService.sortChildrenRecursively stack M ids = Some forest →
  TreeService.sortChildrenRecursively stack' M ids = Some forest.
Proof.
  revert stack' ids forest.
  induction stack as [|k IH]; intros stack' ids forest Hle H; [done|].
  destruct stack' as [|k']; [lia|].
  rewrite sortChildrenRecursively_S in H |- *.
  eapply mapM_mono; [|exact H]. intros i t Ht. cbv beta in Ht |- *.
  destruct (M !! i) as [o|]; cbn [mbind option_bind] in Ht |- *; [|done].
  destruct (TreeService.o_children o) as [|c cs]; [done|].
  destruct (TreeService.sortChildrenRecursively k M _) as [kids|] eqn:Hk;
    cbn [mbind option_bind] in Ht; [|done].
  rewrite (IH k' _ kids); [done|lia|done].
Qed.

Lemma head_filter_NoDup (ns : list Node) (n : Node) :
  NoDup (id <$> ns) → n ∈ ns →
  head (filter (λ m, id m = id n) ns) = Some n.
Proof.
  intros Hnd Hin.
  assert (n ∈ filter (λ m, id m = id n) ns) as Hf
    by by apply list_elem_of_filter.
  destruct (filter_id_NoDup ns (id n) Hnd) as [Hnil|[m Hm]].
  - rewrite Hnil in Hf. by apply elem_of_nil in Hf.
  - rewrite Hm in Hf |- *. apply list_elem_of_singleton in Hf. by subst.
Qed.

(** *** [buildHierarchy] returns on lists without repeated ids *)

Lemma node_unique (ns : list Node) (n n' : Node) :
  NoDup (id <$> ns) → n ∈ ns → n' ∈ ns → id n = id n' → n = n'.
Proof.
  intros Hnd Hn Hn' Hid.
  pose proof (head_filter_NoDup ns n Hnd Hn) as H1.
  pose proof (head_filter_NoDup ns n' Hnd Hn') as H2.
  rewrite Hid in H1. congruence.
Qed.

Section Chains.
Context (r : option Z) (ns : list Node) (Hnd : NoDup (id <$> ns)).

Lemma chain_ids path x : chain r ns path → x ∈ path → x ∈ id <$> ns.
Proof.
  induction 1 as [n Hn Hp|c i rest Hc Hp Hr _ IH].
  - intros ->%list_elem_of_singleton. by apply list_elem_of_fmap_2.
  - intros [->|Hx]%elem_of_cons; [by apply list_elem_of_fmap_2|auto].
Qed.

(** On a chain, the object that holds [x] as a child comes after [x]. *)
Lemma chain_parent_later path c :
  chain r ns path → id c ∈ path → c ∈ ns → parent_id c ≠ r →
  ∃ y, parent_id c = Some y ∧ y ∈ tail path.
Proof.
  induction 1 as [n Hn Hp|c' i' rest' Hc' Hp' Hr' Hchain IH];
    intros Hx Hc Hr.
  - apply list_elem_of_singleton in Hx.
    assert (c = n) as -> by by apply (node_unique ns).
    done.
  - apply elem_of_cons in Hx as [Hx|Hx].
    + assert (c = c') as -> by by apply (node_unique ns).
      exists i'. split; [done|]. by left.
    + destruct (IH Hx Hc Hr) as (y & Hy & Hin).
      exists y. split; [done|]. by right.
Qed.

Lemma chain_NoDup path : chain r ns path → NoDup path.
Proof.
  induction 1 as [n Hn Hp|c i rest Hc Hp Hr Hchain IH].
  - apply NoDup_singleton.
  - constructor; [|done]. intros Hin.
    destruct (chain_parent_later (i :: rest) c Hchain Hin Hc Hr)
      as (y & Hy & Hyin).
    rewrite Hp in Hy. injection Hy as <-.
    by apply NoDup_cons_1_1 in IH.
Qed.

Lemma chain_length path : chain r ns path → (length path ≤ length ns)%nat.
Proof.
  intros Hchain. rewrite <- (length_fmap id ns).
  apply submseteq_length, NoDup_submseteq; [by apply chain_NoDup|].
  intros x. by apply chain_ids.
Qed.

Context (M : gmap Z TreeService.TreeObj).
Context (HM : ∀ i, M !! i
                   = (λ l, TreeService.mkTreeObj l (kidsOf r ns i))
                       <$> labelOf ns i).

Lemma sortChildrenRecursively_returns_chain fuel ids rest :
  ids ≠ [] ∨ (0 < fuel)%nat →
  (∀ i, i ∈ ids → chain r ns (i :: rest)) →
  (length ns ≤ fuel + length rest)%nat →
  is_Some (TreeService.sortChildrenRecursively fuel M ids).
Proof.
  revert ids rest. induction fuel as [|f IH]; intros ids rest Hne Hids Hlen.
  - destruct ids as [|i ids]; [destruct Hne; [done|lia]|].
    pose proof (chain_length _ (Hids i (list_elem_of_here _ _))) as Hl.
    simpl in Hl. lia.
  - rewrite sortChildrenRecursively_S.
    apply mapM_is_Some_2, Forall_forall. intros i Hi. simpl.
    pose proof (Hids i Hi) as Hchain.
    assert (i ∈ id <$> ns) as (n & -> & Hn)%list_elem_of_fmap
      by (eapply chain_ids; [done|by left]).
    rewrite HM. unfold labelOf.
    destruct (filter_id_NoDup ns (id n) Hnd) as [Hnil|[m Hm]].
    { assert (n ∈ filter (λ x, id x = id n) ns) as Hf
        by by apply list_elem_of_filter.
      rewrite Hnil in Hf. by apply elem_of_nil in Hf. }
    rewrite Hm.
    cbn [last fmap option_fmap option_map mbind option_bind
         TreeService.o_children TreeService.o_label].
    destruct (kidsOf r ns (id n)) as [|c0 cs] eqn:Hcs; [by eexists|].
    destruct (IH (merge_sort Z.le (c0 :: cs)) (id n :: rest))
      as [kids Hkids]; [| |simpl; lia|by rewrite Hkids].
    + left. by intros ?%merge_sort_nil_inv.
    + intros c. rewrite merge_sort_Permutation, <- Hcs. unfold kidsOf.
      intros (x & -> & [[Hr Hp] Hx]%list_elem_of_filter)%list_elem_of_fmap.
      by apply chain_kid.
Qed.

End Chains.

(** On a list without repeated ids no object is met twice on the way down,
    so the walk returns on a stack that holds as many nested calls as the
    list has nodes. *)
Lemma buildHierarchy_returns (stack : nat) (ns : list Node) (r : option Z) :
  NoDup (id <$> ns) → (length ns ≤ stack)%nat →
  is_Some (TreeService.buildHierarchy stack ns r).
Proof.
  intros Hnd Hstack. destruct (decide (ns = [])) as [->|Hne]; [by eexists|].
  rewrite buildHierarchy_unfold, attach_trees by done. cbn [app].
  apply (sortChildrenRecursively_returns_chain r ns Hnd _
           (buildHierarchy_heap r ns) stack (rootsOf r ns) []).
  - right. destruct ns; [done|]. simpl in Hstack. lia.
  - unfold rootsOf.
    intros i (n & -> & [Hp Hn]%list_elem_of_filter)%list_elem_of_fmap.
    by apply chain_root.
  - simpl. lia.
Qed.

(** C4 as stated fails on two roots: they come back in input order. *)
Lemma buildHierarchy_root_order_counterexample :
  [mkNode 1 "a" None; mkNode 2 "b" None]
    ≡ₚ [mkNode 2 "b" None; mkNode 1 "a" None]
  ∧ TreeService.buildHierarchy 2 [mkNode 1 "a" None; mkNode 2 "b" None] None
    = Some [mkTreeNode 1 "a" []; mkTreeNode 2 "b" []]
  ∧ TreeService.buildHierarchy 2 [mkNode 2 "b" None; mkNode 1 "a" None] None
    = Some [mkTreeNode 2 "b" []; mkTreeNode 1 "a" []]
  ∧ TreeService.buildHierarchy 2 [mkNode 1 "a" None; mkNode 2 "b" None] None
    ≠ TreeService.buildHierarchy 2 [mkNode 2 "b" None; mkNode 1 "a" None] None.
Proof.
  split; [apply perm_swap|]. split; [reflexivity|]. split; [reflexivity|].
  vm_compute. discriminate.
Qed.

(** With a repeated id the label kept is the one set last, so distinct ids
    are needed as well. *)
Example buildHierarchy_duplicate_id :
  TreeService.buildHierarchy 2 [mkNode 1 "a" None; mkNode 1 "b" None] None
  ≠ TreeService.buildHierarchy 2 [mkNode 1 "b" None; mkNode 1 "a" None] None.
Proof. vm_compute. discriminate. Qed.

(** The stack decides whether the walk returns, not what it returns: on a
    list with a repeated id whose second row names the first as its parent
    the object is its own child, and the walk overflows every stack. *)
Example buildHierarchy_overflow (stack : nat) :
  TreeService.buildHierarchy (S stack)
    [mkNode 1 "a" None; mkNode 1 "a" (Some 1)] None
  = None.
Proof.
  rewrite buildHierarchy_unfold_S.
  change (TreeService.sortChildrenRecursively (S stack)
            {[ 1 := TreeService.mkTreeObj "a" [1] ]} [1] = None).
  induction stack as [|k IH]; [done|].
  change (TreeService.sortChildrenRecursively (S (S k))
            {[ 1 := TreeService.mkTreeObj "a" [1] ]} [1])
    with (t ← (kids ← TreeService.sortChildrenRecursively (S k)
                         {[ 1 := TreeService.mkTreeObj "a" [1] ]} [1];
               Some (mkTreeNode 1 "a" kids));
          Some [t]).
  by rewrite IH.
Qed.

Lemma buildHierarchy_perm_rel (stack : nat) (ns ns' : list Node)
    (r : option Z) :
  NoDup (id <$> ns) →
  ns ≡ₚ ns' →
  option_Forall2 (≡ₚ)
    (TreeService.buildHierarchy stack ns r)
    (TreeService.buildHierarchy stack ns' r)
  ∧ (rootsOf r ns = rootsOf r ns' →
     TreeService.buildHierarchy stack ns r
     = TreeService.buildHierarchy stack ns' r).
Proof.
  intros Hnd Hperm. destruct (decide (ns = [])) as [->|Hne].
  { apply Permutation_nil_l in Hperm as <-. split; [by constructor|done]. }
  assert (ns' ≠ []) as Hne'.
  { intros ->. by apply Permutation_nil_r in Hperm. }
  rewrite !buildHierarchy_unfold, !attach_trees by done.
  cbn [app].
  set (M := (foldl (TreeService.attach r) (TreeService.initNodeMap ns, []) ns).1).
  set (M' := (foldl (TreeService.attach r) (TreeService.initNodeMap ns', []) ns').1).
  assert (∀ fuel ids,
            TreeService.sortChildrenRecursively fuel M ids
            = TreeService.sortChildrenRecursively fuel M' ids) as Heq.
  { apply sortChildrenRecursively_equiv. intros i. unfold M, M'.
    rewrite !buildHierarchy_heap.
    rewrite <- (labelOf_permutation ns ns' i Hnd Hperm).
    destruct (labelOf ns i); constructor. simpl.
    split; [done|]. by apply kidsOf_permutation. }
  split.
  - rewrite Heq.
    assert (rootsOf r ns ≡ₚ rootsOf r ns') as HT
      by (unfold rootsOf; by rewrite Hperm).
    destruct stack as [|f]; [constructor|].
    rewrite !sortChildrenRecursively_S. by apply mapM_permutation.
  - intros ->. apply Heq.
Qed.

(** The forest returned has the roots in input order and every [children]
    array ascending by id. *)
Lemma buildHierarchy_sorted stack ns r forest :
  TreeService.buildHierarchy stack ns r = Some forest →
  tid <$> forest = rootsOf r ns ∧ Forall children_sorted forest.
Proof.
  destruct (decide (ns = [])) as [->|Hne].
  - intros [= <-]. split; [done|constructor].
  - rewrite buildHierarchy_unfold, attach_trees by done. cbn [app].
    apply sortChildrenRecursively_sorted.
Qed.

(** C4, amended.  For a node list with pairwise distinct ids and any
    permutation of it, on a call stack that holds as many nested calls as
    the list has nodes, [buildHierarchy] returns on both, and the two
    forests hold the same trees, the roots in the order they have in the
    respective inputs ([rootsOf]): the forests are permutations of each
    other, and equal when the roots come in the same order in both inputs.
    In both forests every children array, at every level, is ascending by
    id. *)
Theorem buildHierarchy_permutation (stack : nat) (ns ns' : list Node)
    (r : option Z) :
  NoDup (id <$> ns) →
  ns ≡ₚ ns' →
  (length ns ≤ stack)%nat →
  ∃ forest forest',
    TreeService.buildHierarchy stack ns r = Some forest
    ∧ TreeService.buildHierarchy stack ns' r = Some forest'
    ∧ tid <$> forest = rootsOf r ns
    ∧ tid <$> forest' = rootsOf r ns'
    ∧ forest ≡ₚ forest'
    ∧ (rootsOf r ns = rootsOf r ns' → forest = forest')
    ∧ Forall children_sorted forest
    ∧ Forall children_sorted forest'.
Proof.
  intros Hnd Hperm Hstack.
  destruct (buildHierarchy_perm_rel stack ns ns' r Hnd Hperm) as [Hrel Heq].
  destruct (buildHierarchy_returns stack ns r Hnd Hstack) as [forest Hf].
  rewrite Hf in Hrel, Heq.
  destruct (TreeService.buildHierarchy stack ns' r) as [forest'|] eqn:Hf';
    [|by inversion Hrel].
  assert (forest ≡ₚ forest') as Hp by by inversion Hrel.
  destruct (buildHierarchy_sorted _ _ _ _ Hf) as [Hroots Hsorted].
  destruct (buildHierarchy_sorted _ _ _ _ Hf') as [Hroots' Hsorted'].
  exists forest, forest'. repeat (split; [done|]). split; [|done].
  intros Hsame. specialize (Heq Hsame). congruence.
Qed.

Lemma buildHierarchy_permutation_witness :
  ∃ forest,
    TreeService.buildHierarchy 3
      [mkNode 1 "a" None; mkNode 3 "c" (Some 1); mkNode 2 "b" (Some 1)] None
    = Some forest
    ∧ TreeService.buildHierarchy 3
        [mkNode 2 "b" (Some 1); mkNode 1 "a" None; mkNode 3 "c" (Some 1)] None
      = Some forest
    ∧ tid <$> forest = [1]
    ∧ Forall children_sorted forest.
Proof.
  destruct (buildHierarchy_permutation 3
              [mkNode 1 "a" None; mkNode 3 "c" (Some 1); mkNode 2 "b" (Some 1)]
              [mkNode 2 "b" (Some 1); mkNode 1 "a" None; mkNode 3 "c" (Some 1)]
              None)
    as (forest & forest' & Hf & Hf' & Hroots & _ & _ & Heq & Hsorted & _).
  - apply (bool_decide_unpack _). by vm_compute.
  - etrans; [apply perm_skip, perm_swap|]. apply perm_swap.
  - simpl. lia.
  - pose proof (Heq eq_refl) as <-. exists forest.
    split; [exact Hf|]. split; [exact Hf'|]. split; [exact Hroots|].
    exact Hsorted.
Defined.

(** ** Counting the nodes of the forest *)

Section Sums.
Local Open Scope nat_scope.
Context {A B : Type}.
Implicit Types (l : list A) (k : list B).

Lemma sum_list_with_ext_in (f g : A → nat) l :
  (∀ x, x ∈ l → f x = g x) → sum_list_with f l = sum_list_with g l.
Proof.
  induction l as [|x l IH]; intros Hfg; [done|]. simpl.
  rewrite Hfg by left. rewrite IH; [done|]. intros y Hy. apply Hfg. by right.
Qed.

Lemma sum_list_with_zero l : sum_list_with (λ _ : A, 0) l = 0.
Proof. induction l; simpl; lia. Qed.

Lemma sum_list_with_one l : sum_list_with (λ _ : A, 1) l = length l.
Proof. induction l; simpl; lia. Qed.

Lemma sum_list_with_add (f g : A → nat) l :
  sum_list_with (λ x, f x + g x) l = sum_list_with f l + sum_list_with g l.
Proof. induction l; simpl; lia. Qed.

Lemma sum_list_with_fmap (f : B → nat) (g : A → B) l :
  sum_list_with f (g <$> l) = sum_list_with (λ x, f (g x)) l.
Proof. induction l as [|x l IH]; [done|]. csimpl. by rewrite IH. Qed.

Lemma sum_list_fmap_with (f : A → nat) l :
  sum_list (f <$> l) = sum_list_with f l.
Proof. induction l as [|x l IH]; [done|]. csimpl. by rewrite IH. Qed.

Lemma sum_list_with_filter (P : A → Prop) `{!∀ x, Decision (P x)}
    (f : A → nat) l :
  sum_list_with f (filter P l)
  = sum_list_with (λ x, if decide (P x) then f x else 0) l.
Proof.
  induction l as [|x l IH]; [done|]. rewrite filter_cons. simpl.
  destruct (decide (P x)); simpl; by rewrite IH.
Qed.

Lemma sum_list_with_guard (b : bool) (f : A → nat) l :
  (if b then sum_list_with f l else 0)
  = sum_list_with (λ x, if b then f x else 0) l.
Proof. destruct b; [done|]. by rewrite sum_list_with_zero. Qed.

Lemma sum_list_with_swap (h : A → B → nat) l k :
  sum_list_with (λ x, sum_list_with (λ y, h x y) k) l
  = sum_list_with (λ y, sum_list_with (λ x, h x y) l) k.
Proof.
  induction l as [|x l IH]; simpl.
  - induction k; simpl; lia.
  - rewrite IH. clear IH. induction k; simpl; lia.
Qed.

End Sums.

(** In a list without repeated ids, a sum that keeps the node of one id
    keeps one term. *)
Lemma sum_list_with_unique (ns : list Node) (n0 : Node) (v : nat) :
  NoDup (id <$> ns) → n0 ∈ ns →
  sum_list_with (λ n, if decide (id n = id n0) then v else 0%nat) ns = v.
Proof.
  induction ns as [|n ns IH]; intros Hnd Hin; [by apply elem_of_nil in Hin|].
  rewrite fmap_cons in Hnd. apply NoDup_cons in Hnd as [Hfresh Hnd].
  simpl. apply elem_of_cons in Hin as [->|Hin].
  - rewrite decide_True by done.
    rewrite (sum_list_with_ext_in _ (λ _, 0%nat)).
    + rewrite sum_list_with_zero. lia.
    + intros x Hx. rewrite decide_False; [done|].
      intros Heq. apply Hfresh. rewrite <- Heq. by apply list_elem_of_fmap_2.
  - rewrite decide_False.
    + by rewrite IH.
    + intros Heq. apply Hfresh. rewrite Heq. by apply list_elem_of_fmap_2.
Qed.

Section Count.
Local Open Scope nat_scope.
Context (ns : list Node).
Context (Hnd : NoDup (id <$> ns)) (Hacyc : acyclic ns)
        (Hpp : parents_present ns).

Local Abbreviation dep := (depthOf ns (length ns)).

Lemma depthOf_stable f seen i :
  up_inv ns seen i → length ns ≤ f + length seen →
  depthOf ns (S f) i = depthOf ns f i.
Proof.
  revert seen i. induction f as [|f IH]; intros seen i Hinv Hlen.
  - simpl. destruct (head _) as [n|] eqn:Hn; [|done]. exfalso.
    apply head_Some_elem_of, list_elem_of_filter in Hn as [<- Hin].
    pose proof (up_inv_length ns Hacyc seen (id n) Hinv
                  (list_elem_of_fmap_2 id _ _ Hin)). lia.
  - change (depthOf ns (S (S f)) i)
      with (match head (filter (λ n, id n = i) ns) with
            | Some n => match parent_id n with
                        | Some p => S (depthOf ns (S f) p)
                        | None => 0
                        end
            | None => 0
            end).
    cbn [depthOf].
    destruct (head _) as [n|] eqn:Hn; [|done].
    destruct (parent_id n) as [p|] eqn:Hp; [|done].
    apply head_Some_elem_of, list_elem_of_filter in Hn as [<- Hin].
    f_equal. apply (IH (id n :: seen)); [|simpl; lia].
    apply up_inv_step; [done..|by apply list_elem_of_fmap_2|by exists n].
Qed.

Lemma depthOf_bound f seen i :
  up_inv ns seen i → i ∈ id <$> ns →
  depthOf ns f i + length seen < length ns.
Proof.
  revert seen i. induction f as [|f IH]; intros seen i Hinv Hi.
  - simpl. by apply (up_inv_length ns Hacyc seen i).
  - pose proof (up_inv_length ns Hacyc seen i Hinv Hi) as Hseen.
    apply list_elem_of_fmap in Hi as (n & -> & Hin).
    cbn [depthOf]. rewrite (head_filter_NoDup ns n Hnd Hin).
    destruct (parent_id n) as [p|] eqn:Hp; [|simpl; lia].
    specialize (IH (id n :: seen) p). simpl in IH |- *.
    cut (depthOf ns f p + S (length seen) < length ns); [lia|].
    apply IH; [|by eapply Hpp].
    apply up_inv_step; [done..|by apply list_elem_of_fmap_2|by exists n].
Qed.

Lemma dep_root n : n ∈ ns → parent_id n = None → dep (id n) = 0.
Proof.
  intros Hin Hp. destruct (length ns); [done|].
  cbn [depthOf]. by rewrite (head_filter_NoDup ns n Hnd Hin), Hp.
Qed.

Lemma dep_child n p :
  n ∈ ns → parent_id n = Some p → dep (id n) = S (dep p).
Proof.
  intros Hin Hp.
  destruct (length ns) as [|N] eqn:HN.
  { apply nil_length_inv in HN. subst. by apply elem_of_nil in Hin. }
  rewrite (depthOf_stable N [id n] p).
  - cbn [depthOf]. by rewrite (head_filter_NoDup ns n Hnd Hin), Hp.
  - apply (up_inv_step ns Hacyc [] (id n) p).
    + apply up_inv_nil.
    + by apply list_elem_of_fmap_2.
    + by exists n.
  - simpl. lia.
Qed.

Lemma dep_bound n : n ∈ ns → dep (id n) < length ns.
Proof.
  intros Hin. pose proof (depthOf_bound (length ns) [] (id n)) as H.
  simpl in H.
  cut (depthOf ns (length ns) (id n) + 0 < length ns); [lia|].
  apply H; [apply up_inv_nil|by apply list_elem_of_fmap_2].
Qed.

(** The children of the nodes of level [j] are the nodes of level
    [S j]. *)
Lemma level_shift (g : Z → nat) (j : nat) :
  sum_list_with
    (λ n, if decide (dep (id n) = j)
          then sum_list_with g (kidsOf None ns (id n)) else 0) ns
  = sum_list_with
      (λ c, if decide (dep (id c) = S j) then g (id c) else 0) ns.
Proof.
  rewrite (sum_list_with_ext_in _
             (λ n, sum_list_with
                     (λ c, if decide (dep (id n) = j)
                           then (if decide (parent_id c ≠ None
                                            ∧ parent_id c = Some (id n))
                                 then g (id c) else 0)
                           else 0) ns)).
  2:{ intros n _. unfold kidsOf.
      rewrite sum_list_with_fmap, sum_list_with_filter.
      destruct (decide (dep (id n) = j)); [|by rewrite sum_list_with_zero].
      apply sum_list_with_ext_in. intros x _.
      repeat case_decide; first [done | tauto]. }
  rewrite sum_list_with_swap. apply sum_list_with_ext_in. intros c Hc.
  destruct (parent_id c) as [p|] eqn:Hp.
  - destruct (proj1 (list_elem_of_fmap _ _ _) (Hpp c p Hc Hp))
      as (n0 & -> & Hn0).
    rewrite (sum_list_with_ext_in _
               (λ n, if decide (id n = id n0)
                     then (if decide (dep (id n0) = j) then g (id c) else 0)
                     else 0)).
    + rewrite (sum_list_with_unique ns n0 _ Hnd Hn0).
      rewrite (dep_child c (id n0) Hc Hp).
      destruct (decide (dep (id n0) = j)).
      * by rewrite decide_True by lia.
      * by rewrite decide_False by lia.
    + intros n Hn. destruct (decide (id n = id n0)) as [Heq|Hne].
      * rewrite Heq. destruct (decide (dep (id n0) = j)); [|done].
        by rewrite decide_True.
      * destruct (decide (dep (id n) = j)); [|done].
        rewrite decide_False; [done|]. intros [_ [= ?]]. congruence.
  - rewrite (dep_root c Hc Hp). rewrite decide_False by lia.
    rewrite (sum_list_with_ext_in _ (λ _, 0)).
    + apply sum_list_with_zero.
    + intros n _. destruct (decide (dep (id n) = j)); [|done].
      by rewrite decide_False by (by intros [? _]).
Qed.

(** The trees read below the nodes of level [j], cut [k] levels down, hold
    the nodes of levels [j] to [j + k - 1]. *)
Lemma csize_levels (k j : nat) :
  sum_list_with
    (λ n, if decide (dep (id n) = j) then csize ns k (id n) else 0) ns
  = sum_list_with
      (λ n, if decide (j ≤ dep (id n) < j + k) then 1 else 0) ns.
Proof.
  revert j. induction k as [|k IH]; intros j.
  - apply sum_list_with_ext_in. intros n _.
    rewrite (decide_False (P := j ≤ dep (id n) < j + 0)) by lia.
    by destruct (decide _).
  - rewrite (sum_list_with_ext_in _
               (λ n, (if decide (dep (id n) = j) then 1 else 0)
                     + (if decide (dep (id n) = j)
                        then sum_list_with (csize ns k) (kidsOf None ns (id n))
                        else 0))).
    2:{ intros n _. cbn [csize]. by destruct (decide _). }
    rewrite sum_list_with_add, level_shift, IH, <- sum_list_with_add.
    apply sum_list_with_ext_in. intros n _.
    destruct (decide (dep (id n) = j)), (decide (S j ≤ dep (id n) < S j + k)),
      (decide (j ≤ dep (id n) < j + S k)); lia.
Qed.

(** The trees of the roots, cut [length ns] levels down, hold every
    node. *)
Lemma csize_roots :
  sum_list_with (csize ns (length ns)) (rootsOf None ns) = length ns.
Proof.
  unfold rootsOf. rewrite sum_list_with_fmap, sum_list_with_filter.
  rewrite (sum_list_with_ext_in _
             (λ n, if decide (dep (id n) = 0)
                   then csize ns (length ns) (id n) else 0)).
  2:{ intros n Hn. destruct (parent_id n) as [p|] eqn:Hp.
      - rewrite decide_False by done.
        by rewrite (dep_child n p Hn Hp), decide_False by lia.
      - rewrite decide_True by done.
        by rewrite (dep_root n Hn Hp), decide_True by lia. }
  rewrite csize_levels.
  transitivity (sum_list_with (λ _ : Node, 1) ns);
    [|apply sum_list_with_one].
  apply sum_list_with_ext_in. intros n Hn.
  pose proof (dep_bound n Hn). by rewrite decide_True by lia.
Qed.

End Count.

Section Forest.
Local Open Scope nat_scope.
Context (ns : list Node) (M : gmap Z TreeService.TreeObj).
Context (HM : ∀ i, M !! i
                   = (λ l, TreeService.mkTreeObj l (kidsOf None ns i))
                       <$> labelOf ns i).

(** A forest that has been read holds as many nodes as [csize] says. *)
Lemma sortChildrenRecursively_count fuel ids forest :
  TreeService.sortChildrenRecursively fuel M ids = Some forest →
  sum_list_with TreeService.countNodesInTree forest
  = sum_list_with (csize ns fuel) ids.
Proof.
  revert ids forest. induction fuel as [|f IH]; intros ids forest H; [done|].
  rewrite sortChildrenRecursively_S in H.
  apply mapM_Some in H. induction H as [|i t ids forest Ht _ IHf]; [done|].
  rewrite HM in Ht. destruct (labelOf ns i) as [l|]; [|done].
  cbn [fmap option_fmap option_map mbind option_bind
       TreeService.o_children TreeService.o_label] in Ht.
  cbn [sum_list_with csize]. rewrite IHf. f_equal.
  destruct (kidsOf None ns i) as [|c cs]; [by injection Ht as <-|].
  destruct (TreeService.sortChildrenRecursively f M _) as [kids|] eqn:Hk;
    [|done].
  cbn [mbind option_bind] in Ht. injection Ht as <-.
  apply IH in Hk. rewrite merge_sort_Permutation in Hk.
  cbn [TreeService.countNodesInTree children].
  by rewrite sum_list_fmap_with, Hk.
Qed.

End Forest.

(** On a list without repeated ids and without parent cycle in which every
    parent is present, the walk returns the roots in input order, and the
    trees below them hold every node. *)
Lemma buildHierarchy_counted (stack : nat) (ns : list Node) :
  NoDup (id <$> ns) →
  acyclic ns →
  parents_present ns →
  (length ns ≤ stack)%nat →
  ∃ forest,
    TreeService.buildHierarchy stack ns None = Some forest
    ∧ sum_list_with TreeService.countNodesInTree forest = length ns
    ∧ tid <$> forest = rootsOf None ns.
Proof.
  intros Hnd Hacyc Hpp Hstack.
  destruct (decide (ns = [])) as [->|Hne]; [by exists []|].
  destruct (buildHierarchy_returns (length ns) ns None Hnd)
    as [forest Hforest]; [done|].
  rewrite buildHierarchy_unfold, attach_trees in Hforest |- * by done.
  cbn [app] in Hforest |- *.
  exists forest. split; [|split].
  - by apply (sortChildrenRecursively_mono (length ns)).
  - rewrite (sortChildrenRecursively_count ns _ (buildHierarchy_heap None ns)
               _ _ _ Hforest).
    by apply csize_roots.
  - by apply sortChildrenRecursively_sorted in Hforest as [? _].
Qed.

(** C5 as stated fails on a parent cycle: both parents are in the list and
    no node reaches the forest. *)
Lemma buildHierarchy_count_counterexample :
  parents_present [mkNode 1 "a" (Some 2); mkNode 2 "b" (Some 1)]
  ∧ TreeService.buildHierarchy 2
      [mkNode 1 "a" (Some 2); mkNode 2 "b" (Some 1)] None
    = Some []
  ∧ sum_list_with TreeService.countNodesInTree [] = 0%nat
  ∧ length [mkNode 1 "a" (Some 2); mkNode 2 "b" (Some 1)] = 2%nat.
Proof.
  split; [|by vm_compute].
  intros n p Hn Hp.
  each_elem Hn ltac:(simpl in Hp; simplify_eq;
                     apply (bool_decide_unpack _); by vm_compute).
Qed.

(** With a repeated id an object is pushed on [trees] twice, and counted
    with its children twice. *)
Example buildHierarchy_count_duplicate_id :
  sum_list_with TreeService.countNodesInTree
    <$> TreeService.buildHierarchy 3
          [mkNode 1 "a" None; mkNode 1 "a" None; mkNode 2 "b" (Some 1)] None
  = Some 4%nat.
Proof. by vm_compute. Qed.

(** C5, amended.  For a node list with pairwise distinct ids and no parent
    cycle in which every non-null [parent_id] is the id of a node of the
    list, on a call stack that holds as many nested calls as the list has
    nodes, [buildHierarchy(nodes, null)] returns a forest, and the trees of
    the forest, counted by [countNodesInTree], hold as many nodes as the
    list has. *)
Theorem buildHierarchy_count (stack : nat) (ns : list Node) :
  NoDup (id <$> ns) →
  acyclic ns →
  parents_present ns →
  (length ns ≤ stack)%nat →
  ∃ forest,
    TreeService.buildHierarchy stack ns None = Some forest
    ∧ sum_list_with TreeService.countNodesInTree forest = length ns.
Proof.
  intros Hnd Hacyc Hpp Hstack.
  destruct (buildHierarchy_counted stack ns Hnd Hacyc Hpp Hstack)
    as (forest & Hforest & Hcount & _).
  by exists forest.
Qed.

Lemma forest4_NoDup : NoDup (id <$> rows forest4).
Proof. apply (bool_decide_unpack _). by vm_compute. Qed.

Lemma forest4_parents_present : parents_present (rows forest4).
Proof.
  intros n p Hn Hp. vm_compute in Hn.
  each_elem Hn ltac:(simpl in Hp; simplify_eq;
                     apply (bool_decide_unpack _); by vm_compute).
Qed.

Lemma buildHierarchy_count_witness :
  ∃ forest,
    TreeService.buildHierarchy 4 (rows forest4) None = Some forest
    ∧ sum_list_with TreeService.countNodesInTree forest
      = length (rows forest4).
Proof.
  apply (buildHierarchy_count 4 (rows forest4)).
  - exact forest4_NoDup.
  - exact (acyclic_of_decreasing _ forest4_decreasing).
  - exact forest4_parents_present.
  - vm_compute. lia.
Defined.

(** * Further properties of the engine *)

(** ** Descendants *)

(** More turns do not change what a walk has returned. *)
Lemma descend_mono (recur recur' : Z → option (list Node)) cs ds :
  (∀ c r, recur c = Some r → recur' c = Some r) →
  TreeQueries.descend recur cs = Some ds →
  TreeQueries.descend recur' cs = Some ds.
Proof.
  intros Hrec. revert ds. induction cs as [|c cs IH]; intros ds Hds; [done|].
  simpl in Hds |- *. destruct (recur c.(id)) as [cd|] eqn:Hcd; [|done].
  rewrite (Hrec _ _ Hcd). simpl in Hds |- *.
  destruct (TreeQueries.descend recur cs) as [more|]; [|done].
  by rewrite (IH more).
Qed.

Lemma getAllDescendants_mono fuel fuel' s i ds :
  TreeQueries.getAllDescendants fuel s i = Some ds → (fuel ≤ fuel')%nat →
  TreeQueries.getAllDescendants fuel' s i = Some ds.
Proof.
  revert fuel' i ds. induction fuel as [|f IH]; intros fuel' i ds Hds Hle;
    [done|].
  destruct fuel' as [|f']; [lia|]. simpl in Hds |- *.
  eapply descend_mono; [|exact Hds]. intros c r Hr. apply IH; [done|lia].
Qed.

(** What the loop over the children returns: each child, followed by what
    the recursive call returned for it. *)
Lemma elem_of_descend recur cs ds d :
  TreeQueries.descend recur cs = Some ds →
  d ∈ ds ↔ d ∈ cs ∨ ∃ c r, c ∈ cs ∧ recur (id c) = Some r ∧ d ∈ r.
Proof.
  revert ds. induction cs as [|c cs IH]; intros ds Hds.
  - simplify_eq/=. split; [by intros ?%elem_of_nil|].
    intros [?%elem_of_nil|(c & r & ?%elem_of_nil & _)]; done.
  - simpl in Hds. destruct (recur (id c)) as [cd|] eqn:Hcd; [|done].
    simpl in Hds.
    destruct (TreeQueries.descend recur cs) as [more|]; [|done].
    simplify_eq/=. rewrite elem_of_cons, elem_of_app, (IH more eq_refl).
    split.
    + intros [->|[Hd|[Hd|(c' & r & Hc' & Hr & Hd)]]].
      * left. by left.
      * right. exists c, cd. split; [by left|done].
      * left. by right.
      * right. exists c', r. split; [by right|done].
    + intros [[->|Hd]%elem_of_cons|(c' & r & [->|Hc']%elem_of_cons & Hr & Hd)].
      * by left.
      * right. right. by left.
      * right. left. congruence.
      * right. right. right. eauto.
Qed.

Lemma elem_of_getAllDescendants_S fuel s i ds d :
  TreeQueries.getAllDescendants (S fuel) s i = Some ds →
  d ∈ ds
  ↔ (d ∈ rows s ∧ parent_id d = Some i)
    ∨ ∃ c r, c ∈ rows s ∧ parent_id c = Some i
             ∧ TreeQueries.getAllDescendants fuel s (id c) = Some r ∧ d ∈ r.
Proof.
  intros Hds. simpl in Hds. rewrite (elem_of_descend _ _ _ _ Hds).
  rewrite elem_of_getChildrenByParentId. apply or_iff_compat_l. split.
  - intros (c & r & Hc%elem_of_getChildrenByParentId & Hr).
    exists c, r. tauto.
  - intros (c & r & Hc & Hp & Hr). exists c, r.
    split; [by apply elem_of_getChildrenByParentId|done].
Qed.

(** Every node returned is a row whose chain of parents reaches [i]. *)
Lemma getAllDescendants_sound fuel s i ds d :
  TreeQueries.getAllDescendants fuel s i = Some ds → d ∈ ds →
  d ∈ rows s ∧ tc (parent_step (rows s)) (id d) i.
Proof.
  revert i ds d. induction fuel as [|f IH]; intros i ds d Hds Hd; [done|].
  apply (elem_of_getAllDescendants_S _ _ _ _ _ Hds) in Hd
    as [[Hd Hp]|(c & r & Hc & Hp & Hr & Hd)].
  - split; [done|]. apply tc_once. by exists d.
  - destruct (IH _ _ _ Hr Hd) as [Hrow Htc]. split; [done|].
    eapply tc_r; [done|]. by exists c.
Qed.

(** The result holds the children of [i] and, with a node, its children. *)
Lemma getAllDescendants_children fuel s i ds c :
  TreeQueries.getAllDescendants fuel s i = Some ds →
  c ∈ rows s → parent_id c = Some i → c ∈ ds.
Proof.
  intros Hds Hc Hp. destruct fuel as [|f]; [done|].
  apply (elem_of_getAllDescendants_S _ _ _ _ _ Hds). by left.
Qed.

Lemma getAllDescendants_closed fuel s i ds d c :
  TreeQueries.getAllDescendants fuel s i = Some ds →
  d ∈ ds → c ∈ rows s → parent_id c = Some (id d) → c ∈ ds.
Proof.
  revert i ds d c. induction fuel as [|f IH]; intros i ds d c Hds Hd Hc Hp;
    [done|].
  pose proof Hds as Hds'. simpl in Hds'.
  apply (elem_of_getAllDescendants_S _ _ _ _ _ Hds).
  apply (elem_of_getAllDescendants_S _ _ _ _ _ Hds) in Hd
    as [[Hd Hdp]|(c' & r & Hc' & Hp' & Hr & Hd)].
  - right.
    assert (d ∈ TreeQueries.getChildrenByParentId s i) as Hchild
      by by apply elem_of_getChildrenByParentId.
    destruct (TreeQueries.getAllDescendants f s (id d)) as [r|] eqn:Hr.
    + exists d, r. repeat split; [done..|].
      by eapply getAllDescendants_children.
    + exfalso. clear -Hds' Hchild Hr.
      revert ds Hds'. generalize (TreeQueries.getChildrenByParentId s i) as cs,
        Hchild.
      induction cs as [|x cs IHcs]; intros Hin ds Hds;
        [by apply elem_of_nil in Hin|].
      apply elem_of_cons in Hin as [->|Hin]; simpl in Hds.
      * by rewrite Hr in Hds.
      * destruct (TreeQueries.getAllDescendants f s (id x)); [|done].
        simpl in Hds.
        destruct (TreeQueries.descend _ cs) as [more|] eqn:Hmore; [|done].
        by eapply IHcs.
  - right. exists c', r. repeat split; [done..|]. by eapply IH.
Qed.

(** With unique ids, every row whose chain of parents reaches [i] is
    returned. *)
Lemma getAllDescendants_complete fuel s i ds d :
  NoDup (id <$> rows s) →
  TreeQueries.getAllDescendants fuel s i = Some ds →
  d ∈ rows s → tc (parent_step (rows s)) (id d) i → d ∈ ds.
Proof.
  intros Hnd Hds Hd Htc. remember (id d) as x eqn:Hx.
  revert d Hd Hx. induction Htc as [x i (n & Hn & Hid & Hp)|x y i (n & Hn & Hid & Hp) Htc IH];
    intros d Hd ->.
  - assert (n = d) as -> by by apply (node_unique (rows s)).
    by eapply getAllDescendants_children.
  - assert (n = d) as -> by by apply (node_unique (rows s)).
    assert (∃ m, m ∈ rows s ∧ id m = y) as (m & Hm & <-).
    { inversion Htc as [?? (m & ? & ? & ?)|??? (m & ? & ? & ?)]; eauto. }
    eapply getAllDescendants_closed; [done| |done..].
    by apply IH.
Qed.

(** With unique ids a node has one parent, so its ancestors are in line. *)
Section Line.
Context (ns : list Node) (Hnd : NoDup (id <$> ns)).

Lemma parent_step_unique x a b :
  parent_step ns x a → parent_step ns x b → a = b.
Proof.
  intros (n & Hn & Hid & Hp) (m & Hm & Hid' & Hp').
  assert (n = m) as -> by (apply (node_unique ns); congruence).
  congruence.
Qed.

Lemma tc_after_step x p y :
  parent_step ns x p → tc (parent_step ns) x y →
  y = p ∨ tc (parent_step ns) p y.
Proof.
  intros Hstep Htc. inversion Htc as [?? Hs|?? z Hs Hrest]; subst.
  - left. by eapply parent_step_unique.
  - right. by rewrite (parent_step_unique _ _ _ Hstep Hs).
Qed.

Lemma ancestors_in_line x a b :
  tc (parent_step ns) x a → tc (parent_step ns) x b →
  a = b ∨ tc (parent_step ns) a b ∨ tc (parent_step ns) b a.
Proof.
  intros Ha. revert b. induction Ha as [x a Hs|x y a Hs Ha IH]; intros b Hb.
  - destruct (tc_after_step _ _ _ Hs Hb) as [->|?]; auto.
  - destruct (tc_after_step _ _ _ Hs Hb) as [->|Hyb]; auto.
Qed.

Context (Hacyc : acyclic ns).

Lemma siblings_unrelated a b i :
  parent_step ns a i → parent_step ns b i → ¬ tc (parent_step ns) a b.
Proof.
  intros Ha Hb Htc. apply (Hacyc b).
  destruct (tc_after_step _ _ _ Ha Htc) as [->|Hib].
  - by apply tc_once.
  - eapply tc_l; eauto.
Qed.

End Line.

Lemma descend_NoDup s i recur cs ds :
  NoDup (id <$> rows s) → acyclic (rows s) →
  (∀ c r d, recur (id c) = Some r → d ∈ r →
            d ∈ rows s ∧ tc (parent_step (rows s)) (id d) (id c)) →
  (∀ c r, recur (id c) = Some r → NoDup r) →
  NoDup cs → (∀ c, c ∈ cs → c ∈ rows s ∧ parent_id c = Some i) →
  TreeQueries.descend recur cs = Some ds → NoDup ds.
Proof.
  intros Hnd Hacyc Hsound Hrec. revert ds.
  induction cs as [|c cs IH]; intros ds Hcs Hch Hds; [simplify_eq/=; constructor|].
  pose proof (elem_of_descend recur cs) as Hmore.
  simpl in Hds. destruct (recur (id c)) as [cd|] eqn:Hcd; [|done].
  simpl in Hds.
  destruct (TreeQueries.descend recur cs) as [more|] eqn:Hm; [|done].
  simplify_eq/=. apply NoDup_cons in Hcs as [Hfresh Hcs].
  destruct (Hch c) as [Hc Hcp]; [by left|].
  assert (parent_step (rows s) (id c) i) as Hstep by (exists c; auto).
  assert (∀ c', c' ∈ cs → parent_step (rows s) (id c') i ∧ id c' ≠ id c)
    as Hsib.
  { intros c' Hc'. destruct (Hch c') as [Hr Hp]; [by right|].
    split; [by exists c'|]. intros Heq. apply Hfresh.
    by rewrite <- (node_unique (rows s) c' c Hnd Hr Hc Heq). }
  assert (∀ d, d ∈ more →
            ∃ c', c' ∈ cs
                  ∧ (d = c' ∨ (d ∈ rows s
                               ∧ tc (parent_step (rows s)) (id d) (id c'))))
    as Hin_more.
  { intros d [Hd|(c' & r & Hc' & Hr & Hd)]%(Hmore more d eq_refl).
    - exists d. auto.
    - exists c'. split; [done|]. right. by eapply Hsound. }
  constructor; [|apply NoDup_app; split; [by eapply Hrec|split]].
  - intros [Hd|Hd]%elem_of_app.
    + destruct (Hsound _ _ _ Hcd Hd) as [_ Htc]. by apply (Hacyc (id c)).
    + destruct (Hin_more _ Hd) as (c' & Hc' & [->|[_ Htc]]); [done|].
      destruct (Hsib c' Hc') as [Hs' _].
      by apply (siblings_unrelated (rows s) Hnd Hacyc _ _ _ Hstep Hs').
  - intros d Hd Hd'. destruct (Hsound _ _ _ Hcd Hd) as [Hrow Htc].
    destruct (Hin_more _ Hd') as (c' & Hc' & [->|[_ Htc']]);
      destruct (Hsib c' Hc') as [Hs' Hne].
    + by apply (siblings_unrelated (rows s) Hnd Hacyc _ _ _ Hs' Hstep).
    + destruct (ancestors_in_line (rows s) Hnd _ _ _ Htc Htc')
        as [Heq|[H1|H1]]; [congruence| |].
      * by apply (siblings_unrelated (rows s) Hnd Hacyc _ _ _ Hstep Hs').
      * by apply (siblings_unrelated (rows s) Hnd Hacyc _ _ _ Hs' Hstep).
  - apply IH; [done| |done]. intros c' Hc'. apply Hch. by right.
Qed.

Lemma getAllDescendants_NoDup fuel s i ds :
  NoDup (id <$> rows s) → acyclic (rows s) →
  TreeQueries.getAllDescendants fuel s i = Some ds → NoDup ds.
Proof.
  intros Hnd Hacyc. revert i ds.
  induction fuel as [|f IH]; intros i ds Hds; [done|]. simpl in Hds.
  eapply (descend_NoDup s i); [done..| | | | |exact Hds].
  - intros c r d Hr Hd. by eapply getAllDescendants_sound.
  - intros c r. apply IH.
  - unfold TreeQueries.getChildrenByParentId.
    rewrite merge_sort_Permutation. apply NoDup_filter.
    by apply NoDup_fmap_1 in Hnd.
  - intros c. apply elem_of_getChildrenByParentId.
Qed.

(** X1.  In a store with unique ids and no parent cycle,
    [getAllDescendants(nodeId)] returns, as soon as it is given more turns
    than there are rows, each row whose chain of parents reaches [nodeId],
    once, and nothing else. *)
Theorem getAllDescendants_exact (s : Store) (nodeId : Z) (fuel : nat) :
  NoDup (id <$> rows s) →
  acyclic (rows s) →
  (length (rows s) < fuel)%nat →
  ∃ ds,
    TreeQueries.getAllDescendants fuel s nodeId = Some ds
    ∧ NoDup ds
    ∧ ∀ d, d ∈ ds
           ↔ d ∈ rows s ∧ tc (parent_step (rows s)) (id d) nodeId.
Proof.
  intros Hnd Hacyc Hfuel.
  destruct (getAllDescendants_returns s Hacyc fuel nodeId Hfuel) as [ds Hds].
  exists ds. split; [done|]. split; [by eapply getAllDescendants_NoDup|].
  intros d. split.
  - by eapply getAllDescendants_sound.
  - intros [Hd Htc]. by eapply getAllDescendants_complete.
Qed.

Lemma getAllDescendants_exact_witness :
  ∃ ds,
    TreeQueries.getAllDescendants 5 forest4 1 = Some ds
    ∧ NoDup ds
    ∧ ∀ d, d ∈ ds
           ↔ d ∈ rows forest4 ∧ tc (parent_step (rows forest4)) (id d) 1.
Proof.
  apply (getAllDescendants_exact forest4 1 5).
  - exact forest4_NoDup.
  - exact (acyclic_of_decreasing _ forest4_decreasing).
  - vm_compute. lia.
Defined.

Lemma descend_length recur cs ds c r :
  TreeQueries.descend recur cs = Some ds → c ∈ cs →
  recur (id c) = Some r → (S (length r) ≤ length ds)%nat.
Proof.
  revert ds. induction cs as [|c' cs IH]; intros ds Hds Hc Hr;
    [by apply elem_of_nil in Hc|].
  simpl in Hds. destruct (recur (id c')) as [cd|] eqn:Hcd; [|done].
  simpl in Hds.
  destruct (TreeQueries.descend recur cs) as [more|]; [|done].
  simplify_eq/=. rewrite length_app.
  apply elem_of_cons in Hc as [->|Hc].
  - assert (cd = r) as -> by congruence. lia.
  - specialize (IH more eq_refl Hc Hr). lia.
Qed.

(** X2.  In a store without parent cycle, the subtree of a strict ancestor
    is larger than the subtree of its descendant: if the chain of parents
    of [b] reaches [a], [getSubtreeSize(a)] is at least
    [getSubtreeSize(b) + 1]. *)
Theorem getSubtreeSize_ancestor (s : Store) (a b : Z) (fuel : nat) :
  acyclic (rows s) →
  tc (parent_step (rows s)) b a →
  (length (rows s) < fuel)%nat →
  ∃ sa sb,
    TreeQueries.getSubtreeSize fuel s a = Some sa
    ∧ TreeQueries.getSubtreeSize fuel s b = Some sb
    ∧ (sb + 1 ≤ sa)%nat.
Proof.
  intros Hacyc Htc Hfuel.
  assert (∀ x, ∃ dx, TreeQueries.getAllDescendants fuel s x = Some dx
                     ∧ TreeQueries.getAllDescendants (S fuel) s x = Some dx)
    as Hret.
  { intros x.
    destruct (getAllDescendants_returns s Hacyc fuel x Hfuel) as [dx Hdx].
    exists dx. split; [done|].
    apply (getAllDescendants_mono fuel); [done|lia]. }
  assert (∀ x p, parent_step (rows s) x p →
            ∀ dx dp, TreeQueries.getAllDescendants fuel s x = Some dx →
                     TreeQueries.getAllDescendants fuel s p = Some dp →
                     (S (length dx) ≤ length dp)%nat) as Hstep.
  { intros x p (n & Hn & <- & Hp) dx dp Hdx Hdp.
    destruct (Hret p) as (dp' & Hdp1 & Hdp2).
    assert (dp' = dp) as -> by congruence. simpl in Hdp2.
    eapply descend_length; [exact Hdp2| |exact Hdx].
    by apply elem_of_getChildrenByParentId. }
  unfold TreeQueries.getSubtreeSize.
  induction Htc as [b a Hs|b y a Hs Htc IH].
  - destruct (Hret a) as (da & Hda & _), (Hret b) as (db & Hdb & _).
    exists (length da), (length db). rewrite Hda, Hdb.
    split; [done|]. split; [done|].
    pose proof (Hstep _ _ Hs _ _ Hdb Hda). lia.
  - destruct IH as (sa & sy & Ha & Hy & Hle).
    destruct (Hret b) as (db & Hdb & _), (Hret y) as (dy & Hdy & _).
    exists sa, (length db). rewrite Hdb. split; [done|]. split; [done|].
    rewrite Hdy in Hy. injection Hy as <-.
    pose proof (Hstep _ _ Hs _ _ Hdb Hdy). lia.
Qed.

Lemma getSubtreeSize_ancestor_witness :
  ∃ sa sb,
    TreeQueries.getSubtreeSize 5 forest4 1 = Some sa
    ∧ TreeQueries.getSubtreeSize 5 forest4 3 = Some sb
    ∧ (sb + 1 ≤ sa)%nat.
Proof.
  apply (getSubtreeSize_ancestor forest4 1 3 5).
  - exact (acyclic_of_decreasing _ forest4_decreasing).
  - apply (tc_l _ 3 2 1).
    + exists (mkNode 3 "cat" (Some 2)). split; [|done].
      apply (bool_decide_unpack _). by vm_compute.
    + apply tc_once. exists (mkNode 2 "bear" (Some 1)). split; [|done].
      apply (bool_decide_unpack _). by vm_compute.
  - vm_compute. lia.
Defined.

(** ** Deleting a node *)

Lemma length_filter_split {A} (P Q : A → Prop)
    `{!∀ x, Decision (P x), !∀ x, Decision (Q x)} (l : list A) :
  (∀ x, Q x ↔ ¬ P x) →
  (length (filter P l) + length (filter Q l) = length l)%nat.
Proof.
  intros HPQ. induction l as [|x l IH]; [done|].
  rewrite !filter_cons.
  destruct (decide (P x)), (decide (Q x)); simpl; try lia;
    destruct (HPQ x); tauto.
Qed.

Lemma NoDup_ids_filter (P : Node → Prop) `{!∀ x, Decision (P x)}
    (ns : list Node) :
  NoDup (id <$> ns) → NoDup (id <$> filter P ns).
Proof.
  induction ns as [|n ns IH]; [done|]. rewrite fmap_cons.
  intros [Hfresh Hnd]%NoDup_cons. rewrite filter_cons.
  destruct (decide (P n)); [|auto]. rewrite fmap_cons.
  apply NoDup_cons. split; [|auto].
  intros (m & Hid & [_ Hm]%list_elem_of_filter)%list_elem_of_fmap.
  apply Hfresh. rewrite Hid. by apply list_elem_of_fmap_2.
Qed.

Lemma tc_parent_step_filter (P : Node → Prop) `{!∀ x, Decision (P x)}
    (ns : list Node) a b :
  tc (parent_step (filter P ns)) a b → tc (parent_step ns) a b.
Proof.
  induction 1 as [x y (n & [_ Hn]%list_elem_of_filter & Hid & Hp)
                 |x y z (n & [_ Hn]%list_elem_of_filter & Hid & Hp) _ IH].
  - apply tc_once. exists n. by repeat split.
  - eapply tc_l; [|exact IH]. exists n. by repeat split.
Qed.

Lemma acyclic_filter (P : Node → Prop) `{!∀ x, Decision (P x)}
    (ns : list Node) :
  acyclic ns → acyclic (filter P ns).
Proof. intros Hacyc a Ha%tc_parent_step_filter. by apply (Hacyc a). Qed.

(** Which ids [deleteNode] puts in its [IN (...)] list. *)
Lemma deleteNode_ids fuel s i ds n :
  NoDup (id <$> rows s) →
  TreeQueries.getAllDescendants fuel s i = Some ds →
  n ∈ rows s →
  id n ∈ i :: (id <$> ds)
  ↔ id n = i ∨ tc (parent_step (rows s)) (id n) i.
Proof.
  intros Hnd Hds Hn. rewrite elem_of_cons, list_elem_of_fmap.
  apply or_iff_compat_l. split.
  - intros (d & -> & Hd). by eapply getAllDescendants_sound.
  - intros Htc. exists n. split; [done|].
    by eapply getAllDescendants_complete.
Qed.

(** X3.  In a store with unique ids and no parent cycle, [deleteNode(id)]
    removes the node and the rows whose chain of parents reaches it, and
    nothing else: a row stays exactly when it is neither the node nor one of
    its descendants.  The number it returns is the number of rows removed,
    the node can no longer be looked up, and the AUTOINCREMENT mark is
    kept. *)
Theorem deleteNode_removes_subtree (s : Store) (i : Z) (fuel : nat) :
  NoDup (id <$> rows s) →
  acyclic (rows s) →
  (length (rows s) < fuel)%nat →
  ∃ changes s',
    TreeQueries.deleteNode fuel s i = Some (changes, s')
    ∧ (∀ n, n ∈ rows s'
            ↔ n ∈ rows s ∧ id n ≠ i
              ∧ ¬ tc (parent_step (rows s)) (id n) i)
    ∧ (changes + length (rows s') = length (rows s))%nat
    ∧ TreeQueries.getNodeById s' i = None
    ∧ seq s' = seq s.
Proof.
  intros Hnd Hacyc Hfuel.
  destruct (getAllDescendants_returns s Hacyc fuel i Hfuel) as [ds Hds].
  unfold TreeQueries.deleteNode. rewrite Hds. cbn [mbind option_bind].
  eexists _, _. split; [done|]. cbn [rows seq].
  split; [|split; [|split; [|done]]].
  - intros n. rewrite list_elem_of_filter. split.
    + intros [Hout Hn]. split; [done|].
      rewrite (deleteNode_ids fuel s i ds n Hnd Hds Hn) in Hout. tauto.
    + intros (Hn & Hne & Htc). split; [|done].
      rewrite (deleteNode_ids fuel s i ds n Hnd Hds Hn). tauto.
  - by apply length_filter_split.
  - apply getNodeById_None. cbn [rows].
    intros (n & Hid & [Hout _]%list_elem_of_filter)%list_elem_of_fmap.
    apply Hout. rewrite <- Hid. by left.
Qed.

Lemma deleteNode_removes_subtree_witness :
  ∃ changes s',
    TreeQueries.deleteNode 5 forest4 2 = Some (changes, s')
    ∧ (∀ n, n ∈ rows s'
            ↔ n ∈ rows forest4 ∧ id n ≠ 2
              ∧ ¬ tc (parent_step (rows forest4)) (id n) 2)
    ∧ (changes + length (rows s') = length (rows forest4))%nat
    ∧ TreeQueries.getNodeById s' 2 = None
    ∧ seq s' = seq forest4.
Proof.
  apply (deleteNode_removes_subtree forest4 2 5).
  - exact forest4_NoDup.
  - exact (acyclic_of_decreasing _ forest4_decreasing).
  - vm_compute. lia.
Defined.

(** X4.  [deleteNode] keeps a healthy store healthy: after it ids are still
    unique, no row is left with a parent that is gone, and there is still
    no parent cycle. *)
Theorem deleteNode_preserves_forest (s : Store) (i : Z) (fuel : nat) :
  forest_ok (rows s) →
  (length (rows s) < fuel)%nat →
  ∃ changes s',
    TreeQueries.deleteNode fuel s i = Some (changes, s')
    ∧ forest_ok (rows s').
Proof.
  intros (Hnd & Hpp & Hacyc) Hfuel.
  destruct (getAllDescendants_returns s Hacyc fuel i Hfuel) as [ds Hds].
  unfold TreeQueries.deleteNode. rewrite Hds. cbn [mbind option_bind].
  eexists _, _. split; [done|]. cbn [rows].
  split; [by apply NoDup_ids_filter|split; [|by apply acyclic_filter]].
  intros n p [Hout Hn]%list_elem_of_filter Hp.
  destruct (proj1 (list_elem_of_fmap _ _ _) (Hpp n p Hn Hp))
    as (m & -> & Hm).
  apply list_elem_of_fmap_2, list_elem_of_filter. split; [|done].
  intros [Heq|(d & Hid & Hd)%list_elem_of_fmap]%elem_of_cons; apply Hout.
  - right. apply list_elem_of_fmap_2.
    eapply getAllDescendants_children; [done..|by rewrite Hp, Heq].
  - right. apply list_elem_of_fmap_2.
    eapply getAllDescendants_closed; [done..|by rewrite Hp, Hid].
Qed.

Lemma forest4_forest_ok : forest_ok (rows forest4).
Proof.
  split; [exact forest4_NoDup|].
  split; [exact forest4_parents_present|].
  exact (acyclic_of_decreasing _ forest4_decreasing).
Qed.

Lemma deleteNode_preserves_forest_witness :
  ∃ changes s',
    TreeQueries.deleteNode 5 forest4 2 = Some (changes, s')
    ∧ forest_ok (rows s').
Proof.
  apply (deleteNode_preserves_forest forest4 2 5).
  - exact forest4_forest_ok.
  - vm_compute. lia.
Defined.

(** ** Creating a node *)

Lemma nodeExists_iff s i :
  TreeQueries.nodeExists s i = true ↔ i ∈ id <$> rows s.
Proof.
  split; [apply nodeExists_true|]. intros Hin.
  destruct (TreeQueries.nodeExists s i) eqn:Hex; [done|]. exfalso.
  unfold TreeQueries.nodeExists in Hex. apply bool_decide_eq_false in Hex.
  apply (proj1 (getNodeById_None s i)); [|done].
  unfold TreeQueries.getNodeById.
  destruct (filter _ (rows s)); [done|]. simpl in Hex. lia.
Qed.

Lemma nextId_above s n : n ∈ rows s → id n < TreeQueries.nextId s.
Proof.
  intros Hn. unfold TreeQueries.nextId.
  pose proof (foldr_max_upper (Z.max 0 (seq s)) (id <$> rows s) (id n)
                (list_elem_of_fmap_2 id _ _ Hn)). lia.
Qed.

Lemma nextId_above_seq s : seq s < TreeQueries.nextId s.
Proof.
  unfold TreeQueries.nextId.
  pose proof (foldr_max_lower (Z.max 0 (seq s)) (id <$> rows s)). lia.
Qed.

Lemma nextId_positive s : 0 < TreeQueries.nextId s.
Proof.
  unfold TreeQueries.nextId.
  pose proof (foldr_max_lower (Z.max 0 (seq s)) (id <$> rows s)). lia.
Qed.

(** The next rowid is no larger than a bound above the mark and the ids. *)
Lemma nextId_below s b :
  0 < b → seq s < b → (∀ n, n ∈ rows s → id n < b) →
  TreeQueries.nextId s ≤ b.
Proof.
  intros Hb Hseq Hids. unfold TreeQueries.nextId.
  cut (foldr Z.max (Z.max 0 (seq s)) (id <$> rows s) < b); [lia|].
  induction (rows s) as [|n ns IH]; csimpl; [lia|].
  apply Z.max_lub_lt.
  - apply Hids. by left.
  - apply IH. intros m Hm. apply Hids. by right.
Qed.

Lemma nextId_fresh s : TreeQueries.nextId s ∉ id <$> rows s.
Proof.
  intros (n & Hid & Hn%nextId_above)%list_elem_of_fmap. lia.
Qed.

(** Looking a row up after an insert. *)
Lemma getNodeById_insertRow s l parentId j :
  TreeQueries.getNodeById (TreeQueries.insertRow s l parentId).2 j
  = if decide (j = TreeQueries.nextId s)
    then Some (mkNode (TreeQueries.nextId s) l parentId)
    else TreeQueries.getNodeById s j.
Proof.
  unfold TreeQueries.getNodeById, TreeQueries.insertRow. cbn [snd rows].
  rewrite filter_app. destruct (decide (j = TreeQueries.nextId s)) as [->|Hne].
  - rewrite (filter_nil_intro _ (rows s)).
    + by rewrite filter_cons_True.
    + intros n Hn%nextId_above. lia.
  - rewrite (filter_cons_False _ (mkNode _ _ _)) by (simpl; congruence).
    by rewrite filter_nil, app_nil_r.
Qed.

(** When the parent check passes and the table is not full, [createNode]
    is the insert. *)
Lemma createNode_insert s l parentId :
  (∀ p, parentId = Some p → p ∈ id <$> rows s) →
  TreeQueries.nextId s ≤ TreeQueries.maxRowid →
  TreeQueries.createNode s l parentId
  = (inr (Some (mkNode (TreeQueries.nextId s) l parentId)),
     (TreeQueries.insertRow s l parentId).2).
Proof.
  intros Hp Hroom. unfold TreeQueries.createNode.
  rewrite decide_True by done.
  assert ((let '(i, s') := TreeQueries.insertRow s l parentId in
           (inr (TreeQueries.getNodeById s' i), s'))
          = (inr (Some (mkNode (TreeQueries.nextId s) l parentId))
               : Result (option Node),
             (TreeQueries.insertRow s l parentId).2)) as Hins.
  { pose proof (getNodeById_insertRow s l parentId (TreeQueries.nextId s))
      as Hget.
    rewrite decide_True in Hget by done.
    unfold TreeQueries.insertRow in *. cbn [snd] in *. by rewrite Hget. }
  destruct parentId as [p|]; [|exact Hins].
  rewrite (proj2 (nodeExists_iff s p)) by auto. exact Hins.
Qed.

(** In a table that is full, [createNode] throws and writes nothing. *)
Lemma createNode_full s l parentId :
  (∀ p, parentId = Some p → p ∈ id <$> rows s) →
  TreeQueries.maxRowid < TreeQueries.nextId s →
  TreeQueries.createNode s l parentId
  = (inl (FailedToCreateNode DatabaseFull), s).
Proof.
  intros Hp Hfull. unfold TreeQueries.createNode.
  rewrite decide_False by lia.
  destruct parentId as [p|]; [|done].
  by rewrite (proj2 (nodeExists_iff s p)) by auto.
Qed.

(** What any call of [createNode] leaves in the table. *)
Lemma createNode_store s l parentId :
  (TreeQueries.createNode s l parentId).2 = s
  ∨ ((∀ p, parentId = Some p → p ∈ id <$> rows s)
     ∧ TreeQueries.nextId s ≤ TreeQueries.maxRowid
     ∧ TreeQueries.createNode s l parentId
       = (inr (Some (mkNode (TreeQueries.nextId s) l parentId)),
          (TreeQueries.insertRow s l parentId).2)).
Proof.
  assert ((∀ p, parentId = Some p → p ∈ id <$> rows s)
          ∨ ∃ p, parentId = Some p ∧ TreeQueries.nodeExists s p = false)
    as [Hp|(p & -> & Hex)].
  { destruct parentId as [p|]; [|by left].
    destruct (TreeQueries.nodeExists s p) eqn:Hex; [|by eauto].
    left. intros q [= <-]. by apply nodeExists_iff. }
  - destruct (decide (TreeQueries.nextId s ≤ TreeQueries.maxRowid)).
    + right. split; [done|]. split; [done|]. by apply createNode_insert.
    + left. rewrite createNode_full; [done..|lia].
  - left. unfold TreeQueries.createNode. by rewrite Hex.
Qed.


(** X5.  When [parentId] is [null] or the id of a row, and the
    AUTOINCREMENT mark and the ids of the table are below
    [Number.MAX_SAFE_INTEGER], [createNode] appends one row with the given
    label and parent and returns it.  Its id is above every id of the table
    and above the mark, is positive and at most [Number.MAX_SAFE_INTEGER],
    and becomes the new mark; looking up any other id gives what it gave
    before. *)
Theorem createNode_success (s : Store) (l : string) (parentId : option Z) :
  (∀ p, parentId = Some p → p ∈ id <$> rows s) →
  seq s < maxSafeInteger →
  (∀ n, n ∈ rows s → id n < maxSafeInteger) →
  ∃ i,
    TreeQueries.createNode s l parentId
    = (inr (Some (mkNode i l parentId)),
       mkStore (rows s ++ [mkNode i l parentId]) i)
    ∧ seq s < i
    ∧ (∀ n, n ∈ rows s → id n < i)
    ∧ 0 < i ≤ maxSafeInteger
    ∧ ∀ j, j ≠ i →
        TreeQueries.getNodeById (TreeQueries.createNode s l parentId).2 j
        = TreeQueries.getNodeById s j.
Proof.
  intros Hp Hseq Hids. exists (TreeQueries.nextId s).
  pose proof (nextId_below s maxSafeInteger) as Hsafe.
  unfold maxSafeInteger in Hsafe at 1. specialize (Hsafe ltac:(lia) Hseq Hids).
  rewrite (createNode_insert s l parentId Hp)
    by (unfold TreeQueries.maxRowid; unfold maxSafeInteger in Hsafe; lia).
  split; [done|]. split; [apply nextId_above_seq|].
  split; [apply nextId_above|].
  split; [split; [apply nextId_positive|done]|].
  intros j Hj. cbn [snd]. rewrite getNodeById_insertRow.
  by rewrite decide_False.
Qed.

Lemma createNode_success_witness :
  ∃ i,
    TreeQueries.createNode forest4 "owl" (Some 3)
    = (inr (Some (mkNode i "owl" (Some 3))),
       mkStore (rows forest4 ++ [mkNode i "owl" (Some 3)]) i)
    ∧ seq forest4 < i
    ∧ (∀ n, n ∈ rows forest4 → id n < i)
    ∧ 0 < i ≤ maxSafeInteger
    ∧ ∀ j, j ≠ i →
        TreeQueries.getNodeById
          (TreeQueries.createNode forest4 "owl" (Some 3)).2 j
        = TreeQueries.getNodeById forest4 j.
Proof.
  apply (createNode_success forest4 "owl" (Some 3)).
  - intros p Hp. injection Hp as <-.
    apply (bool_decide_unpack _). by vm_compute.
  - by vm_compute.
  - intros n Hn. vm_compute in Hn. each_elem Hn ltac:(by vm_compute).
Defined.

(** No chain of parent links ends at an id that is the parent of no row. *)
Lemma tc_parent_step_target ns a b :
  tc (parent_step ns) a b → ∃ n, n ∈ ns ∧ parent_id n = Some b.
Proof.
  induction 1 as [a b (n & Hn & _ & Hp)|a y b _ _ IH]; [eauto|done].
Qed.

Lemma tc_parent_step_source ns a b :
  tc (parent_step ns) a b → a ∈ id <$> ns.
Proof.
  intros Htc.
  assert (∃ y, parent_step ns a y) as (y & n & Hn & <- & _)
    by (inversion Htc; eauto).
  by apply list_elem_of_fmap_2.
Qed.

(** A row appended under a fresh id and below a parent that is there keeps
    the node set healthy. *)
Lemma forest_ok_snoc ns n :
  forest_ok ns → id n ∉ id <$> ns →
  (∀ p, parent_id n = Some p → p ∈ id <$> ns) →
  forest_ok (ns ++ [n]).
Proof.
  intros (Hnd & Hpp & Hacyc) Hfresh Hpar.
  assert (∀ m p, m ∈ ns ++ [n] → parent_id m = Some p → p ∈ id <$> ns)
    as Htarget.
  { intros m p [Hm | ->%list_elem_of_singleton]%elem_of_app Hp; eauto. }
  assert (∀ a b, tc (parent_step (ns ++ [n])) a b → a ≠ id n →
                 tc (parent_step ns) a b) as Hold.
  { induction 1 as [a b (m & Hm & Hid & Hp)|a y b (m & Hm & Hid & Hp) _ IH];
      intros Hne.
    - apply tc_once. exists m. split; [|done].
      apply elem_of_app in Hm as [Hm | ->%list_elem_of_singleton]; done.
    - eapply tc_l.
      + exists m. split; [|done].
        apply elem_of_app in Hm as [Hm | ->%list_elem_of_singleton]; done.
      + apply IH. intros ->. by apply Hfresh, (Htarget m). }
  split; [|split].
  - rewrite fmap_app. apply NoDup_app. split; [done|]. split.
    + intros x Hx ->%list_elem_of_singleton. done.
    + apply NoDup_singleton.
  - intros m p Hm Hp. rewrite fmap_app. apply elem_of_app. left.
    by apply (Htarget m).
  - intros a Ha. apply (Hacyc a), Hold; [done|].
    destruct (tc_parent_step_target _ _ _ Ha) as (m & Hm & Hp).
    intros ->. by apply Hfresh, (Htarget m).
Qed.

Lemma createNode_forest_ok s l parentId :
  forest_ok (rows s) →
  forest_ok (rows (TreeQueries.createNode s l parentId).2).
Proof.
  intros Hok.
  destruct (createNode_store s l parentId) as [->|(Hp & _ & ->)]; [done|].
  unfold TreeQueries.insertRow. cbn [snd rows].
  apply forest_ok_snoc; [done|apply nextId_fresh|done].
Qed.

(** X6.  [createNode] keeps a healthy table healthy, whether it inserts or
    throws: ids stay unique, every parent is still there, and the new row
    closes no parent cycle. *)
Theorem createNode_preserves_forest (s : Store) (l : string)
    (parentId : option Z) :
  forest_ok (rows s) →
  forest_ok (rows (TreeQueries.createNode s l parentId).2).
Proof. apply createNode_forest_ok. Qed.

Lemma createNode_preserves_forest_witness :
  forest_ok (rows (TreeQueries.createNode forest4 "owl" (Some 3)).2).
Proof.
  apply (createNode_preserves_forest forest4 "owl" (Some 3)).
  exact forest4_forest_ok.
Defined.

(** ** Identifiers are not handed out twice *)






(** ** Changing a label *)

Lemma relabel_id i l n : id (relabel i l n) = id n.
Proof. unfold relabel. by destruct (decide _). Qed.

Lemma relabel_parent_id i l n : parent_id (relabel i l n) = parent_id n.
Proof. unfold relabel. by destruct (decide _). Qed.

Lemma updateLabel_rows s l i :
  rows (TreeQueries.updateLabel s l i).2 = relabel i l <$> rows s.
Proof. done. Qed.

Lemma filter_id_fmap (f : Node → Node) (ns : list Node) j :
  (∀ n, id (f n) = id n) →
  filter (λ n, id n = j) (f <$> ns) = f <$> filter (λ n, id n = j) ns.
Proof.
  intros Hf. induction ns as [|n ns IH]; [done|].
  rewrite fmap_cons, !filter_cons, Hf.
  destruct (decide (id n = j)); by rewrite IH.
Qed.

Lemma getNodeById_updateLabel s l i j :
  TreeQueries.getNodeById (TreeQueries.updateLabel s l i).2 j
  = relabel i l <$> TreeQueries.getNodeById s j.
Proof.
  unfold TreeQueries.getNodeById. rewrite updateLabel_rows.
  rewrite filter_id_fmap by apply relabel_id.
  by destruct (filter _ (rows s)).
Qed.

Lemma updateNodeLabel_store s i l :
  (TreeQueries.updateNodeLabel s i l).2 = (TreeQueries.updateLabel s l i).2.
Proof.
  unfold TreeQueries.updateNodeLabel, TreeQueries.updateLabel.
  by destruct (decide _).
Qed.

Lemma relabel_absent s i l :
  i ∉ id <$> rows s → relabel i l <$> rows s = rows s.
Proof.
  intros Hi. induction (rows s) as [|n ns IH]; [done|].
  rewrite fmap_cons in Hi. apply not_elem_of_cons in Hi as [Hne Hi].
  rewrite fmap_cons, IH by done. unfold relabel.
  by rewrite decide_False by done.
Qed.

(** X8.  [updateNodeLabel] on an id that no row has returns [null] and
    leaves the table as it was.  On the id of a row it returns that row with
    the new label, its id and parent unchanged, and looking up any other id
    gives what it gave before. *)
Theorem updateNodeLabel_result (s : Store) (i : Z) (l : string) :
  (i ∉ id <$> rows s → TreeQueries.updateNodeLabel s i l = (None, s))
  ∧ (∀ n, TreeQueries.getNodeById s i = Some n →
       (TreeQueries.updateNodeLabel s i l).1
       = Some (mkNode i l (parent_id n)))
  ∧ (∀ j, j ≠ i →
       TreeQueries.getNodeById (TreeQueries.updateNodeLabel s i l).2 j
       = TreeQueries.getNodeById s j).
Proof.
  split; [|split].
  - intros Hi. unfold TreeQueries.updateNodeLabel, TreeQueries.updateLabel.
    fold (relabel i l). rewrite (relabel_absent s i l Hi).
    apply getNodeById_None in Hi. unfold TreeQueries.getNodeById in Hi.
    apply head_None in Hi. rewrite Hi. cbn [length].
    rewrite decide_True by done. by destruct s.
  - intros n Hn.
    pose proof (getNodeById_updateLabel s l i i) as Hget.
    rewrite Hn in Hget. cbn [fmap option_fmap option_map] in Hget.
    apply getNodeById_Some in Hn as [Hin Hid].
    unfold relabel in Hget. rewrite decide_True, Hid in Hget by done.
    unfold TreeQueries.updateNodeLabel.
    destruct (TreeQueries.updateLabel s l i) as [changes s'] eqn:Hupd.
    cbn [snd] in Hget.
    assert (changes ≠ 0%nat) as Hch.
    { unfold TreeQueries.updateLabel in Hupd. injection Hupd as <- _.
      assert (n ∈ filter (λ m, id m = i) (rows s)) as Hf
        by by apply list_elem_of_filter.
      destruct (filter _ (rows s)); [by apply elem_of_nil in Hf|done]. }
    by rewrite decide_False.
  - intros j Hj. rewrite updateNodeLabel_store, getNodeById_updateLabel.
    destruct (TreeQueries.getNodeById s j) as [n|] eqn:Hn; [|done].
    apply getNodeById_Some in Hn as [_ Hid]. cbn. unfold relabel.
    by rewrite decide_False by congruence.
Qed.

Lemma parent_step_relabel ns i l a p :
  parent_step (relabel i l <$> ns) a p ↔ parent_step ns a p.
Proof.
  unfold parent_step. split.
  - intros (n & (m & -> & Hm)%list_elem_of_fmap & Hid & Hp).
    rewrite relabel_id in Hid. rewrite relabel_parent_id in Hp. eauto.
  - intros (n & Hn & Hid & Hp). exists (relabel i l n).
    rewrite relabel_id, relabel_parent_id.
    split; [by apply list_elem_of_fmap_2|done].
Qed.

Lemma getAncestorIds_loop_updateLabel s l i budget j :
  TreeQueries.getAncestorIds_loop budget (TreeQueries.updateLabel s l i).2 j
  = TreeQueries.getAncestorIds_loop budget s j.
Proof.
  revert j. induction budget as [|b IH]; intros j; [done|].
  cbn [TreeQueries.getAncestorIds_loop]. rewrite getNodeById_updateLabel.
  destruct (truthy j); [|done].
  destruct (TreeQueries.getNodeById s j) as [n|]; [|done].
  cbn [fmap option_fmap option_map]. rewrite relabel_parent_id.
  destruct (parent_id n); [|done]. by rewrite IH.
Qed.

(** X9.  [updateNodeLabel] changes labels only: after it the table has the
    same ids in the same places and the same parent links, so the ancestor
    ids of every node are what they were. *)
Theorem updateNodeLabel_keeps_structure (s : Store) (i : Z) (l : string) :
  id <$> rows (TreeQueries.updateNodeLabel s i l).2 = id <$> rows s
  ∧ parent_id <$> rows (TreeQueries.updateNodeLabel s i l).2
    = parent_id <$> rows s
  ∧ (∀ a p, parent_step (rows (TreeQueries.updateNodeLabel s i l).2) a p
            ↔ parent_step (rows s) a p)
  ∧ ∀ j, TreeQueries.getAncestorIds (TreeQueries.updateNodeLabel s i l).2 j
         = TreeQueries.getAncestorIds s j.
Proof.
  rewrite updateNodeLabel_store, updateLabel_rows.
  split; [|split; [|split]].
  - rewrite <- list_fmap_compose. apply list_fmap_ext.
    intros k n _. apply relabel_id.
  - rewrite <- list_fmap_compose. apply list_fmap_ext.
    intros k n _. apply relabel_parent_id.
  - intros a p. apply parent_step_relabel.
  - intros j. apply getAncestorIds_loop_updateLabel.
Qed.

(** ** Creating several nodes at once *)

Lemma createMultipleNodes_loop_seq nodeData s createdNodes :
  TreeQueries.createMultipleNodes_loop s nodeData createdNodes
  = match createNodes_seq s nodeData with
    | inl e => inl (thrownBy e)
    | inr (ns, s') => inr (createdNodes ++ ns, s')
    end.
Proof.
  revert s createdNodes.
  induction nodeData as [|[l parentId] rest IH]; intros s createdNodes.
  - simpl. by rewrite app_nil_r.
  - assert (∀ pid,
              (∀ p, pid = Some p → p ∈ id <$> rows s) →
              (if decide (TreeQueries.nextId s ≤ TreeQueries.maxRowid) then
                 let '(i, s') := TreeQueries.insertRow s l pid in
                 TreeQueries.createMultipleNodes_loop s' rest
                   (createdNodes ++ [TreeQueries.getNodeById s' i])
               else inl DatabaseFull)
              = match
                  match TreeQueries.createNode s l pid with
                  | (inl e, _) => inl e
                  | (inr n, s') =>
                      match createNodes_seq s' rest with
                      | inl e => inl e
                      | inr (ns, s'') => inr (n :: ns, s'')
                      end
                  end
                with
                | inl e => inl (thrownBy e)
                | inr (ns, s') => inr (createdNodes ++ ns, s')
                end) as Hins.
    { intros pid Hp.
      destruct (decide (TreeQueries.nextId s ≤ TreeQueries.maxRowid))
        as [Hroom|Hfull].
      - rewrite (createNode_insert s l pid Hp Hroom).
        pose proof (getNodeById_insertRow s l pid (TreeQueries.nextId s))
          as Hget.
        rewrite decide_True in Hget by done.
        destruct (TreeQueries.insertRow s l pid) as [i s1] eqn:Hrow.
        assert (i = TreeQueries.nextId s) as -> by by injection Hrow.
        cbn [snd] in Hget |- *. rewrite Hget, IH.
        destruct (createNodes_seq s1 rest) as [e|[ns s2]]; [done|].
        by rewrite <- app_assoc.
      - by rewrite (createNode_full s l pid Hp) by lia. }
    cbn [TreeQueries.createMultipleNodes_loop createNodes_seq].
    destruct parentId as [p|]; [|by apply Hins].
    destruct (TreeQueries.nodeExists s p) eqn:Hex.
    + apply Hins. intros q [= <-]. by apply nodeExists_iff.
    + unfold TreeQueries.createNode. by rewrite Hex.
Qed.

(** X10.  On a non-empty array, [createMultipleNodes] does what calling
    [createNode] on each entry in turn does: it returns the same nodes and
    leaves the same table when every call succeeds, and otherwise throws,
    wrapped, what made the first failing call throw, with the table as it
    was before the batch. *)
Theorem createMultipleNodes_sequential (s : Store)
    (nodeData : list (string * option Z)) :
  nodeData ≠ [] →
  TreeQueries.createMultipleNodes s nodeData
  = match createNodes_seq s nodeData with
    | inl e => (inl (TreeQueries.FailedToCreateMultiple (thrownBy e)), s)
    | inr (ns, s') => (inr ns, s')
    end.
Proof.
  intros Hne. unfold TreeQueries.createMultipleNodes.
  destruct nodeData as [|d rest] eqn:Hd; [done|]. rewrite <- Hd.
  rewrite createMultipleNodes_loop_seq.
  by destruct (createNodes_seq s nodeData) as [e|[ns s']].
Qed.

Lemma createMultipleNodes_sequential_witness :
  TreeQueries.createMultipleNodes forest4 [("owl"%string, Some 3); ("elk"%string, Some 5)]
  = match createNodes_seq forest4 [("owl"%string, Some 3); ("elk"%string, Some 5)] with
    | inl e => (inl (TreeQueries.FailedToCreateMultiple (thrownBy e)), forest4)
    | inr (ns, s') => (inr ns, s')
    end.
Proof.
  apply (createMultipleNodes_sequential forest4
           [("owl"%string, Some 3); ("elk"%string, Some 5)]).
  discriminate.
Defined.

Lemma createNodes_seq_forest_ok nodeData s ns s' :
  forest_ok (rows s) → createNodes_seq s nodeData = inr (ns, s') →
  forest_ok (rows s').
Proof.
  revert s ns s'. induction nodeData as [|[l parentId] rest IH];
    intros s ns s' Hok Hseq.
  - by simplify_eq/=.
  - cbn [createNodes_seq] in Hseq.
    pose proof (createNode_forest_ok s l parentId Hok) as Hok1.
    destruct (TreeQueries.createNode s l parentId) as [[e|n] s1]; [done|].
    destruct (createNodes_seq s1 rest) as [e|[ns1 s2]] eqn:Hrest; [done|].
    injection Hseq as _ <-. by eapply IH.
Qed.

(** X11.  [createMultipleNodes] keeps a healthy table healthy, whether the
    batch is committed or rolled back. *)
Theorem createMultipleNodes_preserves_forest (s : Store)
    (nodeData : list (string * option Z)) :
  forest_ok (rows s) →
  forest_ok (rows (TreeQueries.createMultipleNodes s nodeData).2).
Proof.
  intros Hok. unfold TreeQueries.createMultipleNodes.
  destruct nodeData as [|d rest] eqn:Hd; [done|]. rewrite <- Hd.
  rewrite createMultipleNodes_loop_seq.
  destruct (createNodes_seq s nodeData) as [e|[ns s']] eqn:Hseq; [done|].
  by eapply createNodes_seq_forest_ok.
Qed.

Lemma createMultipleNodes_preserves_forest_witness :
  forest_ok
    (rows (TreeQueries.createMultipleNodes forest4
             [("owl"%string, Some 3); ("elk"%string, Some 5)]).2).
Proof.
  apply (createMultipleNodes_preserves_forest forest4
           [("owl"%string, Some 3); ("elk"%string, Some 5)]).
  exact forest4_forest_ok.
Defined.

(** ** Ancestors *)

Lemma getAncestors_loop_S fuel s cn :
  TreeQueries.getAncestors_loop (S fuel) s (Some cn)
  = match parent_id cn with
    | None => Some []
    | Some pid =>
        match TreeQueries.getNodeById s pid with
        | Some parent =>
            (parent ::.) <$> TreeQueries.getAncestors_loop fuel s (Some parent)
        | None => Some []
        end
    end.
Proof. done. Qed.

Lemma getAncestors_loop_returns s fuel cn seen :
  acyclic (rows s) →
  cn ∈ rows s → up_inv (rows s) seen (id cn) →
  (length (rows s) < fuel + length seen)%nat →
  is_Some (TreeQueries.getAncestors_loop fuel s (Some cn)).
Proof.
  intros Hacyc. revert cn seen.
  induction fuel as [|f IH]; intros cn seen Hcn Hinv Hlen.
  - assert (id cn ∈ id <$> rows s) as Hid by by apply list_elem_of_fmap_2.
    pose proof (up_inv_length _ Hacyc _ _ Hinv Hid). lia.
  - assert (id cn ∈ id <$> rows s) as Hid by by apply list_elem_of_fmap_2.
    rewrite getAncestors_loop_S.
    destruct (parent_id cn) as [pid|] eqn:Hp; [|by eauto].
    destruct (TreeQueries.getNodeById s pid) as [par|] eqn:Hpar; [|by eauto].
    apply getNodeById_Some in Hpar as [Hin <-].
    apply fmap_is_Some, (IH par (id cn :: seen)); [done| |simpl; lia].
    apply up_inv_step; [done..|]. by exists cn.
Qed.

Lemma getAncestors_returns s fuel nodeId :
  acyclic (rows s) → (length (rows s) < fuel)%nat →
  is_Some (TreeQueries.getAncestors fuel s nodeId).
Proof.
  intros Hacyc Hlen. unfold TreeQueries.getAncestors.
  destruct (TreeQueries.getNodeById s nodeId) as [n|] eqn:Hn.
  - apply getNodeById_Some in Hn as [Hin <-].
    apply (getAncestors_loop_returns s fuel n []); [done..| |simpl; lia].
    apply up_inv_nil.
  - destruct fuel; [lia|]. simpl. eauto.
Qed.

(** Every node returned is a row that the chain of parents of the start
    reaches. *)
Lemma getAncestors_loop_sound s fuel cn anc a :
  TreeQueries.getAncestors_loop fuel s (Some cn) = Some anc →
  cn ∈ rows s → a ∈ anc →
  a ∈ rows s ∧ tc (parent_step (rows s)) (id cn) (id a).
Proof.
  revert cn anc. induction fuel as [|f IH]; intros cn anc Hanc Hcn Ha; [done|].
  rewrite getAncestors_loop_S in Hanc.
  destruct (parent_id cn) as [pid|] eqn:Hp;
    [|simplify_eq; by apply elem_of_nil in Ha].
  destruct (TreeQueries.getNodeById s pid) as [par|] eqn:Hpar;
    [|simplify_eq; by apply elem_of_nil in Ha].
  apply getNodeById_Some in Hpar as [Hin <-].
  destruct (TreeQueries.getAncestors_loop f s (Some par)) as [rest|] eqn:Hrest;
    [|done].
  cbn in Hanc. injection Hanc as <-.
  assert (parent_step (rows s) (id cn) (id par)) as Hstep by (by exists cn).
  apply elem_of_cons in Ha as [->|Ha].
  - split; [done|]. by apply tc_once.
  - destruct (IH _ _ Hrest Hin Ha) as [Ha' Htc]. split; [done|].
    by eapply tc_l.
Qed.

(** With unique ids, every row that the chain of parents reaches is
    returned. *)
Lemma getAncestors_loop_complete s fuel cn anc a :
  NoDup (id <$> rows s) →
  TreeQueries.getAncestors_loop fuel s (Some cn) = Some anc →
  cn ∈ rows s → a ∈ rows s →
  tc (parent_step (rows s)) (id cn) (id a) → a ∈ anc.
Proof.
  intros Hnd. revert cn anc.
  induction fuel as [|f IH]; intros cn anc Hanc Hcn Ha Htc; [done|].
  rewrite getAncestors_loop_S in Hanc.
  assert (∃ p, parent_id cn = Some p
               ∧ (id a = p ∨ tc (parent_step (rows s)) p (id a)))
    as (p & Hp & Hcase).
  { assert (∃ y, parent_step (rows s) (id cn) y) as (y & n & Hn & Hid & Hpn)
      by (inversion Htc; eauto).
    assert (n = cn) as -> by by apply (node_unique (rows s)).
    exists y. split; [done|].
    eapply (tc_after_step (rows s) Hnd); [|done]. by exists cn. }
  rewrite Hp in Hanc.
  assert (p ∈ id <$> rows s) as Hpin.
  { destruct Hcase as [<-|Htc'].
    - by apply list_elem_of_fmap_2.
    - by eapply tc_parent_step_source. }
  apply getNodeById_is_Some in Hpin as [par Hpar]. rewrite Hpar in Hanc.
  apply getNodeById_Some in Hpar as [Hin <-].
  destruct (TreeQueries.getAncestors_loop f s (Some par)) as [rest|] eqn:Hrest;
    [|done].
  cbn in Hanc. injection Hanc as <-.
  destruct Hcase as [Heq|Htc'].
  - assert (a = par) as -> by by apply (node_unique (rows s)).
    by left.
  - right. by eapply IH.
Qed.

(** In the array returned, each node is followed by its parent. *)
Lemma getAncestors_loop_linked s fuel cn anc k a b :
  TreeQueries.getAncestors_loop fuel s (Some cn) = Some anc →
  (cn :: anc) !! k = Some a → (cn :: anc) !! S k = Some b →
  parent_id a = Some (id b).
Proof.
  revert cn anc k. induction fuel as [|f IH]; intros cn anc k Hanc Hk HSk;
    [done|].
  rewrite getAncestors_loop_S in Hanc.
  destruct (parent_id cn) as [pid|] eqn:Hp; [|by simplify_eq].
  destruct (TreeQueries.getNodeById s pid) as [par|] eqn:Hpar;
    [|by simplify_eq].
  apply getNodeById_Some in Hpar as [Hin <-].
  destruct (TreeQueries.getAncestors_loop f s (Some par)) as [rest|] eqn:Hrest;
    [|done].
  cbn in Hanc. injection Hanc as <-.
  destruct k as [|k].
  - cbn in Hk, HSk. by simplify_eq.
  - by eapply (IH par rest k).
Qed.

Lemma getAncestors_loop_NoDup s fuel cn anc :
  acyclic (rows s) →
  TreeQueries.getAncestors_loop fuel s (Some cn) = Some anc →
  cn ∈ rows s → NoDup anc.
Proof.
  intros Hacyc. revert cn anc.
  induction fuel as [|f IH]; intros cn anc Hanc Hcn; [done|].
  rewrite getAncestors_loop_S in Hanc.
  destruct (parent_id cn) as [pid|] eqn:Hp;
    [|simplify_eq; constructor].
  destruct (TreeQueries.getNodeById s pid) as [par|] eqn:Hpar;
    [|simplify_eq; constructor].
  apply getNodeById_Some in Hpar as [Hin <-].
  destruct (TreeQueries.getAncestors_loop f s (Some par)) as [rest|] eqn:Hrest;
    [|done].
  cbn in Hanc. injection Hanc as <-.
  constructor; [|by eapply IH].
  intros Hpar. apply (Hacyc (id par)).
  by eapply getAncestors_loop_sound.
Qed.

Lemma getAncestors_elem_of s fuel i anc a :
  NoDup (id <$> rows s) →
  TreeQueries.getAncestors fuel s i = Some anc →
  a ∈ anc ↔ a ∈ rows s ∧ tc (parent_step (rows s)) i (id a).
Proof.
  intros Hnd Hanc. unfold TreeQueries.getAncestors in Hanc.
  destruct (TreeQueries.getNodeById s i) as [n|] eqn:Hn.
  - apply getNodeById_Some in Hn as [Hin <-]. split.
    + by eapply getAncestors_loop_sound.
    + intros [Ha Htc]. by eapply getAncestors_loop_complete.
  - destruct fuel; [done|]. simpl in Hanc. simplify_eq. split.
    + by intros ?%elem_of_nil.
    + intros [_ Hsrc%tc_parent_step_source].
      by apply getNodeById_None in Hn.
Qed.

(** X12.  In a store with unique ids and no parent cycle, [getAncestors]
    returns, as soon as it is given more turns than there are rows, each row
    that the chain of parents of the node reaches, once, and nothing else;
    the array starts with the parent of the node and each entry is followed
    by its own parent. *)
Theorem getAncestors_exact (s : Store) (nodeId : Z) (fuel : nat) :
  NoDup (id <$> rows s) →
  acyclic (rows s) →
  (length (rows s) < fuel)%nat →
  ∃ anc,
    TreeQueries.getAncestors fuel s nodeId = Some anc
    ∧ NoDup anc
    ∧ (∀ a, a ∈ anc
            ↔ a ∈ rows s ∧ tc (parent_step (rows s)) nodeId (id a))
    ∧ ∀ n k a b,
        TreeQueries.getNodeById s nodeId = Some n →
        (n :: anc) !! k = Some a → (n :: anc) !! S k = Some b →
        parent_id a = Some (id b).
Proof.
  intros Hnd Hacyc Hfuel.
  destruct (getAncestors_returns s fuel nodeId Hacyc Hfuel) as [anc Hanc].
  exists anc. split; [done|]. split; [|split].
  - unfold TreeQueries.getAncestors in Hanc.
    destruct (TreeQueries.getNodeById s nodeId) as [n|] eqn:Hn.
    + apply getNodeById_Some in Hn as [Hin _].
      by eapply getAncestors_loop_NoDup.
    + destruct fuel; [done|]. simpl in Hanc. simplify_eq. constructor.
  - intros a. by eapply getAncestors_elem_of.
  - intros n k a b Hn. unfold TreeQueries.getAncestors in Hanc.
    rewrite Hn in Hanc. by eapply getAncestors_loop_linked.
Qed.

Lemma getAncestors_exact_witness :
  ∃ anc,
    TreeQueries.getAncestors 5 forest4 3 = Some anc
    ∧ NoDup anc
    ∧ (∀ a, a ∈ anc
            ↔ a ∈ rows forest4 ∧ tc (parent_step (rows forest4)) 3 (id a))
    ∧ ∀ n k a b,
        TreeQueries.getNodeById forest4 3 = Some n →
        (n :: anc) !! k = Some a → (n :: anc) !! S k = Some b →
        parent_id a = Some (id b).
Proof.
  apply (getAncestors_exact forest4 3 5).
  - exact forest4_NoDup.
  - exact (acyclic_of_decreasing _ forest4_decreasing).
  - vm_compute. lia.
Defined.

(** X13.  In a store with unique ids and no parent cycle, [a] is among the
    ancestors of [b] exactly when [b] is among the descendants of [a]. *)
Theorem ancestors_descendants_dual (s : Store) (a b : Node) (fuel : nat) :
  NoDup (id <$> rows s) →
  acyclic (rows s) →
  a ∈ rows s → b ∈ rows s →
  (length (rows s) < fuel)%nat →
  ∃ anc ds,
    TreeQueries.getAncestors fuel s (id b) = Some anc
    ∧ TreeQueries.getAllDescendants fuel s (id a) = Some ds
    ∧ (a ∈ anc ↔ b ∈ ds).
Proof.
  intros Hnd Hacyc Ha Hb Hfuel.
  destruct (getAncestors_returns s fuel (id b) Hacyc Hfuel) as [anc Hanc].
  destruct (getAllDescendants_returns s Hacyc fuel (id a) Hfuel) as [ds Hds].
  exists anc, ds. split; [done|]. split; [done|].
  rewrite (getAncestors_elem_of s fuel (id b) anc a Hnd Hanc). split.
  - intros [_ Htc]. by eapply getAllDescendants_complete.
  - intros Hin. split; [done|]. by eapply getAllDescendants_sound.
Qed.

Lemma ancestors_descendants_dual_witness :
  ∃ anc ds,
    TreeQueries.getAncestors 5 forest4 3 = Some anc
    ∧ TreeQueries.getAllDescendants 5 forest4 1 = Some ds
    ∧ (mkNode 1 "root" None ∈ anc ↔ mkNode 3 "cat" (Some 2) ∈ ds).
Proof.
  apply (ancestors_descendants_dual forest4
           (mkNode 1 "root" None) (mkNode 3 "cat" (Some 2)) 5).
  - exact forest4_NoDup.
  - exact (acyclic_of_decreasing _ forest4_decreasing).
  - apply (bool_decide_unpack _). by vm_compute.
  - apply (bool_decide_unpack _). by vm_compute.
  - vm_compute. lia.
Defined.

(** ** The guarded walk *)

Lemma truthy_positive z : 0 < z → truthy z = true.
Proof.
  intros Hz. unfold truthy. apply negb_true_iff, Z.eqb_neq. lia.
Qed.

Lemma getAncestorIds_loop_S budget s i :
  TreeQueries.getAncestorIds_loop (S budget) s i
  = if truthy i then
      match TreeQueries.getNodeById s i with
      | None => []
      | Some node =>
          match parent_id node with
          | None => []
          | Some pid => pid :: TreeQueries.getAncestorIds_loop budget s pid
          end
      end
    else [].
Proof. done. Qed.

(** Every id pushed by the guarded walk is reached by the chain of parents
    of the start, on every store. *)
Lemma getAncestorIds_loop_sound s budget i x :
  x ∈ TreeQueries.getAncestorIds_loop budget s i →
  tc (parent_step (rows s)) i x.
Proof.
  revert i. induction budget as [|b IH]; intros i Hx;
    [by apply elem_of_nil in Hx|].
  rewrite getAncestorIds_loop_S in Hx.
  destruct (truthy i); [|by apply elem_of_nil in Hx].
  destruct (TreeQueries.getNodeById s i) as [n|] eqn:Hn;
    [|by apply elem_of_nil in Hx].
  destruct (parent_id n) as [pid|] eqn:Hp; [|by apply elem_of_nil in Hx].
  apply getNodeById_Some in Hn as [Hin <-].
  assert (parent_step (rows s) (id n) pid) as Hstep by (by exists n).
  apply elem_of_cons in Hx as [->|Hx]; [by apply tc_once|].
  eapply tc_l; [done|]. by apply IH.
Qed.

(** With unique positive ids and no cycle, the guarded walk pushes every id
    that the chain of parents reaches before its budget is used up. *)
Lemma getAncestorIds_loop_complete s budget seen i x :
  NoDup (id <$> rows s) → ids_positive (rows s) → acyclic (rows s) →
  up_inv (rows s) seen i →
  (length (rows s) ≤ budget + length seen)%nat →
  tc (parent_step (rows s)) i x →
  x ∈ TreeQueries.getAncestorIds_loop budget s i.
Proof.
  intros Hnd Hpos Hacyc. revert seen i.
  induction budget as [|b IH]; intros seen i Hinv Hlen Htc.
  - pose proof (up_inv_length _ Hacyc _ _ Hinv
                  (tc_parent_step_source _ _ _ Htc)). simpl in Hlen. lia.
  - assert (∃ y, parent_step (rows s) i y) as (y & n & Hn & <- & Hp)
      by (inversion Htc; eauto).
    rewrite getAncestorIds_loop_S, (truthy_positive _ (Hpos n Hn)).
    unfold TreeQueries.getNodeById.
    rewrite (head_filter_NoDup (rows s) n Hnd Hn), Hp.
    assert (parent_step (rows s) (id n) y) as Hstep by (by exists n).
    destruct (tc_after_step (rows s) Hnd _ _ _ Hstep Htc) as [->|Htc'];
      [by left|].
    right. apply (IH (id n :: seen)); [|simpl; lia|done].
    apply up_inv_step; [done..|by apply list_elem_of_fmap_2|done].
Qed.

(** X14.  In a store of at most a thousand rows with unique positive ids
    and no parent cycle, [isAncestor(a, b)] is true exactly when [a] is [b]
    or the chain of parents of [b] reaches [a]. *)
Theorem isAncestor_spec (s : Store) (a b : Z) :
  NoDup (id <$> rows s) →
  ids_positive (rows s) →
  acyclic (rows s) →
  (length (rows s) ≤ 1000)%nat →
  TreeQueries.isAncestor s a b = true
  ↔ a = b ∨ tc (parent_step (rows s)) b a.
Proof.
  intros Hnd Hpos Hacyc Hlen. unfold TreeQueries.isAncestor.
  destruct (decide (a = b)) as [->|Hne]; [tauto|].
  rewrite bool_decide_eq_true. split.
  - intros Hin. right. by eapply getAncestorIds_loop_sound.
  - intros [?|Htc]; [done|].
    apply (getAncestorIds_loop_complete s _ [] b a); [done..| |done|done].
    apply up_inv_nil.
Qed.

Lemma isAncestor_spec_witness :
  TreeQueries.isAncestor forest4 1 3 = true
  ↔ 1 = 3 ∨ tc (parent_step (rows forest4)) 3 1.
Proof.
  apply (isAncestor_spec forest4 1 3).
  - exact forest4_NoDup.
  - exact forest4_positive.
  - exact (acyclic_of_decreasing _ forest4_decreasing).
  - vm_compute. lia.
Defined.

(** The guarded walk and the unguarded one read the same rows as long as
    every parent is a row with a non-zero id and the budget lasts. *)
Lemma getAncestorIds_loop_ancestors s fuel budget cn anc :
  ids_positive (rows s) → parents_present (rows s) →
  TreeQueries.getAncestors_loop fuel s (Some cn) = Some anc →
  TreeQueries.getNodeById s (id cn) = Some cn →
  (length anc ≤ budget)%nat →
  TreeQueries.getAncestorIds_loop budget s (id cn) = id <$> anc.
Proof.
  intros Hpos Hpp. revert budget cn anc.
  induction fuel as [|f IH]; intros budget cn anc Hanc Hcn Hlen; [done|].
  rewrite getAncestors_loop_S in Hanc.
  destruct (getNodeById_Some _ _ _ Hcn) as [Hin _].
  destruct budget as [|b].
  { destruct anc; [done|simpl in Hlen; lia]. }
  rewrite getAncestorIds_loop_S, (truthy_positive _ (Hpos cn Hin)), Hcn.
  destruct (parent_id cn) as [pid|] eqn:Hp; [|by simplify_eq].
  pose proof (Hpp cn pid Hin Hp) as [par Hpar]%getNodeById_is_Some.
  rewrite Hpar in Hanc.
  destruct (TreeQueries.getAncestors_loop f s (Some par)) as [rest|] eqn:Hrest;
    [|done].
  cbn in Hanc. injection Hanc as <-.
  destruct (getNodeById_Some _ _ _ Hpar) as [_ <-].
  rewrite fmap_cons. f_equal. apply IH; [done..|simpl in Hlen; lia].
Qed.

Lemma getNodeById_idem s i n :
  TreeQueries.getNodeById s i = Some n →
  TreeQueries.getNodeById s (id n) = Some n.
Proof. intros Hn. by destruct (getNodeById_Some _ _ _ Hn) as [_ ->]. Qed.

(** X15.  In a store of at most a thousand rows with positive ids, no
    orphan and no parent cycle, [getAncestorIds] returns the ids of the
    nodes that [getAncestors] returns, in the same order. *)
Theorem getAncestorIds_ancestors (s : Store) (nodeId : Z) (fuel : nat) :
  ids_positive (rows s) →
  parents_present (rows s) →
  acyclic (rows s) →
  (length (rows s) ≤ 1000)%nat →
  (length (rows s) < fuel)%nat →
  ∃ anc,
    TreeQueries.getAncestors fuel s nodeId = Some anc
    ∧ TreeQueries.getAncestorIds s nodeId = id <$> anc.
Proof.
  intros Hpos Hpp Hacyc Hlen Hfuel.
  destruct (getAncestors_returns s fuel nodeId Hacyc Hfuel) as [anc Hanc].
  exists anc. split; [done|].
  unfold TreeQueries.getAncestors in Hanc.
  unfold TreeQueries.getAncestorIds, TreeQueries.maxDepth.
  destruct (TreeQueries.getNodeById s nodeId) as [n|] eqn:Hn.
  - destruct (getNodeById_Some _ _ _ Hn) as [Hin <-].
    apply (getAncestorIds_loop_ancestors s fuel); [done..| |].
    + by eapply getNodeById_idem.
    + assert (length anc ≤ length (rows s))%nat; [|lia].
      apply submseteq_length, NoDup_submseteq.
      * by eapply getAncestors_loop_NoDup.
      * intros a Ha. by eapply getAncestors_loop_sound.
  - destruct fuel; [done|]. simpl in Hanc. simplify_eq.
    rewrite getAncestorIds_loop_S, Hn. by destruct (truthy nodeId).
Qed.

Lemma getAncestorIds_ancestors_witness :
  ∃ anc,
    TreeQueries.getAncestors 5 forest4 3 = Some anc
    ∧ TreeQueries.getAncestorIds forest4 3 = id <$> anc.
Proof.
  apply (getAncestorIds_ancestors forest4 3 5).
  - exact forest4_positive.
  - exact forest4_parents_present.
  - exact (acyclic_of_decreasing _ forest4_decreasing).
  - vm_compute. lia.
  - vm_compute. lia.
Defined.

(** X16.  In a store with positive ids and no parent cycle,
    [getPathToNode] returns the empty array for an id that no row has, and
    for a row the entries of its ancestors, farthest first, followed by the
    entry of the row itself. *)
Theorem getPathToNode_ancestors (s : Store) (nodeId : Z) (fuel : nat) :
  ids_positive (rows s) →
  acyclic (rows s) →
  (length (rows s) < fuel)%nat →
  ∃ path anc,
    TreeService.getPathToNode fuel s nodeId = Some path
    ∧ TreeQueries.getAncestors fuel s nodeId = Some anc
    ∧ path
      = reverse (TreeService.entryOf <$> anc)
        ++ match TreeQueries.getNodeById s nodeId with
           | Some n => [TreeService.entryOf n]
           | None => []
           end.
Proof.
  intros Hpos Hacyc Hfuel.
  destruct (getPathToNode_returns s Hacyc fuel nodeId Hfuel) as [path Hpath].
  exists path. unfold TreeQueries.getAncestors.
  pose proof Hpath as Hpath'. unfold TreeService.getPathToNode in Hpath'.
  destruct (TreeQueries.getNodeById s nodeId) as [n|] eqn:Hn.
  - apply path_loop_ancestors in Hpath' as (anc & Hanc & ->); [|done].
    by exists anc.
  - destruct fuel; [done|]. simpl in Hpath'. simplify_eq. by exists [].
Qed.

Lemma getPathToNode_ancestors_witness :
  ∃ path anc,
    TreeService.getPathToNode 5 forest4 3 = Some path
    ∧ TreeQueries.getAncestors 5 forest4 3 = Some anc
    ∧ path
      = reverse (TreeService.entryOf <$> anc)
        ++ match TreeQueries.getNodeById forest4 3 with
           | Some n => [TreeService.entryOf n]
           | None => []
           end.
Proof.
  apply (getPathToNode_ancestors forest4 3 5).
  - exact forest4_positive.
  - exact (acyclic_of_decreasing _ forest4_decreasing).
  - vm_compute. lia.
Defined.

(** ** A chain of three nodes *)




(** ** Moving a subtree *)

Lemma parents_first_mono known known' ds :
  (∀ x, x ∈ known → x ∈ known') →
  parents_first known ds → parents_first known' ds.
Proof.
  revert known known'. induction ds as [|d ds IH]; intros known known' Hsub;
    [done|].
  intros [(p & Hp & Hin) Hrest]. split; [eauto|].
  eapply IH; [|done]. intros x [->|Hx]%elem_of_cons; [by left|].
  right. auto.
Qed.

Lemma parents_first_app known known' ds ds' :
  parents_first known ds → parents_first known' ds' →
  (∀ x, x ∈ known' → x ∈ known ∨ x ∈ id <$> ds) →
  parents_first known (ds ++ ds').
Proof.
  revert known. induction ds as [|d ds IH]; intros known Hds Hds' Hsub.
  - simpl. eapply parents_first_mono; [|done].
    intros x [?|?%elem_of_nil]%Hsub; done.
  - destruct Hds as [Hd Hrest]. split; [done|].
    apply IH; [done..|].
    intros x [Hx|[->|Hx]%elem_of_cons]%Hsub.
    + left. by right.
    + left. by left.
    + by right.
Qed.

Lemma descend_parents_first recur known i cs ds :
  (∀ c r, recur (id c) = Some r → parents_first [id c] r) →
  i ∈ known → (∀ c, c ∈ cs → parent_id c = Some i) →
  TreeQueries.descend recur cs = Some ds → parents_first known ds.
Proof.
  intros Hrec Hi. revert ds. induction cs as [|c cs IH]; intros ds Hcs Hds.
  - by simplify_eq/=.
  - simpl in Hds. destruct (recur (id c)) as [cd|] eqn:Hcd; [|done].
    simpl in Hds.
    destruct (TreeQueries.descend recur cs) as [more|] eqn:Hmore; [|done].
    simplify_eq/=. split.
    + exists i. split; [|done]. apply Hcs. by left.
    + apply (parents_first_app _ known).
      * eapply parents_first_mono; [|by eapply Hrec].
        intros x ->%list_elem_of_singleton. by left.
      * apply IH; [|done]. intros c' Hc'. apply Hcs. by right.
      * intros x Hx. left. by right.
Qed.

(** [getAllDescendants] lists every node after its parent. *)
Lemma getAllDescendants_parents_first fuel s i ds :
  TreeQueries.getAllDescendants fuel s i = Some ds → parents_first [i] ds.
Proof.
  revert i ds. induction fuel as [|f IH]; intros i ds Hds; [done|].
  simpl in Hds. eapply (descend_parents_first _ [i] i); [| | |exact Hds].
  - intros c r. apply IH.
  - by left.
  - by intros c [_ ?]%elem_of_getChildrenByParentId.
Qed.

(** So the first loop of the move gives every descendant an entry in
    [parentIdMap]. *)
Lemma parentIdMap_fold_keys (ds : list Node) (known : list Z)
    (m : gmap Z (option Z)) :
  parents_first known ds →
  (∀ x, x ∈ known → is_Some (m !! x)) →
  ∀ x, x ∈ known ∨ x ∈ id <$> ds →
    is_Some (foldl
               (λ m descendant,
                  match parent_id descendant with
                  | Some oldParentId =>
                      match m !! oldParentId with
                      | Some v => <[id descendant := v]> m
                      | None => m
                      end
                  | None => m
                  end) m ds !! x).
Proof.
  revert known m. induction ds as [|d ds IH]; intros known m Hpf Hm x Hx.
  - destruct Hx as [Hx|Hx%elem_of_nil]; [auto|done].
  - destruct Hpf as [(p & Hp & Hin) Hrest]. cbn [foldl]. rewrite Hp.
    destruct (Hm p Hin) as [v Hv]. rewrite Hv.
    apply (IH (id d :: known)); [done| |].
    + intros y [->|Hy]%elem_of_cons.
      * rewrite lookup_insert_eq. eauto.
      * destruct (decide (id d = y)) as [->|Hne].
        -- rewrite lookup_insert_eq. eauto.
        -- rewrite lookup_insert_ne by done. auto.
    + destruct Hx as [Hx|[->|Hx]%elem_of_cons].
      * left. by right.
      * left. by left.
      * by right.
Qed.

Lemma parentIdMap_of_descendant fuel s src np ds d :
  TreeQueries.getAllDescendants fuel s src = Some ds → d ∈ ds →
  TreeQueries.parentIdMap_of src np ds !! id d = Some np.
Proof.
  intros Hds Hd.
  destruct (parentIdMap_fold_keys ds [src] {[src := np]}) with (x := id d)
    as [v Hv].
  - by eapply getAllDescendants_parents_first.
  - intros x ->%list_elem_of_singleton. rewrite lookup_singleton_eq. eauto.
  - right. by apply list_elem_of_fmap_2.
  - fold (TreeQueries.parentIdMap_of src np ds) in Hv.
    by rewrite Hv, (parentIdMap_of_values _ _ _ _ _ Hv).
Qed.

Lemma reparent_id moved np n : id (reparent moved np n) = id n.
Proof. unfold reparent. by destruct (decide _). Qed.

Lemma reparent_app moved moved' np n :
  reparent moved' np (reparent moved np n) = reparent (moved ++ moved') np n.
Proof.
  unfold reparent at 2 3.
  destruct (decide (id n ∈ moved)) as [Hin|Hout].
  - rewrite decide_True by (apply elem_of_app; by left).
    unfold reparent. by destruct (decide _).
  - unfold reparent. destruct (decide (id n ∈ moved')) as [Hin'|Hout'].
    + by rewrite decide_True by (apply elem_of_app; by right).
    + rewrite decide_False; [done|]. by intros [?|?]%elem_of_app.
Qed.

Lemma updateParent_reparent s np i :
  rows (TreeQueries.updateParent s np i) = reparent [i] np <$> rows s.
Proof.
  unfold TreeQueries.updateParent. cbn [rows]. apply list_fmap_ext.
  intros k n _. unfold reparent.
  destruct (decide (id n = i)) as [Heq|Hne].
  - by rewrite decide_True by (by apply list_elem_of_singleton).
  - by rewrite decide_False by (by intros ?%list_elem_of_singleton).
Qed.

(** The second loop of the move: one [UPDATE] per descendant. *)
Lemma move_updates_rows (pm : gmap Z (option Z)) np (ns : list Node) ds st acc :
  (∀ d, d ∈ ds → pm !! id d = Some np) →
  rows st = reparent acc np <$> ns →
  rows (foldl
          (λ st descendant,
             match pm !! id descendant with
             | Some v => TreeQueries.updateParent st v (id descendant)
             | None => st
             end) st ds)
  = reparent (acc ++ (id <$> ds)) np <$> ns
  ∧ seq (foldl
           (λ st descendant,
              match pm !! id descendant with
              | Some v => TreeQueries.updateParent st v (id descendant)
              | None => st
              end) st ds) = seq st.
Proof.
  revert st acc. induction ds as [|d ds IH]; intros st acc Hpm Hst.
  - simpl. by rewrite app_nil_r.
  - cbn [foldl]. rewrite (Hpm d) by by left.
    destruct (IH (TreeQueries.updateParent st np (id d)) (acc ++ [id d]))
      as [Hrows Hseq].
    + intros d' Hd'. apply Hpm. by right.
    + rewrite updateParent_reparent, Hst, <- list_fmap_compose.
      apply list_fmap_ext. intros k n _. apply reparent_app.
    + rewrite Hrows, Hseq, fmap_cons, <- app_assoc. done.
Qed.

(** What the move of the query layer leaves in the table, on every store on
    which it returns. *)
Lemma queries_move_rows fuel s src np moved s' :
  TreeQueries.moveNodeAndSubtree fuel s src np = Some (inr moved, s') →
  ∃ n ds,
    TreeQueries.getNodeById s src = Some n
    ∧ TreeQueries.getAllDescendants fuel s src = Some ds
    ∧ rows s' = reparent (src :: (id <$> ds)) np <$> rows s
    ∧ seq s' = seq s
    ∧ moved = Some (mkNode src (label n) np).
Proof.
  unfold TreeQueries.moveNodeAndSubtree. intros H.
  destruct (TreeQueries.getNodeById s src) as [n|] eqn:Hn; [|by simplify_eq].
  destruct (TreeQueries.getAllDescendants fuel s src) as [ds|] eqn:Hds;
    cbn [mbind option_bind] in H; [|done].
  exists n, ds. split; [done|]. split; [done|].
  destruct (move_updates_rows (TreeQueries.parentIdMap_of src np ds) np
              (rows s) ds (TreeQueries.updateParent s np src) [src])
    as [Hrows Hseq].
  { intros d Hd. by eapply parentIdMap_of_descendant. }
  { apply updateParent_reparent. }
  injection H as <- <-. cbn [app] in Hrows.
  split; [done|]. split; [done|].
  unfold TreeQueries.getNodeById. rewrite Hrows.
  rewrite filter_id_fmap by (intros m; apply reparent_id).
  unfold TreeQueries.getNodeById in Hn.
  destruct (filter (λ m, id m = src) (rows s)) as [|m ms] eqn:Hf; [done|].
  cbn in Hn. injection Hn as ->. cbn.
  assert (id n = src) as Hid.
  { assert (n ∈ filter (λ m, id m = src) (rows s)) as Hin
      by (rewrite Hf; by left).
    by apply list_elem_of_filter in Hin as [? _]. }
  unfold reparent. rewrite decide_True by (rewrite Hid; by left).
  by rewrite Hid.
Qed.

(** X17.  Whenever [moveNodeAndSubtree] of the query layer returns a node,
    the table it leaves is the old one in which the source row and every row
    returned by [getAllDescendants] for it have [newParentId] as their
    parent; labels, ids, the other rows and the AUTOINCREMENT mark are
    unchanged, and the node returned is the source row under its new
    parent. *)
Theorem queries_move_flattens (fuel : nat) (s s' : Store) (src : Z)
    (np : option Z) (moved : option Node) :
  TreeQueries.moveNodeAndSubtree fuel s src np = Some (inr moved, s') →
  ∃ n ds,
    TreeQueries.getNodeById s src = Some n
    ∧ TreeQueries.getAllDescendants fuel s src = Some ds
    ∧ rows s' = reparent (src :: (id <$> ds)) np <$> rows s
    ∧ seq s' = seq s
    ∧ moved = Some (mkNode src (label n) np).
Proof. apply queries_move_rows. Qed.

Lemma queries_move_flattens_witness :
  ∃ n ds,
    TreeQueries.getNodeById forest4 2 = Some n
    ∧ TreeQueries.getAllDescendants 5 forest4 2 = Some ds
    ∧ [mkNode 1 "root" None; mkNode 2 "bear" (Some 4);
       mkNode 3 "cat" (Some 4); mkNode 4 "frog" (Some 1)]
      = reparent (2 :: (id <$> ds)) (Some 4) <$> rows forest4
    ∧ 4 = seq forest4
    ∧ Some (mkNode 2 "bear" (Some 4)) = Some (mkNode 2 (label n) (Some 4)).
Proof.
  apply (queries_move_flattens 5 forest4
           (mkStore [mkNode 1 "root" None; mkNode 2 "bear" (Some 4);
                     mkNode 3 "cat" (Some 4); mkNode 4 "frog" (Some 1)] 4)
           2 (Some 4) (Some (mkNode 2 "bear" (Some 4)))).
  reflexivity.
Defined.

(** The ids of the descendants are the ids whose chain of parents reaches
    the node. *)
Lemma elem_of_descendant_ids fuel s i ds x :
  NoDup (id <$> rows s) →
  TreeQueries.getAllDescendants fuel s i = Some ds →
  x ∈ id <$> ds ↔ tc (parent_step (rows s)) x i.
Proof.
  intros Hnd Hds. rewrite list_elem_of_fmap. split.
  - intros (d & -> & Hd). by eapply getAllDescendants_sound.
  - intros Htc.
    destruct (proj1 (list_elem_of_fmap _ _ _)
                (tc_parent_step_source _ _ _ Htc)) as (d & -> & Hd).
    exists d. split; [done|]. by eapply getAllDescendants_complete.
Qed.

(** X18.  In a store with unique ids and no parent cycle, a move of [src]
    under another id [np] is refused with [Cannot move a node to be its own
    descendant] exactly when the chain of parents of [np] reaches [src]; the
    table is then left as it was. *)
Theorem move_rejects_descendants (s : Store) (src np : Z) (fuel : nat) :
  NoDup (id <$> rows s) →
  acyclic (rows s) →
  (length (rows s) < fuel)%nat →
  src ≠ np →
  TreeService.moveNodeAndSubtree fuel s src (Some np)
  = Some (inl (FailedToMove CannotMoveToDescendant), s)
  ↔ tc (parent_step (rows s)) np src.
Proof.
  intros Hnd Hacyc Hfuel Hne.
  destruct (getAllDescendants_returns s Hacyc fuel src Hfuel) as [ds Hds].
  unfold TreeService.moveNodeAndSubtree, TreeService.isOwnDescendant.
  rewrite decide_False by congruence.
  rewrite Hds. cbn [fmap option_fmap option_map].
  rewrite <- (elem_of_descendant_ids fuel s src ds np Hnd Hds).
  destruct (bool_decide (np ∈ id <$> ds)) eqn:Hin.
  - apply bool_decide_eq_true in Hin. tauto.
  - apply bool_decide_eq_false in Hin. split; [|done]. intros Hmove.
    exfalso. unfold TreeQueries.moveNodeAndSubtree in Hmove.
    destruct (TreeQueries.getNodeById s src) as [sn|]; [|done].
    destruct (decide (parent_id sn = Some np)); [done|].
    rewrite Hds in Hmove. cbn [mbind option_bind] in Hmove. done.
Qed.

Lemma move_rejects_descendants_witness :
  TreeService.moveNodeAndSubtree 5 forest4 1 (Some 3)
  = Some (inl (FailedToMove CannotMoveToDescendant), forest4)
  ↔ tc (parent_step (rows forest4)) 3 1.
Proof.
  apply (move_rejects_descendants forest4 1 3 5).
  - exact forest4_NoDup.
  - exact (acyclic_of_decreasing _ forest4_decreasing).
  - vm_compute. lia.
  - lia.
Defined.

(** Giving a set of rows that is closed under children a new parent outside
    of the set keeps the node set healthy. *)
Lemma forest_ok_reparent ns moved np :
  forest_ok ns →
  (∀ p, np = Some p → p ∈ id <$> ns ∧ p ∉ moved) →
  (∀ m q, m ∈ ns → parent_id m = Some q → q ∈ moved → id m ∈ moved) →
  forest_ok (reparent moved np <$> ns).
Proof.
  intros (Hnd & Hpp & Hacyc) Hnp Hclosed.
  assert (id <$> (reparent moved np <$> ns) = id <$> ns) as Hids.
  { rewrite <- list_fmap_compose. apply list_fmap_ext.
    intros k n _. apply reparent_id. }
  assert (∀ a q, parent_step (reparent moved np <$> ns) a q →
                 (q ∉ moved) ∧ q ∈ id <$> ns
                 ∧ (a ∉ moved → parent_step ns a q)) as Hstep.
  { intros a q (n & (m & -> & Hm)%list_elem_of_fmap & Hid & Hp).
    rewrite reparent_id in Hid. unfold reparent in Hp.
    destruct (decide (id m ∈ moved)) as [Hin|Hout].
    - cbn in Hp. destruct (Hnp q Hp) as [Hq Hq']. rewrite <- Hid. tauto.
    - split; [|split].
      + intros Hq. by apply Hout, (Hclosed m q).
      + by apply (Hpp m).
      + intros _. by exists m. }
  assert (∀ a b, tc (parent_step (reparent moved np <$> ns)) a b →
                 (b ∉ moved) ∧ (a ∉ moved → tc (parent_step ns) a b)) as Htc.
  { induction 1 as [a b (Hb & _ & Hold)%Hstep
                   |a y b (Hy & _ & Hold)%Hstep _ [Hb IH]].
    - split; [done|]. intros Ha. by apply tc_once, Hold.
    - split; [done|]. intros Ha. eapply tc_l; [by apply Hold|by apply IH]. }
  split; [|split].
  - by rewrite Hids.
  - intros n p (m & -> & Hm)%list_elem_of_fmap Hp. rewrite Hids.
    assert (parent_step (reparent moved np <$> ns) (id m) p) as Hs.
    { exists (reparent moved np m).
      split; [by apply list_elem_of_fmap_2|].
      by rewrite reparent_id. }
    by apply Hstep in Hs as (_ & ? & _).
  - intros a Ha. destruct (Htc _ _ Ha) as [Hout Hold].
    by apply (Hacyc a), Hold.
Qed.

Lemma queries_move_forest_ok fuel s src np moved s' :
  forest_ok (rows s) →
  (∀ p, np = Some p → p ∈ id <$> rows s) →
  np ≠ Some src →
  TreeService.isOwnDescendant fuel s src np = Some false →
  TreeQueries.moveNodeAndSubtree fuel s src np = Some (inr moved, s') →
  forest_ok (rows s').
Proof.
  intros Hok Hnp Hself Hown
    (n & ds & Hn & Hds & -> & _ & _)%queries_move_rows.
  apply forest_ok_reparent; [done| |].
  - intros p ->. split; [auto|].
    intros [->|Hin]%elem_of_cons; [done|].
    unfold TreeService.isOwnDescendant in Hown. rewrite Hds in Hown.
    cbn in Hown. injection Hown as Hown.
    by apply bool_decide_eq_false in Hown.
  - intros m q Hm Hp [->|(d & -> & Hd)%list_elem_of_fmap]%elem_of_cons;
      right; apply list_elem_of_fmap_2.
    + by eapply getAllDescendants_children.
    + by eapply getAllDescendants_closed.
Qed.

(** X19.  On a healthy table, [moveNodeAndSubtree] of the service, called
    with a new parent that is [null] or the id of a row, returns and leaves
    a healthy table, whether it moves or throws. *)
Theorem move_preserves_forest (s : Store) (src : Z) (np : option Z)
    (fuel : nat) :
  forest_ok (rows s) →
  (∀ p, np = Some p → p ∈ id <$> rows s) →
  (length (rows s) < fuel)%nat →
  ∃ r s',
    TreeService.moveNodeAndSubtree fuel s src np = Some (r, s')
    ∧ forest_ok (rows s').
Proof.
  intros Hok Hnp Hfuel. pose proof Hok as (Hnd & Hpp & Hacyc).
  destruct (getAllDescendants_returns s Hacyc fuel src Hfuel) as [ds Hds].
  unfold TreeService.moveNodeAndSubtree.
  destruct (decide (Some src = np)) as [Hself|Hself]; [by eauto|].
  destruct (TreeService.isOwnDescendant fuel s src np) as [[|]|] eqn:Hown.
  - by eauto.
  - destruct (TreeQueries.getNodeById s src) as [sn|] eqn:Hsn; [|by eauto].
    destruct (decide (parent_id sn = np)); [by eauto|].
    destruct (TreeQueries.moveNodeAndSubtree fuel s src np)
      as [[[e|moved] s']|] eqn:Hmove.
    + unfold TreeQueries.moveNodeAndSubtree in Hmove.
      rewrite Hsn, Hds in Hmove. cbn in Hmove. done.
    + exists (inr moved), s'. split; [done|].
      by eapply (queries_move_forest_ok fuel s src np).
    + unfold TreeQueries.moveNodeAndSubtree in Hmove.
      rewrite Hsn, Hds in Hmove. cbn in Hmove. done.
  - unfold TreeService.isOwnDescendant in Hown. rewrite Hds in Hown.
    by destruct np.
Qed.

Lemma move_preserves_forest_witness :
  ∃ r s',
    TreeService.moveNodeAndSubtree 5 forest4 2 (Some 4) = Some (r, s')
    ∧ forest_ok (rows s').
Proof.
  apply (move_preserves_forest forest4 2 (Some 4) 5).
  - exact forest4_forest_ok.
  - intros p Hp. injection Hp as <-.
    apply (bool_decide_unpack _). by vm_compute.
  - vm_compute. lia.
Defined.

(** X20.  The service does not look the new parent up: in a store without
    parent cycle, moving a row under an id that no row has, and that is not
    the [parent_id] the row has already, is accepted, the row returned has
    that id as its parent, and the table is left with an orphan. *)
Theorem move_to_missing_parent_accepted (s : Store) (src p : Z) (n : Node)
    (fuel : nat) :
  acyclic (rows s) →
  TreeQueries.getNodeById s src = Some n →
  p ∉ id <$> rows s →
  parent_id n ≠ Some p →
  (length (rows s) < fuel)%nat →
  ∃ s',
    TreeService.moveNodeAndSubtree fuel s src (Some p)
    = Some (inr (Some (mkNode src (label n) (Some p))), s')
    ∧ ¬ parents_present (rows s').
Proof.
  intros Hacyc Hn Hp Hpar Hfuel.
  destruct (getAllDescendants_returns s Hacyc fuel src Hfuel) as [ds Hds].
  destruct (getNodeById_Some _ _ _ Hn) as [Hin Hid].
  assert (src ≠ p) as Hne.
  { intros <-. apply Hp. rewrite <- Hid. by apply list_elem_of_fmap_2. }
  assert (p ∉ id <$> ds) as Hout.
  { intros (d & -> & Hd)%list_elem_of_fmap. apply Hp, list_elem_of_fmap_2.
    by eapply getAllDescendants_sound. }
  destruct (TreeQueries.moveNodeAndSubtree fuel s src (Some p))
    as [[[e|moved] s']|] eqn:Hmove.
  - unfold TreeQueries.moveNodeAndSubtree in Hmove.
    rewrite Hn, Hds in Hmove. cbn in Hmove. done.
  - exists s'. unfold TreeService.moveNodeAndSubtree, TreeService.isOwnDescendant.
    rewrite decide_False by congruence. rewrite Hds.
    cbn [fmap option_fmap option_map].
    rewrite (bool_decide_eq_false_2 _ Hout), Hn, decide_False by done.
    rewrite Hmove.
    apply queries_move_rows in Hmove
      as (n' & ds' & Hn' & Hds' & Hrows & _ & ->).
    assert (n' = n) as -> by congruence.
    split; [done|]. intros Hpp.
    apply Hp.
    assert (id <$> rows s' = id <$> rows s) as <-.
    { rewrite Hrows, <- list_fmap_compose. apply list_fmap_ext.
      intros k m _. apply reparent_id. }
    apply (Hpp (reparent (src :: (id <$> ds')) (Some p) n)).
    + rewrite Hrows. by apply list_elem_of_fmap_2.
    + unfold reparent. by rewrite decide_True by (rewrite Hid; by left).
  - unfold TreeQueries.moveNodeAndSubtree in Hmove.
    rewrite Hn, Hds in Hmove. cbn in Hmove. done.
Qed.

Lemma move_to_missing_parent_accepted_witness :
  ∃ s',
    TreeService.moveNodeAndSubtree 5 forest4 3 (Some 9)
    = Some (inr (Some (mkNode 3 "cat" (Some 9))), s')
    ∧ ¬ parents_present (rows s').
Proof.
  apply (move_to_missing_parent_accepted forest4 3 9
           (mkNode 3 "cat" (Some 2)) 5).
  - exact (acyclic_of_decreasing _ forest4_decreasing).
  - reflexivity.
  - apply (bool_decide_unpack _). by vm_compute.
  - discriminate.
  - vm_compute. lia.
Defined.

(** ** The forest of all trees *)

Lemma id_le_total : Total id_le.
Proof. intros a b. unfold id_le. lia. Qed.

Lemma parent_id_le_total : Total parent_id_le.
Proof.
  intros a b. unfold parent_id_le.
  destruct (parent_id a), (parent_id b); first [lia | by left | by right].
Qed.

Lemma parent_id_le_trans : Transitive parent_id_le.
Proof.
  intros a b c. unfold parent_id_le.
  destruct (parent_id a), (parent_id b), (parent_id c); first [lia | done].
Qed.

Lemma rootsOf_None (l : list Node) :
  rootsOf None l = id <$> filter (λ n, parent_id n = None) l.
Proof. unfold rootsOf. f_equal. by apply list_filter_iff. Qed.

(** Among the rows ordered by [parent_id, id], the roots come ordered by
    id. *)
Lemma root_ids_sorted (l : list Node) :
  StronglySorted parent_id_le l → StronglySorted Z.le (rootsOf None l).
Proof.
  rewrite rootsOf_None.
  induction 1 as [|x l _ IH HF]; [constructor|].
  rewrite filter_cons. destruct (decide (parent_id x = None)) as [Hx|]; [|done].
  rewrite fmap_cons. constructor; [done|].
  apply Forall_fmap, Forall_forall. intros y [Hy Hin]%list_elem_of_filter.
  apply (proj1 (Forall_forall _ _) HF) in Hin.
  unfold parent_id_le in Hin. by rewrite Hx, Hy in Hin.
Qed.

Lemma sorted_ids_unique (l l' : list Node) :
  l ≡ₚ l' → id <$> merge_sort id_le l = id <$> merge_sort id_le l'.
Proof.
  intros Hperm. apply (Sorted_unique Z.le).
  - apply (Sorted_fmap _ id_le); [done|].
    apply Sorted_merge_sort, id_le_total.
  - apply (Sorted_fmap _ id_le); [done|].
    apply Sorted_merge_sort, id_le_total.
  - by rewrite !merge_sort_Permutation, Hperm.
Qed.

(** The entries of [trees] when [buildHierarchy] is handed the result of
    [getAllNodes]: the ids of [getRootNodes], in the same order. *)
Lemma rootsOf_getAllNodes s :
  rootsOf None (TreeQueries.getAllNodes s) = id <$> TreeQueries.getRootNodes s.
Proof.
  unfold TreeQueries.getAllNodes, TreeQueries.getRootNodes.
  apply (Sorted_unique Z.le).
  - apply StronglySorted_Sorted, root_ids_sorted, StronglySorted_merge_sort.
    + apply parent_id_le_trans.
    + apply parent_id_le_total.
  - apply (Sorted_fmap _ id_le); [done|].
    apply Sorted_merge_sort, id_le_total.
  - by rewrite rootsOf_None, !merge_sort_Permutation.
Qed.

Lemma getAllNodes_NoDup s :
  NoDup (id <$> rows s) → NoDup (id <$> TreeQueries.getAllNodes s).
Proof. unfold TreeQueries.getAllNodes. by rewrite merge_sort_Permutation. Qed.

(** X21.  In a store with unique ids, on a call stack that holds as many
    nested calls as the table has rows, [getAllTrees] returns one tree for
    each row without parent, in the order of [getRootNodes], that is by
    ascending id, and in each tree every children array is ascending by
    id. *)
Theorem getAllTrees_roots (stack : nat) (s : Store) :
  NoDup (id <$> rows s) →
  (length (rows s) ≤ stack)%nat →
  ∃ trees,
    TreeService.getAllTrees stack s = inr trees
    ∧ tid <$> trees = id <$> TreeQueries.getRootNodes s
    ∧ Forall children_sorted trees.
Proof.
  intros Hnd%getAllNodes_NoDup Hstack.
  destruct (buildHierarchy_returns stack _ None Hnd) as [trees Htrees].
  { unfold TreeQueries.getAllNodes.
    by rewrite (Permutation_length (merge_sort_Permutation _ _)). }
  exists trees. unfold TreeService.getAllTrees. rewrite Htrees.
  split; [done|].
  apply buildHierarchy_sorted in Htrees as [Hids Hsorted].
  by rewrite Hids, rootsOf_getAllNodes.
Qed.

Lemma getAllTrees_roots_witness :
  ∃ trees,
    TreeService.getAllTrees 4 forest4 = inr trees
    ∧ tid <$> trees = id <$> TreeQueries.getRootNodes forest4
    ∧ Forall children_sorted trees.
Proof.
  apply (getAllTrees_roots 4 forest4); [exact forest4_NoDup|].
  vm_compute. lia.
Defined.

(** X22.  [getAllTrees] does not depend on the order in which the rows lie
    in the table: two stores with unique ids that hold the same rows give the
    same result, on any call stack. *)
Theorem getAllTrees_row_order (stack : nat) (s t : Store) :
  NoDup (id <$> rows s) →
  rows s ≡ₚ rows t →
  TreeService.getAllTrees stack s = TreeService.getAllTrees stack t.
Proof.
  intros Hnd Hperm. unfold TreeService.getAllTrees.
  destruct (buildHierarchy_perm_rel stack (TreeQueries.getAllNodes s)
              (TreeQueries.getAllNodes t) None) as [_ Heq].
  - by apply getAllNodes_NoDup.
  - unfold TreeQueries.getAllNodes. by rewrite !merge_sort_Permutation.
  - rewrite Heq; [done|]. rewrite !rootsOf_getAllNodes.
    unfold TreeQueries.getRootNodes. apply sorted_ids_unique.
    by rewrite Hperm.
Qed.

Lemma getAllTrees_row_order_witness :
  TreeService.getAllTrees 4 forest4
  = TreeService.getAllTrees 4
      (mkStore [mkNode 4 "frog" (Some 1); mkNode 3 "cat" (Some 2);
                mkNode 2 "bear" (Some 1); mkNode 1 "root" None] 4).
Proof.
  apply (getAllTrees_row_order 4 forest4
           (mkStore [mkNode 4 "frog" (Some 1); mkNode 3 "cat" (Some 2);
                     mkNode 2 "bear" (Some 1); mkNode 1 "root" None] 4)).
  - exact forest4_NoDup.
  - change (rows forest4)
      with (reverse [mkNode 4 "frog" (Some 1); mkNode 3 "cat" (Some 2);
                     mkNode 2 "bear" (Some 1); mkNode 1 "root" None]).
    apply reverse_Permutation.
Defined.

(** ** The tree below one node *)

Lemma filter_ext_in {A} (P Q : A → Prop) `{!∀ x, Decision (P x)}
    `{!∀ x, Decision (Q x)} (l : list A) :
  (∀ x, x ∈ l → P x ↔ Q x) → filter P l = filter Q l.
Proof.
  induction l as [|x l IH]; intros HPQ; [done|].
  rewrite !filter_cons, IH by (intros y Hy; apply HPQ; by right).
  destruct (decide (P x)) as [HP|HP], (decide (Q x)) as [HQ|HQ]; try done;
    exfalso; apply (HPQ x (list_elem_of_here _ _)) in HP || apply HP;
    by try apply (HPQ x (list_elem_of_here _ _)).
Qed.

Lemma tc_parent_step_subseteq ns ns' a b :
  (∀ n, n ∈ ns → is_Some (parent_id n) → n ∈ ns') →
  tc (parent_step ns) a b → tc (parent_step ns') a b.
Proof.
  intros Hsub.
  induction 1 as [x y (n & Hn & Hid & Hp)|x y z (n & Hn & Hid & Hp) _ IH].
  - apply tc_once. exists n. split; [|done]. apply Hsub; [done|by rewrite Hp].
  - eapply tc_l; [|exact IH]. exists n. split; [|done].
    apply Hsub; [done|by rewrite Hp].
Qed.

Lemma parents_first_present known ds d :
  parents_first known ds → d ∈ ds →
  ∃ p, parent_id d = Some p ∧ (p ∈ known ∨ p ∈ id <$> ds).
Proof.
  revert known. induction ds as [|d0 ds IH]; intros known Hpf Hd;
    [by apply elem_of_nil in Hd|].
  destruct Hpf as [(p & Hp & Hin) Hrest].
  apply elem_of_cons in Hd as [->|Hd]; [by eauto|].
  destruct (IH _ Hrest Hd) as (q & Hq & [[->|Hk]%elem_of_cons|Hk]).
  - exists (id d0). split; [done|]. right. rewrite fmap_cons. by left.
  - eauto.
  - exists q. split; [done|]. right. rewrite fmap_cons. by right.
Qed.

(** The node list that [getTreeByRootId] and [getNodeWithSubtree] hand to
    [buildHierarchy], with the node itself made a root, is a healthy node
    set. *)
Lemma subtree_forest_ok s fuel n ds :
  NoDup (id <$> rows s) → acyclic (rows s) → n ∈ rows s →
  TreeQueries.getAllDescendants fuel s (id n) = Some ds →
  forest_ok (mkNode (id n) (label n) None :: ds)
  ∧ id n ∉ id <$> ds.
Proof.
  intros Hnd Hacyc Hn Hds.
  assert (id n ∉ id <$> ds) as Hfresh.
  { intros (d & Hid & Hd)%list_elem_of_fmap.
    destruct (getAllDescendants_sound _ _ _ _ _ Hds Hd) as [_ Htc].
    rewrite <- Hid in Htc. by apply (Hacyc (id n)). }
  split; [|done]. split; [|split].
  - rewrite fmap_cons. constructor; [done|].
    apply NoDup_fmap_2_strong; [|by eapply getAllDescendants_NoDup].
    intros x y Hx Hy. apply (node_unique (rows s)); [done|..].
    + by eapply getAllDescendants_sound.
    + by eapply getAllDescendants_sound.
  - intros m p [->|Hm]%elem_of_cons Hp; [done|]. rewrite fmap_cons.
    destruct (parents_first_present [id n] ds m) as (q & Hq & Hcase);
      [by eapply getAllDescendants_parents_first|done|].
    assert (q = p) as -> by congruence.
    destruct Hcase as [->%list_elem_of_singleton|Hin]; [by left|by right].
  - intros a Ha. apply (Hacyc a).
    eapply tc_parent_step_subseteq; [|exact Ha].
    intros m [->|Hm]%elem_of_cons [q Hq]; [done|].
    by eapply getAllDescendants_sound.
Qed.

(** The forest built from a healthy node set on a stack that holds as many
    nested calls as the set has nodes: it holds every node once, and its
    trees are the roots in input order. *)
Lemma buildHierarchy_forest (stack : nat) (ns : list Node) :
  forest_ok ns → (length ns ≤ stack)%nat →
  ∃ forest,
    TreeService.buildHierarchy stack ns None = Some forest
    ∧ sum_list_with TreeService.countNodesInTree forest = length ns
    ∧ tid <$> forest = rootsOf None ns.
Proof.
  intros (Hnd & Hpp & Hacyc) Hstack. by apply buildHierarchy_counted.
Qed.

(** The children array of a tree that [buildHierarchy] returns. *)
Lemma buildHierarchy_children stack ns r forest t :
  NoDup (id <$> ns) →
  TreeService.buildHierarchy stack ns r = Some forest → t ∈ forest →
  tlabel <$> Some t = labelOf ns (tid t)
  ∧ tid <$> children t = merge_sort Z.le (kidsOf r ns (tid t)).
Proof.
  intros Hnd Hf Ht. destruct (decide (ns = [])) as [->|Hne].
  { injection Hf as <-. by apply elem_of_nil in Ht. }
  rewrite buildHierarchy_unfold, attach_trees in Hf by done.
  cbn [app] in Hf.
  destruct stack as [|f]; [done|].
  rewrite sortChildrenRecursively_S in Hf.
  apply mapM_Some in Hf.
  induction Hf as [|i t' ids forest Hi _ IH]; [by apply elem_of_nil in Ht|].
  apply elem_of_cons in Ht as [->|Ht]; [|auto].
  rewrite buildHierarchy_heap in Hi.
  destruct (labelOf ns i) as [l|] eqn:Hl; [|done].
  cbn [fmap option_fmap option_map mbind option_bind
       TreeService.o_children TreeService.o_label] in Hi.
  destruct (kidsOf r ns i) as [|c cs] eqn:Hcs.
  { injection Hi as <-. cbn [tid tlabel children]. by rewrite Hl, Hcs. }
  destruct (TreeService.sortChildrenRecursively f _ _) as [kids|] eqn:Hk;
    [|done].
  cbn [mbind option_bind] in Hi. injection Hi as <-.
  cbn [tid tlabel children]. rewrite Hl, Hcs. split; [done|].
  by apply sortChildrenRecursively_sorted in Hk as [? _].
Qed.

(** A node and its descendants are rows of the table, each once. *)
Lemma subtree_length s fuel n ds :
  acyclic (rows s) → NoDup (id <$> rows s) → n ∈ rows s →
  TreeQueries.getAllDescendants fuel s (id n) = Some ds →
  (S (length ds) ≤ length (rows s))%nat.
Proof.
  intros Hacyc Hnd Hn Hds. change (S (length ds)) with (length (n :: ds)).
  apply submseteq_length, NoDup_submseteq.
  - constructor; [|by eapply getAllDescendants_NoDup].
    intros Hin. apply (Hacyc (id n)). by eapply getAllDescendants_sound.
  - intros m [->|Hm]%elem_of_cons; [done|].
    by eapply getAllDescendants_sound.
Qed.

Lemma subtree_hierarchy stack s fuel n ds :
  NoDup (id <$> rows s) → acyclic (rows s) → n ∈ rows s →
  TreeQueries.getAllDescendants fuel s (id n) = Some ds →
  (length (rows s) ≤ stack)%nat →
  ∃ t,
    TreeService.buildHierarchy stack
      (mkNode (id n) (label n) None :: ds) None
    = Some [t]
    ∧ tid t = id n ∧ tlabel t = label n
    ∧ TreeService.countNodesInTree t = S (length ds)
    ∧ tid <$> children t
      = id <$> TreeQueries.getChildrenByParentId s (id n).
Proof.
  intros Hnd Hacyc Hn Hds Hstack.
  destruct (subtree_forest_ok s fuel n ds Hnd Hacyc Hn Hds) as [Hok Hfresh].
  pose proof (subtree_length s fuel n ds Hacyc Hnd Hn Hds) as Hlen.
  set (n0 := mkNode (id n) (label n) None) in *.
  destruct (buildHierarchy_forest stack (n0 :: ds) Hok)
    as (forest & Hforest & Hcount & Hroots); [simpl; lia|].
  pose proof (getAllDescendants_rows _ _ _ _ Hds) as Hrows.
  assert (filter (λ m, parent_id m = None) ds = []) as Hnone.
  { apply filter_nil_intro. intros d Hd Hp.
    apply (proj1 (Forall_forall _ _) Hrows) in Hd as [_ [q Hq]]. congruence. }
  rewrite rootsOf_None, filter_cons_True, Hnone in Hroots by done.
  destruct forest as [|t [|t' forest]]; [done| |done].
  cbn in Hroots. injection Hroots as Htid.
  exists t. split; [done|]. split; [done|].
  destruct Hok as (Hnd0 & _ & _).
  destruct (buildHierarchy_children stack (n0 :: ds) None [t] t Hnd0 Hforest)
    as [Hlabel Hkids]; [by left|].
  split; [|split].
  - rewrite Htid in Hlabel. unfold labelOf in Hlabel.
    rewrite filter_cons_True in Hlabel by done.
    rewrite (filter_nil_intro _ ds) in Hlabel.
    + cbn in Hlabel. by injection Hlabel.
    + intros d Hd Hid. apply Hfresh. rewrite <- Hid.
      by apply list_elem_of_fmap_2.
  - cbn in Hcount. lia.
  - rewrite Hkids, Htid. apply (Sorted_unique Z.le).
    + apply Sorted_merge_sort; apply _.
    + apply (Sorted_fmap _ id_le); [done|].
      apply Sorted_merge_sort, id_le_total.
    + unfold TreeQueries.getChildrenByParentId.
      rewrite !merge_sort_Permutation. unfold kidsOf.
      apply fmap_Permutation. rewrite filter_cons_False by (by intros [? _]).
      apply NoDup_Permutation.
      * apply NoDup_filter. by eapply getAllDescendants_NoDup.
      * apply NoDup_filter. by apply NoDup_fmap_1 in Hnd.
      * intros d. rewrite !list_elem_of_filter. split.
        -- intros [[_ Hp] Hd]. split; [done|].
           by eapply getAllDescendants_sound.
        -- intros [Hp Hd]. split; [by rewrite Hp|].
           by eapply getAllDescendants_children.
Qed.

(** X23.  In a store with unique ids and no parent cycle, on a call stack
    that holds as many nested calls as the table has rows,
    [getTreeByRootId] of a row without parent returns a tree whose root
    carries the id and label of the row, whose children are the children of
    the row in the order of [getChildrenByParentId], and which holds, by
    [countNodesInTree], one node more than [getSubtreeSize] counts. *)
Theorem getTreeByRootId_root (s : Store) (rootId : Z) (n : Node)
    (stack fuel : nat) :
  NoDup (id <$> rows s) →
  acyclic (rows s) →
  TreeQueries.getNodeById s rootId = Some n →
  parent_id n = None →
  (length (rows s) ≤ stack)%nat →
  (length (rows s) < fuel)%nat →
  ∃ t size,
    TreeService.getTreeByRootId stack fuel s rootId = Some (inr (Some t))
    ∧ TreeQueries.getSubtreeSize fuel s rootId = Some size
    ∧ tid t = rootId ∧ tlabel t = label n
    ∧ TreeService.countNodesInTree t = S size
    ∧ tid <$> children t
      = id <$> TreeQueries.getChildrenByParentId s rootId.
Proof.
  intros Hnd Hacyc Hget Hroot Hstack Hfuel.
  destruct (getNodeById_Some _ _ _ Hget) as [Hn <-].
  destruct (getAllDescendants_returns s Hacyc fuel (id n) Hfuel) as [ds Hds].
  destruct (subtree_hierarchy stack s fuel n ds Hnd Hacyc Hn Hds Hstack)
    as (t & Ht & Htid & Hlabel & Hcount & Hkids).
  assert (mkNode (id n) (label n) None = n) as Heq
    by (destruct n; simpl in *; by subst).
  rewrite Heq in Ht.
  exists t, (length ds). unfold TreeService.getTreeByRootId.
  rewrite Hget, Hds. cbn [mbind option_bind]. rewrite Ht.
  unfold TreeQueries.getSubtreeSize. rewrite Hds. done.
Qed.

Lemma getTreeByRootId_root_witness :
  ∃ t size,
    TreeService.getTreeByRootId 4 5 forest4 1 = Some (inr (Some t))
    ∧ TreeQueries.getSubtreeSize 5 forest4 1 = Some size
    ∧ tid t = 1 ∧ tlabel t = label (mkNode 1 "root" None)
    ∧ TreeService.countNodesInTree t = S size
    ∧ tid <$> children t
      = id <$> TreeQueries.getChildrenByParentId forest4 1.
Proof.
  apply (getTreeByRootId_root forest4 1 (mkNode 1 "root" None) 4 5).
  - exact forest4_NoDup.
  - exact (acyclic_of_decreasing _ forest4_decreasing).
  - reflexivity.
  - reflexivity.
  - vm_compute. lia.
  - vm_compute. lia.
Defined.

(** Building with the node's own parent as [rootParentId] gives what
    building with [null] gives once the node is made a root, as long as no
    other node of the list has that parent. *)
Lemma buildHierarchy_reroot stack n ds :
  (∀ d, d ∈ ds → is_Some (parent_id d) ∧ parent_id d ≠ parent_id n) →
  TreeService.buildHierarchy stack (n :: ds) (parent_id n)
  = TreeService.buildHierarchy stack
      (mkNode (id n) (label n) None :: ds) None.
Proof.
  intros Hds. rewrite !buildHierarchy_unfold, !attach_trees by done.
  cbn [app length].
  assert (rootsOf (parent_id n) (n :: ds)
          = rootsOf None (mkNode (id n) (label n) None :: ds)) as ->.
  { unfold rootsOf. rewrite !filter_cons_True by done.
    rewrite !(filter_nil_intro _ ds); [done|..].
    - intros d [[q Hq] _]%Hds. by rewrite Hq.
    - by intros d [_ ?]%Hds. }
  apply sortChildrenRecursively_equiv. intros i.
  rewrite !buildHierarchy_heap.
  assert (labelOf (n :: ds) i
          = labelOf (mkNode (id n) (label n) None :: ds) i) as <-.
  { unfold labelOf. rewrite !filter_cons. cbn [id].
    destruct (decide (id n = i)); [|done].
    rewrite !last_cons. by destruct (last _). }
  destruct (labelOf (n :: ds) i); constructor.
  cbn [TreeService.o_label TreeService.o_children]. split; [done|].
  rewrite !kidsOf_cons, !decide_False by (by intros [? _]).
  unfold kidsOf. erewrite filter_ext_in; [done|].
  intros d [[q Hq] Hne]%Hds. rewrite Hq in Hne |- *.
  split; intros [_ ?]; by split.
Qed.

(** X24.  In a store with unique ids and no parent cycle, on a call stack
    that holds as many nested calls as the table has rows,
    [getNodeWithSubtree] of a row, root or not, returns a tree whose root
    carries the id and label of the row, whose children are the children of
    the row in the order of [getChildrenByParentId], and which holds one
    node more than [getSubtreeSize] counts; for a row without parent it is
    the tree that [getTreeByRootId] returns. *)
Theorem getNodeWithSubtree_subtree (s : Store) (nodeId : Z) (n : Node)
    (stack fuel : nat) :
  NoDup (id <$> rows s) →
  acyclic (rows s) →
  TreeQueries.getNodeById s nodeId = Some n →
  (length (rows s) ≤ stack)%nat →
  (length (rows s) < fuel)%nat →
  ∃ t size,
    TreeService.getNodeWithSubtree stack fuel s nodeId
    = Some (inr (Some t))
    ∧ TreeQueries.getSubtreeSize fuel s nodeId = Some size
    ∧ tid t = nodeId ∧ tlabel t = label n
    ∧ TreeService.countNodesInTree t = S size
    ∧ tid <$> children t
      = id <$> TreeQueries.getChildrenByParentId s nodeId
    ∧ (parent_id n = None →
       TreeService.getTreeByRootId stack fuel s nodeId
       = Some (inr (Some t))).
Proof.
  intros Hnd Hacyc Hget Hstack Hfuel.
  destruct (getNodeById_Some _ _ _ Hget) as [Hn <-].
  destruct (getAllDescendants_returns s Hacyc fuel (id n) Hfuel) as [ds Hds].
  destruct (subtree_hierarchy stack s fuel n ds Hnd Hacyc Hn Hds Hstack)
    as (t & Ht & Htid & Hlabel & Hcount & Hkids).
  assert (∀ d, d ∈ ds → is_Some (parent_id d) ∧ parent_id d ≠ parent_id n)
    as Hother.
  { intros d Hd.
    pose proof (getAllDescendants_rows _ _ _ _ Hds) as Hrows.
    destruct (proj1 (Forall_forall _ _) Hrows d Hd) as [Hin [q Hq]].
    split; [by rewrite Hq|]. rewrite Hq. intros Hp.
    destruct (getAllDescendants_sound _ _ _ _ _ Hds Hd) as [_ Htc].
    assert (parent_step (rows s) (id n) q) as Hstep by (by exists n).
    assert (parent_step (rows s) (id d) q) as Hstep' by (by exists d).
    apply (Hacyc (id n)).
    destruct (tc_after_step (rows s) Hnd _ _ _ Hstep' Htc) as [Heq|Htc'].
    - apply tc_once. by rewrite Heq in Hstep |- *.
    - by eapply tc_l. }
  rewrite <- (buildHierarchy_reroot stack n ds Hother) in Ht.
  exists t, (length ds). unfold TreeService.getNodeWithSubtree.
  rewrite Hget, Hds. cbn [mbind option_bind]. rewrite Ht.
  unfold TreeQueries.getSubtreeSize. rewrite Hds.
  repeat (split; [done|]).
  intros Hroot. unfold TreeService.getTreeByRootId.
  rewrite Hget, Hds. cbn [mbind option_bind].
  rewrite Hroot in Ht. by rewrite Ht.
Qed.

Lemma getNodeWithSubtree_subtree_witness :
  ∃ t size,
    TreeService.getNodeWithSubtree 4 5 forest4 2 = Some (inr (Some t))
    ∧ TreeQueries.getSubtreeSize 5 forest4 2 = Some size
    ∧ tid t = 2 ∧ tlabel t = label (mkNode 2 "bear" (Some 1))
    ∧ TreeService.countNodesInTree t = S size
    ∧ tid <$> children t
      = id <$> TreeQueries.getChildrenByParentId forest4 2
    ∧ (parent_id (mkNode 2 "bear" (Some 1)) = None →
       TreeService.getTreeByRootId 4 5 forest4 2 = Some (inr (Some t))).
Proof.
  apply (getNodeWithSubtree_subtree forest4 2 (mkNode 2 "bear" (Some 1)) 4 5).
  - exact forest4_NoDup.
  - exact (acyclic_of_decreasing _ forest4_decreasing).
  - reflexivity.
  - vm_compute. lia.
  - vm_compute. lia.
Defined.

(** ** Sizes and depths *)

Lemma filter_all {A} (P : A → Prop) `{!∀ x, Decision (P x)} (l : list A) :
  (∀ x, x ∈ l → P x) → filter P l = l.
Proof.
  induction l as [|x l IH]; intros HP; [done|].
  rewrite filter_cons_True by (apply HP; by left).
  f_equal. apply IH. intros y Hy. apply HP. by right.
Qed.

(** X25.  In a store with unique ids and no parent cycle, [deleteNode] of
    the id of a row returns [getSubtreeSize] of it plus one.  On an id that
    no row has, in a table without orphans, it returns 0 and leaves the
    table as it was. *)
Theorem deleteNode_count (s : Store) (i : Z) (fuel : nat) :
  NoDup (id <$> rows s) →
  acyclic (rows s) →
  (length (rows s) < fuel)%nat →
  ∃ changes s' size,
    TreeQueries.deleteNode fuel s i = Some (changes, s')
    ∧ TreeQueries.getSubtreeSize fuel s i = Some size
    ∧ (i ∈ id <$> rows s → changes = S size)
    ∧ (i ∉ id <$> rows s → parents_present (rows s) →
       changes = 0%nat ∧ s' = s).
Proof.
  intros Hnd Hacyc Hfuel.
  destruct (getAllDescendants_returns s Hacyc fuel i Hfuel) as [ds Hds].
  unfold TreeQueries.deleteNode, TreeQueries.getSubtreeSize. rewrite Hds.
  cbn [mbind option_bind fmap option_fmap option_map].
  eexists _, _, _. split; [done|]. split; [done|]. split.
  - intros (n & -> & Hn)%list_elem_of_fmap.
    change (S (length ds)) with (length (n :: ds)).
    apply Permutation_length, NoDup_Permutation.
    + apply NoDup_filter. by apply NoDup_fmap_1 in Hnd.
    + constructor; [|by eapply getAllDescendants_NoDup].
      intros Hin. apply (Hacyc (id n)).
      by eapply getAllDescendants_sound.
    + intros m. rewrite list_elem_of_filter, !elem_of_cons. split.
      * intros [[Hid|(d & Hid & Hd)%list_elem_of_fmap] Hm].
        -- left. by apply (node_unique (rows s)).
        -- right. assert (m = d) as ->; [|done].
           apply (node_unique (rows s)); [done..| |done].
           by eapply getAllDescendants_sound.
      * intros [->|Hm].
        -- split; [by left|done].
        -- split; [right; by apply list_elem_of_fmap_2|].
           by eapply getAllDescendants_sound.
  - intros Hi Hpp.
    assert (ds = []) as ->.
    { destruct ds as [|d ds]; [done|]. exfalso.
      destruct (parents_first_present [i] (d :: ds) d) as (p & Hp & Hcase);
        [by eapply getAllDescendants_parents_first|by left|].
      destruct (getAllDescendants_sound _ _ _ _ _ Hds (list_elem_of_here _ _))
        as [Hd _].
      destruct Hcase as [->%list_elem_of_singleton|Hin].
      - by apply Hi, (Hpp d).
      - apply Hi. destruct (getAllDescendants_sound _ _ _ _ _ Hds
                              (list_elem_of_here _ _)) as [_ Htc].
        destruct (tc_parent_step_target _ _ _ Htc) as (m & Hm & Hmp).
        by apply (Hpp m). }
    cbn [fmap list_fmap]. split.
    + rewrite filter_nil_intro; [done|].
      intros m Hm Him%list_elem_of_singleton. apply Hi. rewrite <- Him.
      by apply list_elem_of_fmap_2.
    + rewrite filter_all; [by destruct s|].
      intros m Hm Him%list_elem_of_singleton. apply Hi. rewrite <- Him.
      by apply list_elem_of_fmap_2.
Qed.

Lemma deleteNode_count_witness :
  ∃ changes s' size,
    TreeQueries.deleteNode 5 forest4 2 = Some (changes, s')
    ∧ TreeQueries.getSubtreeSize 5 forest4 2 = Some size
    ∧ (2 ∈ id <$> rows forest4 → changes = S size)
    ∧ (2 ∉ id <$> rows forest4 → parents_present (rows forest4) →
       changes = 0%nat ∧ s' = forest4).
Proof.
  apply (deleteNode_count forest4 2 5).
  - exact forest4_NoDup.
  - exact (acyclic_of_decreasing _ forest4_decreasing).
  - vm_compute. lia.
Defined.

(** The loop over the children adds, for each child, one and the size of
    what the recursive call returned. *)
Lemma descend_sizes (recur recur' : Z → option (list Node)) cs ds :
  (∀ c r, recur c = Some r → recur' c = Some r) →
  TreeQueries.descend recur cs = Some ds →
  ∃ sizes,
    mapM (λ i, length <$> recur' i) (id <$> cs) = Some sizes
    ∧ length ds = sum_list (S <$> sizes).
Proof.
  intros Hrec. revert ds. induction cs as [|c cs IH]; intros ds Hds.
  - simplify_eq/=. by exists [].
  - simpl in Hds. destruct (recur (id c)) as [cd|] eqn:Hcd; [|done].
    simpl in Hds.
    destruct (TreeQueries.descend recur cs) as [more|] eqn:Hmore; [|done].
    injection Hds as <-.
    destruct (IH more eq_refl) as (sizes & Hsizes & Hlen).
    exists (length cd :: sizes). split.
    + apply mapM_Some. rewrite fmap_cons. constructor.
      * by rewrite (Hrec _ _ Hcd).
      * by apply mapM_Some.
    + cbn [length]. rewrite length_app, Hlen. done.
Qed.

(** X26.  In a store without parent cycle, [getSubtreeSize] of a node is
    the sum, over its children in the order of [getChildrenByParentId], of
    one plus their own [getSubtreeSize]. *)
Theorem getSubtreeSize_children (s : Store) (nodeId : Z) (fuel : nat) :
  acyclic (rows s) →
  (length (rows s) < fuel)%nat →
  ∃ size sizes,
    TreeQueries.getSubtreeSize fuel s nodeId = Some size
    ∧ mapM (TreeQueries.getSubtreeSize fuel s)
        (id <$> TreeQueries.getChildrenByParentId s nodeId)
      = Some sizes
    ∧ size = sum_list (S <$> sizes).
Proof.
  intros Hacyc Hfuel.
  destruct (getAllDescendants_returns s Hacyc fuel nodeId Hfuel) as [ds Hds].
  destruct fuel as [|f]; [lia|]. pose proof Hds as Hds'. simpl in Hds'.
  destruct (descend_sizes _ (TreeQueries.getAllDescendants (S f) s) _ _
              (λ c r Hr, getAllDescendants_mono f (S f) s c r Hr
                           (Nat.le_succ_diag_r f)) Hds')
    as (sizes & Hsizes & Hlen).
  exists (length ds), sizes. unfold TreeQueries.getSubtreeSize at 1.
  rewrite Hds. split; [done|]. split; [exact Hsizes|done].
Qed.

Lemma getSubtreeSize_children_witness :
  ∃ size sizes,
    TreeQueries.getSubtreeSize 5 forest4 1 = Some size
    ∧ mapM (TreeQueries.getSubtreeSize 5 forest4)
        (id <$> TreeQueries.getChildrenByParentId forest4 1)
      = Some sizes
    ∧ size = sum_list (S <$> sizes).
Proof.
  apply (getSubtreeSize_children forest4 1 5).
  - exact (acyclic_of_decreasing _ forest4_decreasing).
  - vm_compute. lia.
Defined.

Lemma getAncestors_loop_mono fuel s cn anc :
  TreeQueries.getAncestors_loop fuel s cn = Some anc →
  TreeQueries.getAncestors_loop (S fuel) s cn = Some anc.
Proof.
  revert cn anc. induction fuel as [|f IH]; intros cn anc Hanc; [done|].
  destruct cn as [cn|]; [|done].
  rewrite getAncestors_loop_S in Hanc. rewrite getAncestors_loop_S.
  destruct (parent_id cn) as [pid|]; [|done].
  destruct (TreeQueries.getNodeById s pid) as [par|]; [|done].
  destruct (TreeQueries.getAncestors_loop f s (Some par)) as [rest|] eqn:Hrest;
    [|done].
  by rewrite (IH _ _ Hrest).
Qed.

(** X27.  In a store without parent cycle, [getNodeDepth] of a row is 0
    when the row has no parent or a parent that no row has, and otherwise
    one more than [getNodeDepth] of its parent. *)
Theorem getNodeDepth_parent (s : Store) (nodeId : Z) (n : Node)
    (fuel : nat) :
  acyclic (rows s) →
  TreeQueries.getNodeById s nodeId = Some n →
  (length (rows s) < fuel)%nat →
  ∃ d,
    TreeQueries.getNodeDepth fuel s nodeId = Some d
    ∧ match parent_id n with
      | None => d = 0%nat
      | Some p =>
          if decide (p ∈ id <$> rows s)
          then ∃ dp, TreeQueries.getNodeDepth fuel s p = Some dp ∧ d = S dp
          else d = 0%nat
      end.
Proof.
  intros Hacyc Hn Hfuel.
  destruct (getAncestors_returns s fuel nodeId Hacyc Hfuel) as [anc Hanc].
  exists (length anc). unfold TreeQueries.getNodeDepth at 1. rewrite Hanc.
  split; [done|].
  unfold TreeQueries.getAncestors in Hanc. rewrite Hn in Hanc.
  destruct fuel as [|f]; [done|]. rewrite getAncestors_loop_S in Hanc.
  destruct (parent_id n) as [p|]; [|by simplify_eq].
  destruct (decide (p ∈ id <$> rows s)) as [Hp|Hp].
  - apply getNodeById_is_Some in Hp as [par Hpar]. rewrite Hpar in Hanc.
    destruct (TreeQueries.getAncestors_loop f s (Some par)) as [rest|]
      eqn:Hrest; [|done].
    cbn in Hanc. injection Hanc as <-. exists (length rest).
    unfold TreeQueries.getNodeDepth, TreeQueries.getAncestors.
    by rewrite Hpar, (getAncestors_loop_mono _ _ _ _ Hrest).
  - apply getNodeById_None in Hp. rewrite Hp in Hanc. by simplify_eq.
Qed.

Lemma getNodeDepth_parent_witness :
  ∃ d,
    TreeQueries.getNodeDepth 5 forest4 3 = Some d
    ∧ match parent_id (mkNode 3 "cat" (Some 2)) with
      | None => d = 0%nat
      | Some p =>
          if decide (p ∈ id <$> rows forest4)
          then ∃ dp, TreeQueries.getNodeDepth 5 forest4 p = Some dp
                     ∧ d = S dp
          else d = 0%nat
      end.
Proof.
  apply (getNodeDepth_parent forest4 3 (mkNode 3 "cat" (Some 2)) 5).
  - exact (acyclic_of_decreasing _ forest4_decreasing).
  - reflexivity.
  - vm_compute. lia.
Defined.

(** ** Nodes of one level *)

(** X28.  On a healthy table, [getNodesAtDepth(depth)] returns exactly the
    rows whose [getNodeDepth] is [depth], for depth 0, which it answers with
    [getRootNodes], as for any other number, for which it scans all rows. *)
Theorem getNodesAtDepth_spec (s : Store) (depth : Z) (fuel : nat) :
  forest_ok (rows s) →
  (length (rows s) < fuel)%nat →
  ∃ ns,
    TreeQueries.getNodesAtDepth fuel s depth = Some ns
    ∧ ∀ n, n ∈ ns
           ↔ n ∈ rows s
             ∧ ∃ d, TreeQueries.getNodeDepth fuel s (id n) = Some d
                    ∧ Z.of_nat d = depth.
Proof.
  intros (Hnd & Hpp & Hacyc) Hfuel. unfold TreeQueries.getNodesAtDepth.
  destruct (decide (depth = 0)) as [->|Hne].
  - eexists. split; [done|]. intros n.
    unfold TreeQueries.getRootNodes.
    rewrite merge_sort_Permutation, list_elem_of_filter.
    split.
    + intros [Hp Hn]. split; [done|]. exists 0%nat. split; [|done].
      unfold TreeQueries.getNodeDepth, TreeQueries.getAncestors,
        TreeQueries.getNodeById.
      rewrite (head_filter_NoDup _ _ Hnd Hn).
      destruct fuel as [|f]; [lia|]. by rewrite getAncestors_loop_S, Hp.
    + intros (Hn & d & Hd & Hzero). split; [|done].
      unfold TreeQueries.getNodeDepth, TreeQueries.getAncestors,
        TreeQueries.getNodeById in Hd.
      rewrite (head_filter_NoDup _ _ Hnd Hn) in Hd.
      destruct fuel as [|f]; [lia|]. rewrite getAncestors_loop_S in Hd.
      destruct (parent_id n) as [p|] eqn:Hp; [exfalso|done].
      pose proof (Hpp n p Hn Hp) as [par Hpar]%getNodeById_is_Some.
      rewrite Hpar in Hd.
      destruct (TreeQueries.getAncestors_loop f s (Some par)); [|done].
      cbn in Hd. injection Hd as <-. simpl in Hzero. lia.
  - assert (∀ l : list Node,
              ∃ ns,
                (fix loop (allNodes : list Node) : option (list Node) :=
                   match allNodes with
                   | [] => Some []
                   | node :: rest =>
                       nodeDepth ← TreeQueries.getNodeDepth fuel s (id node);
                       nodesAtDepth ← loop rest;
                       Some (if decide (Z.of_nat nodeDepth = depth)
                             then node :: nodesAtDepth else nodesAtDepth)
                   end) l = Some ns
                ∧ ∀ n, n ∈ ns
                       ↔ n ∈ l
                         ∧ ∃ d, TreeQueries.getNodeDepth fuel s (id n) = Some d
                                ∧ Z.of_nat d = depth) as Hloop.
    { induction l as [|node rest (ns & Hns & Hin)].
      - exists []. split; [done|]. intros n. split.
        + by intros ?%elem_of_nil.
        + by intros [?%elem_of_nil _].
      - destruct (getAncestors_returns s fuel (id node) Hacyc Hfuel)
          as [anc Hanc].
        assert (TreeQueries.getNodeDepth fuel s (id node) = Some (length anc))
          as Hd by (unfold TreeQueries.getNodeDepth; by rewrite Hanc).
        rewrite Hd, Hns. cbn [mbind option_bind].
        eexists. split; [done|]. intros n.
        destruct (decide (Z.of_nat (length anc) = depth)) as [Heq|Hneq].
        + rewrite !elem_of_cons, Hin. split.
          * intros [->|[Hn Hdn]]; [|by auto]. split; [by left|]. eauto.
          * intros [[->|Hn] Hdn]; [by left|by auto].
        + rewrite elem_of_cons, Hin. split.
          * intros [Hn Hdn]. by auto.
          * intros [[->|Hn] Hdn]; [|done].
            destruct Hdn as (d & Hd' & Hdepth). congruence. }
    destruct (Hloop (TreeQueries.getAllNodes s)) as (ns & Hns & Hin).
    exists ns. split; [done|]. intros n.
    by rewrite Hin, elem_of_getAllNodes.
Qed.

Lemma getNodesAtDepth_spec_witness :
  ∃ ns,
    TreeQueries.getNodesAtDepth 5 forest4 1 = Some ns
    ∧ ∀ n, n ∈ ns
           ↔ n ∈ rows forest4
             ∧ ∃ d, TreeQueries.getNodeDepth 5 forest4 (id n) = Some d
                    ∧ Z.of_nat d = 1.
Proof.
  apply (getNodesAtDepth_spec forest4 1 5).
  - exact forest4_forest_ok.
  - vm_compute. lia.
Defined.

(** ** The structure check *)

Lemma nodeMap_lookup_None (ns : list Node) (m : gmap Z Node) k :
  k ∉ id <$> ns →
  foldl (λ m node, <[id node := node]> m) m ns !! k = m !! k.
Proof.
  revert m. induction ns as [|n ns IH]; intros m Hk; [done|].
  rewrite fmap_cons in Hk. apply not_elem_of_cons in Hk as [Hne Hk].
  cbn [foldl]. rewrite IH by done. by rewrite lookup_insert_ne.
Qed.

Lemma nodeMap_has (ns : list Node) k :
  foldl (λ m node, <[id node := node]> m) (∅ : gmap Z Node) ns !! k = None
  ↔ k ∉ id <$> ns.
Proof.
  split.
  - intros Hnone Hin. apply (nodeMap_lookup ns ∅) in Hin as [x Hx].
    congruence.
  - intros Hk. by rewrite nodeMap_lookup_None.
Qed.

Lemma elem_of_issuesOf s (nodeMap : gmap Z Node) node x :
  x ∈ TreeService.issuesOf s nodeMap node
  ↔ ∃ p, parent_id node = Some p
         ∧ ((x = TreeService.mkIssue TreeService.orphaned_node (id node)
             ∧ nodeMap !! p = None)
            ∨ (x = TreeService.mkIssue TreeService.circular_reference (id node)
               ∧ id node ∈ TreeQueries.getAncestorIds s (id node))).
Proof.
  unfold TreeService.issuesOf. destruct (parent_id node) as [p|].
  - rewrite elem_of_app. split.
    + intros [Hx|Hx]; exists p; (split; [done|]).
      * left. destruct (decide (nodeMap !! p = None));
          [|by apply elem_of_nil in Hx].
        by apply list_elem_of_singleton in Hx.
      * right. destruct (decide (id node ∈ _));
          [|by apply elem_of_nil in Hx].
        by apply list_elem_of_singleton in Hx.
    + intros (q & [= <-] & [[-> Hnone]|[-> Hcyc]]).
      * left. rewrite decide_True by done. by left.
      * right. rewrite decide_True by done. by left.
  - split; [by intros ?%elem_of_nil|]. by intros (q & ? & _).
Qed.

Lemma elem_of_issues s x :
  x ∈ TreeService.issues (TreeService.validateTreeStructure s None)
  ↔ ∃ n p, n ∈ rows s ∧ parent_id n = Some p
           ∧ ((x = TreeService.mkIssue TreeService.orphaned_node (id n)
               ∧ p ∉ id <$> rows s)
              ∨ (x = TreeService.mkIssue TreeService.circular_reference (id n)
                 ∧ id n ∈ TreeQueries.getAncestorIds s (id n))).
Proof.
  unfold TreeService.validateTreeStructure.
  cbn [TreeService.issues default]. rewrite list_elem_of_bind.
  assert (∀ p, foldl (λ m node, <[id node := node]> m) (∅ : gmap Z Node)
                 (TreeQueries.getAllNodes s) !! p = None
               ↔ p ∉ id <$> rows s) as Hmap.
  { intros p. rewrite nodeMap_has. unfold TreeQueries.getAllNodes.
    by rewrite merge_sort_Permutation. }
  split.
  - intros (n & (p & Hp & Hcase)%elem_of_issuesOf & Hn%elem_of_getAllNodes).
    exists n, p. rewrite <- Hmap. done.
  - intros (n & p & Hn & Hp & Hcase). exists n. split.
    + apply elem_of_issuesOf. exists p. rewrite Hmap. done.
    + by apply elem_of_getAllNodes.
Qed.

(** X29.  What [validateTreeStructure()] reports is real, on every store:
    [totalNodes] is [getNodeCount], [rootNodes] is the number of rows
    [getRootNodes] returns, an [orphaned_node] issue is reported for an id
    exactly when a row of that id has a parent that no row has, a
    [circular_reference] issue only for an id that its own chain of parents
    reaches, and no [traversal_error] at all. *)
Theorem validateTreeStructure_sound (s : Store) :
  TreeService.totalNodes (TreeService.validateTreeStructure s None)
  = TreeQueries.getNodeCount s
  ∧ TreeService.rootNodes (TreeService.validateTreeStructure s None)
    = length (TreeQueries.getRootNodes s)
  ∧ (∀ i,
       TreeService.mkIssue TreeService.orphaned_node i
         ∈ TreeService.issues (TreeService.validateTreeStructure s None)
       ↔ ∃ n p, n ∈ rows s ∧ id n = i ∧ parent_id n = Some p
                ∧ p ∉ id <$> rows s)
  ∧ (∀ i,
       TreeService.mkIssue TreeService.circular_reference i
         ∈ TreeService.issues (TreeService.validateTreeStructure s None)
       → tc (parent_step (rows s)) i i)
  ∧ ∀ i,
      TreeService.mkIssue TreeService.traversal_error i
        ∉ TreeService.issues (TreeService.validateTreeStructure s None).
Proof.
  split; [|split; [|split; [|split]]].
  - unfold TreeService.validateTreeStructure, TreeQueries.getNodeCount,
      TreeQueries.getAllNodes.
    cbn [TreeService.totalNodes default].
    by rewrite merge_sort_Permutation.
  - unfold TreeService.validateTreeStructure, TreeQueries.getRootNodes,
      TreeQueries.getAllNodes.
    cbn [TreeService.rootNodes default].
    by rewrite !merge_sort_Permutation.
  - intros i. rewrite elem_of_issues. split.
    + intros (n & p & Hn & Hp & [[[= ->] Hout]|[[=] _]]). by exists n, p.
    + intros (n & p & Hn & <- & Hp & Hout). exists n, p. by auto.
  - intros i (n & p & Hn & Hp & [[[=] _]|[[= ->] Hcyc]])%elem_of_issues.
    by eapply getAncestorIds_loop_sound.
  - intros i (n & p & Hn & Hp & [[[=] _]|[[=] _]])%elem_of_issues.
Qed.

(** *** Short cycles *)

Lemma climb_add s j k i :
  climb s (j + k) i = x ← climb s j i; climb s k x.
Proof.
  revert i. induction j as [|j IH]; intros i; [done|].
  cbn [Nat.add climb]. destruct (parentOf s i) as [p|]; [|done].
  cbn [mbind option_bind]. apply IH.
Qed.

Lemma parentOf_step s i p :
  NoDup (id <$> rows s) →
  parent_step (rows s) i p ↔ parentOf s i = Some p.
Proof.
  intros Hnd. unfold parentOf. split.
  - intros (n & Hn & <- & Hp). unfold TreeQueries.getNodeById.
    by rewrite (head_filter_NoDup _ _ Hnd Hn).
  - destruct (TreeQueries.getNodeById s i) as [n|] eqn:Hn; [|done].
    cbn. intros Hp. apply getNodeById_Some in Hn as [Hn Hid]. by exists n.
Qed.

Lemma tc_climb s i x :
  NoDup (id <$> rows s) →
  tc (parent_step (rows s)) i x → ∃ k, climb s (S k) i = Some x.
Proof.
  intros Hnd.
  induction 1 as [i x Hs%(parentOf_step s _ _ Hnd)
                 |i y x Hs%(parentOf_step s _ _ Hnd) _ [k Hk]].
  - exists 0%nat. cbn [climb]. by rewrite Hs.
  - exists (S k). change (climb s (S (S k)) i)
      with (p ← parentOf s i; climb s (S k) p).
    by rewrite Hs.
Qed.

(** The guarded walk pushes what [k + 1] parent links reach, when its
    budget is above [k]. *)
Lemma climb_getAncestorIds_loop s budget k i x :
  ids_positive (rows s) →
  climb s (S k) i = Some x → (k < budget)%nat →
  x ∈ TreeQueries.getAncestorIds_loop budget s i.
Proof.
  intros Hpos. revert budget i.
  induction k as [|k IH]; intros budget i Hclimb Hlt;
    (destruct budget as [|b]; [lia|]);
    change (climb s (S ?n) i) with (p ← parentOf s i; climb s n p) in Hclimb;
    unfold parentOf in Hclimb;
    (destruct (TreeQueries.getNodeById s i) as [n|] eqn:Hn; [|done]);
    cbn [mbind option_bind] in Hclimb;
    (destruct (parent_id n) as [p|] eqn:Hp; [|done]);
    cbn [mbind option_bind] in Hclimb;
    rewrite getAncestorIds_loop_S, Hn, Hp;
    destruct (getNodeById_Some _ _ _ Hn) as [Hin Hid];
    rewrite (truthy_positive i) by (rewrite <- Hid; by apply Hpos).
  - cbn in Hclimb. injection Hclimb as ->. by left.
  - right. apply IH; [done|lia].
Qed.

Lemma not_NoDup_indices (l : list Z) :
  ¬ NoDup l →
  ∃ i j x, (i < j)%nat ∧ l !! i = Some x ∧ l !! j = Some x.
Proof.
  induction l as [|x l IH]; intros Hdup; [destruct Hdup; constructor|].
  destruct (decide (x ∈ l)) as [Hin|Hout].
  - apply list_elem_of_lookup in Hin as [j Hj].
    exists 0%nat, (S j), x. split; [lia|done].
  - destruct IH as (i & j & y & Hlt & Hi & Hj).
    + intros Hnd. apply Hdup. by constructor.
    + exists (S i), (S j), y. split; [lia|done].
Qed.

(** Among more values than a list has entries, all taken from the list, two
    are the same. *)
Lemma pigeonhole (f : nat → Z) (l : list Z) :
  (∀ j, (j ≤ length l)%nat → f j ∈ l) →
  ∃ i j, (i < j ≤ length l)%nat ∧ f i = f j.
Proof.
  intros Hf.
  destruct (not_NoDup_indices (f <$> List.seq 0 (S (length l))))
    as (i & j & x & Hlt & Hi & Hj).
  - intros Hnd.
    assert (length (f <$> List.seq 0 (S (length l))) ≤ length l)%nat as Hlen.
    { apply submseteq_length, NoDup_submseteq; [done|].
      intros y (k & -> & Hk)%list_elem_of_fmap.
      apply elem_of_seq in Hk. apply Hf. lia. }
    rewrite length_fmap, length_seq in Hlen. lia.
  - rewrite list_lookup_fmap in Hi, Hj.
    destruct (List.seq 0 (S (length l)) !! i) as [i'|] eqn:Hi'; [|done].
    destruct (List.seq 0 (S (length l)) !! j) as [j'|] eqn:Hj'; [|done].
    apply lookup_seq in Hi' as [-> Hib]. apply lookup_seq in Hj' as [-> Hjb].
    cbn in Hi, Hj. exists i, j. split; [lia|congruence].
Qed.

(** A cycle through [a] has a cycle through [a] of at most as many links as
    there are rows. *)
Lemma cycle_short s a k :
  climb s (S k) a = Some a →
  ∃ k', (k' < length (rows s))%nat ∧ climb s (S k') a = Some a.
Proof.
  intros Hcyc.
  assert (∀ m, climb s (m * S k) a = Some a) as Hround.
  { induction m as [|m IH]; [done|].
    change (S m * S k)%nat with (S k + m * S k)%nat.
    by rewrite climb_add, Hcyc. }
  assert (∀ j, is_Some (climb s j a)) as Hdef.
  { intros j. specialize (Hround j).
    replace (j * S k)%nat with (j + j * k)%nat in Hround by lia.
    rewrite climb_add in Hround.
    destruct (climb s j a); [by eauto|done]. }
  set (f := λ j, default 0 (climb s j a)).
  assert (∀ j, climb s j a = Some (f j)) as Hf.
  { intros j. unfold f. by destruct (Hdef j) as [x ->]. }
  destruct (pigeonhole f (id <$> rows s)) as (i & j & [Hij Hj] & Heq).
  { intros j _. pose proof (Hf (S j)) as HS.
    replace (S j) with (j + 1)%nat in HS by lia.
    rewrite climb_add, Hf in HS. cbn in HS. unfold parentOf in HS.
    destruct (TreeQueries.getNodeById s (f j)) as [n|] eqn:Hn; [|done].
    apply getNodeById_Some in Hn as [Hn <-]. by apply list_elem_of_fmap_2. }
  rewrite length_fmap in Hj.
  destruct (j - i)%nat as [|k'] eqn:Hk'; [lia|].
  exists k'. split; [lia|]. rewrite <- Hk'.
  pose proof (Hround i) as Hi.
  replace (i * S k)%nat with (i + i * k)%nat in Hi by lia.
  rewrite climb_add, Hf in Hi. cbn [mbind option_bind] in Hi.
  pose proof (Hround i) as Hj'.
  assert (climb s (j + i * k) a = Some a) as Hja.
  { by rewrite climb_add, Hf, <- Heq. }
  replace (j + i * k)%nat with (i * S k + (j - i))%nat in Hja by lia.
  by rewrite climb_add, Hround in Hja.
Qed.

(** In a table of at most a thousand rows with unique positive ids, the
    guarded walk from a node on a cycle comes back to the node. *)
Lemma cycle_found s a :
  NoDup (id <$> rows s) → ids_positive (rows s) →
  (length (rows s) ≤ 1000)%nat →
  tc (parent_step (rows s)) a a → a ∈ TreeQueries.getAncestorIds s a.
Proof.
  intros Hnd Hpos Hlen [k Hk]%(tc_climb s _ _ Hnd).
  destruct (cycle_short s a k Hk) as (k' & Hk' & Hcyc).
  apply (climb_getAncestorIds_loop s _ k'); [done..|].
  unfold TreeQueries.maxDepth. lia.
Qed.

(** X30.  On a table of at most a thousand rows with unique positive ids,
    [validateTreeStructure()] reports [isValid: true] exactly when the table
    has no orphan and no parent cycle. *)
Theorem validateTreeStructure_valid_iff (s : Store) :
  NoDup (id <$> rows s) →
  ids_positive (rows s) →
  (length (rows s) ≤ 1000)%nat →
  TreeService.isValid (TreeService.validateTreeStructure s None) = true
  ↔ parents_present (rows s) ∧ acyclic (rows s).
Proof.
  intros Hnd Hpos Hlen.
  assert (TreeService.isValid (TreeService.validateTreeStructure s None) = true
          ↔ TreeService.issues (TreeService.validateTreeStructure s None) = [])
    as ->.
  { unfold TreeService.validateTreeStructure.
    cbn [TreeService.isValid TreeService.issues].
    rewrite bool_decide_eq_true. apply length_zero_iff_nil. }
  split.
  - intros Hnone.
    assert (∀ x, x ∉ TreeService.issues
                       (TreeService.validateTreeStructure s None)) as Hno
      by (intros x; rewrite Hnone; apply not_elem_of_nil).
    split.
    + intros n p Hn Hp.
      destruct (decide (p ∈ id <$> rows s)) as [|Hout]; [done|].
      exfalso. eapply Hno, elem_of_issues. exists n, p. by auto.
    + intros a Ha.
      destruct (proj1 (list_elem_of_fmap _ _ _)
                  (tc_parent_step_source _ _ _ Ha)) as (n & -> & Hn).
      assert (∃ p, parent_id n = Some p) as [p Hp].
      { assert (∃ y, parent_step (rows s) (id n) y)
          as (y & m & Hm & Hid & Hmp) by (inversion Ha; eauto).
        assert (m = n) as -> by by apply (node_unique (rows s)).
        eauto. }
      eapply Hno, elem_of_issues. exists n, p.
      split; [done|]. split; [done|]. right. split; [done|].
      by apply cycle_found.
  - intros [Hpp Hacyc].
    destruct (TreeService.issues (TreeService.validateTreeStructure s None))
      as [|x issues] eqn:Hissues; [done|]. exfalso.
    assert (x ∈ TreeService.issues (TreeService.validateTreeStructure s None))
      as (n & p & Hn & Hp & [[_ Hout]|[_ Hcyc]])%elem_of_issues
      by (rewrite Hissues; by left).
    + by apply Hout, (Hpp n).
    + apply (Hacyc (id n)). by eapply getAncestorIds_loop_sound.
Qed.

Lemma validateTreeStructure_valid_iff_witness :
  TreeService.isValid (TreeService.validateTreeStructure selfLoop None) = true
  ↔ parents_present (rows selfLoop) ∧ acyclic (rows selfLoop).
Proof.
  apply (validateTreeStructure_valid_iff selfLoop).
  - apply (bool_decide_unpack _). by vm_compute.
  - intros n Hn. vm_compute in Hn. each_elem Hn ltac:(simpl; lia).
  - vm_compute. lia.
Defined.
